(** * Tournament capacity and fixture generation engine

    A shallow embedding of the engine of
    [backend/internal/services/tournament_service.go]: the capacity
    calculator, the seeding assigner, the bracket position generator, the
    single-elimination and round-robin fixture generators with their
    progression links, and the fixture count validation.

    Conventions of the embedding.
    - A Go [int] is a 64-bit two's complement integer.  In the capacity
      calculator and the validator, whose operands are request fields, it is
      a [Z] with the wrap-around written out ([GoInt.add], [GoInt.mul], ...).
      In the generators every [int] is a slice length, an index below twice
      that length, or a loop counter bounded by it, so plain [Z] is used.
    - A Go function that may panic, recurse for ever or return an [error] is
      a function into [result]: [Ret] is a normal return, [Fail] a returned
      error value, [Panic] a run-time panic and [OutOfFuel] an unbounded
      recursion cut off by the fuel of the model.
    - Pointers to heap allocated matches are indices into the list of the
      matches allocated so far.
    - The hours of a duration and their quotient by 24 are computed in
      binary64 with round to nearest, ties to even ([Float64]).  [float64]
      computations that are exact on their operands ([math.Log2],
      [math.Ceil] and [math.Pow] on slice lengths) are computed in [Z]; the
      two of the calculator that depend on rounding are its parameters
      ([Float64Ops]).
    - Log lines, timestamps, cache invalidation and notifications are left
      out. *)

From stdpp Require Import base numbers list option strings gmap sorting pretty.
From Stdlib Require Import ZArith Lia Ascii OrdersEx.

Local Open Scope Z_scope.

(** ** Outcomes of Go calls *)

(** The error values of [services] that the engine returns. *)
Inductive Error :=
  | ErrConstraintsTooRestrictive
  | ErrTournamentNotFound
  | ErrRegistrationNotClosed
  | ErrFetchParticipants
  | ErrInsufficientParticipants
  | ErrUnsupportedFormat
  | ErrCapacityExceeded
  | ErrRepository.

Inductive result (A : Type) :=
  | Ret (a : A)
  | Fail (e : Error)
  | Panic
  | OutOfFuel.
Arguments Ret {A} a.
Arguments Fail {A} e.
Arguments Panic {A}.
Arguments OutOfFuel {A}.

Global Instance result_ret : MRet result := λ A a, Ret a.
Global Instance result_bind : MBind result := λ A B f m,
  match m with
  | Ret a => f a
  | Fail e => Fail e
  | Panic => Panic
  | OutOfFuel => OutOfFuel
  end.

(** [l[i]] of a slice: a run-time panic when [i] is out of range. *)
Definition index {A} (l : list A) (i : Z) : result A :=
  if decide (i < 0) then Panic
  else match l !! Z.to_nat i with
       | Some x => Ret x
       | None => Panic
       end.

(** [l[i] = x] on a slice. *)
Definition store {A} (l : list A) (i : Z) (x : A) : result (list A) :=
  if decide (0 ≤ i < Z.of_nat (length l)) then Ret (<[Z.to_nat i := x]> l)
  else Panic.

(** [make([]int, size)]. *)
Definition make_ints (size : Z) : result (list Z) :=
  if decide (size < 0) then Panic else Ret (replicate (Z.to_nat size) 0).

(** ** Go integers *)

Module GoInt.
Definition min_int : Z := - 2 ^ 63.
Definition max_int : Z := 2 ^ 63 - 1.

(** The value of a 64-bit two's complement integer after overflow. *)
Definition wrap (z : Z) : Z := (z + 2 ^ 63) `mod` 2 ^ 64 - 2 ^ 63.

Definition add (x y : Z) : Z := wrap (x + y).
Definition sub (x y : Z) : Z := wrap (x - y).
Definition mul (x y : Z) : Z := wrap (x * y).

(** [x / y]: truncated towards zero, a panic on a zero divisor. *)
Definition div (x y : Z) : result Z :=
  if decide (y = 0) then Panic else Ret (wrap (x `quot` y)).
End GoInt.

(** ** Bracket position generator *)

(** One turn of the interleaving loop of [createBracketPositions]:
    [positions[i*2] = left[i]; positions[i*2+1] = right[half-1-i] + half]. *)
Definition interleaveStep (half : Z) (left right : list Z)
    (acc : result (list Z)) (i : Z) : result (list Z) :=
  positions ← acc;
  l ← index left i;
  positions ← store positions (i * 2) l;
  r ← index right (half - 1 - i);
  store positions (i * 2 + 1) (r + half).

(** [createBracketPositions], with the depth of the recursion bounded by
    [fuel]. *)
Fixpoint createBracketPositions_fuel (fuel : nat) (size : Z) : result (list Z) :=
  match fuel with
  | O => OutOfFuel
  | S fuel' =>
      if decide (size = 2) then Ret [0; 1]
      else
        let half := size `quot` 2 in
        left ← createBracketPositions_fuel fuel' half;
        right ← createBracketPositions_fuel fuel' half;
        positions ← make_ints size;
        foldl (interleaveStep half left right) (Ret positions) (seqZ 0 half)
  end.

(** The recursion halves [size], so [size] itself bounds its depth whenever
    it ends (see [createBracketPositions_fuel_enough]). *)
Definition createBracketPositions (size : Z) : result (list Z) :=
  createBracketPositions_fuel (Z.to_nat size) size.

(** ** Data model *)

(** [models.TournamentFormat], a string type, and its constants. *)
Definition FormatSingleElimination : string := "single_elimination".
Definition FormatDoubleElimination : string := "double_elimination".
Definition FormatRoundRobin : string := "round_robin".
Definition FormatSwiss : string := "swiss".
Definition FormatGroupToKnockout : string := "group_to_knockout".

(** [models.TournamentStatus] and [models.MatchStatus] constants. *)
Definition StatusDraft : string := "draft".
Definition StatusRegistrationClosed : string := "registration_closed".
Definition StatusInProgress : string := "in_progress".
Definition MatchPending : string := "pending".

(** [models.DayHours]: clock times written as ["09:00"]. *)
Record DayHours := { StartTime : string; EndTime : string }.

(** [models.FormatConfig], the fields the engine reads. *)
Record FormatConfig := {
  NumberOfGroups : Z;
  GroupSize : Z;
  NumberOfRounds : Z;
}.

(** A [time.Time] instant, in nanoseconds since a fixed epoch. *)
Definition Time := Z.

(** [CreateTournamentRequest], the fields the engine reads; [Venues] holds
    the venue names. *)
Module Req.
Record t := mk {
  Name : string;
  FormatType : string;
  FormatConfig : option FormatConfig;
  StartDate : Time;
  EndDate : Time;
  MaxMatchesPerDay : Z;
  OperationalHours : gmap string DayHours;
  AvgMatchDuration : Z;
  BufferTime : Z;
  Venues : list string;
}.
End Req.

(** [models.Tournament], without the presentation fields. *)
Module Tournament.
Record t := mk {
  ID : string;
  OrganizerID : string;
  Name : string;
  FormatType : string;
  FormatConfig : option FormatConfig;
  StartDate : Time;
  EndDate : Time;
  MaxMatchesPerDay : Z;
  OperationalHours : gmap string DayHours;
  AvgMatchDuration : Z;
  BufferTime : Z;
  CapacityLimit : Z;
  CurrentParticipants : Z;
  Status : string;
}.
End Tournament.

(** [models.Participant], as consumed by the engine. *)
Module Participant.
Record t := mk {
  ID : string;
  Name : string;
  Seed : option Z;
}.

Definition setSeed (seed : option Z) (p : t) : t :=
  mk (ID p) (Name p) seed.
End Participant.

(** [models.Match], the fields the generators set; the nullable pointer
    fields are options. *)
Module Match.
Record t := mk {
  ID : string;
  TournamentID : string;
  RoundNumber : Z;
  MatchNumber : Z;
  Stage : string;
  Participant1ID : option string;
  Participant2ID : option string;
  Status : string;
  NextMatchID : option string;
}.

Definition setParticipants (p1 p2 : option string) (m : t) : t :=
  mk (ID m) (TournamentID m) (RoundNumber m) (MatchNumber m) (Stage m)
     p1 p2 (Status m) (NextMatchID m).

Definition setNextMatchID (next : option string) (m : t) : t :=
  mk (ID m) (TournamentID m) (RoundNumber m) (MatchNumber m) (Stage m)
     (Participant1ID m) (Participant2ID m) (Status m) next.
End Match.

(** [SeedingData]. *)
Record SeedingData := { ParticipantID : string; SeedingSeed : Z }.

(** ** Operational-capacity calculator *)

Definition nanosPerHour : Z := 3600 * 1000000000.
Definition minDuration : Z := GoInt.min_int.
Definition maxDuration : Z := GoInt.max_int.

(** [end.Sub(start)]: a [time.Duration] in nanoseconds, saturating. *)
Definition timeSub (t u : Time) : Z := Z.max minDuration (Z.min maxDuration (t - u)).

(** Binary64 values as fractions [(num, den)] with [0 < den].  Every
    operation rounds its exact result to the nearest value with a 53-bit
    significand, ties to even.  The exponent is not bounded: the operands
    here are 64-bit integers and the constants [3.6e12] and [24], so every
    result is zero or lies between [2 ^ -42] and [2 ^ 64] in absolute value,
    far inside the normal range of the format. *)
Module Float64.
Definition t : Type := Z * Z.

(** The integer nearest to [n / d], ties to even, for [0 ≤ n] and [0 < d]. *)
Definition roundHalfEven (n d : Z) : Z :=
  let q := n `div` d in
  let r := n `mod` d in
  if decide (2 * r < d) then q
  else if decide (d < 2 * r) then q + 1
  else if Z.even q then q else q + 1.

(** The binary exponent of [n / d], that is [⌊log2 (n / d)⌋], for [0 < n]
    and [0 < d]. *)
Definition exponent (n d : Z) : Z :=
  if decide (d ≤ n) then Z.log2 (n `div` d)
  else - Z.log2_up ((d + n - 1) `div` n).

(** [n / d] rounded to a 53-bit significand, for [0 < d]. *)
Definition round (n d : Z) : t :=
  if decide (n = 0) then (0, 1)
  else
    let a := Z.abs n in
    let e := exponent a d - 52 in
    if decide (0 ≤ e)
    then (Z.sgn n * roundHalfEven a (d * 2 ^ e) * 2 ^ e, 1)
    else (Z.sgn n * roundHalfEven (a * 2 ^ (- e)) d, 2 ^ (- e)).

(** [float64(z)] of an integer. *)
Definition ofInt (z : Z) : t := round z 1.

(** [x + y]. *)
Definition add (x y : t) : t := round (x.1 * y.2 + y.1 * x.2) (x.2 * y.2).

(** [x / k] for a constant [k] that is a positive integer below [2 ^ 53]. *)
Definition divInt (x : t) (k : Z) : t := round x.1 (x.2 * k).

(** [int(x)]: truncation towards zero. *)
Definition toInt (x : t) : Z := x.1 `quot` x.2.
End Float64.

(** [Duration.Hours]: the whole hours plus the remaining nanoseconds divided
    by [60 * 60 * 1e9], both as [float64]. *)
Definition durationHours (d : Z) : Float64.t :=
  let hour := d `quot` nanosPerHour in
  let nsec := d `rem` nanosPerHour in
  Float64.add (Float64.ofInt hour) (Float64.divInt (Float64.ofInt nsec) nanosPerHour).

(** [calculateTournamentDays]: [int(end.Sub(start).Hours()/24) + 1]. *)
Definition calculateTournamentDays (start end_ : Time) : Z :=
  Float64.toInt (Float64.divInt (durationHours (timeSub end_ start)) 24) + 1.

(** A decimal digit of a clock string. *)
Definition digitOf (c : Ascii.ascii) : option Z :=
  let n := Z.of_N (Ascii.N_of_ascii c) in
  if decide (48 ≤ n ≤ 57) then Some (n - 48) else None.

(** The hour field ["15"] of a [time] layout: one or two digits. *)
Definition parseHour (s : string) : option (Z * string) :=
  match s with
  | String c1 rest =>
      d1 ← digitOf c1;
      match rest with
      | String c2 rest' =>
          match digitOf c2 with
          | Some d2 => Some (d1 * 10 + d2, rest')
          | None => Some (d1, rest)
          end
      | EmptyString => Some (d1, rest)
      end
  | EmptyString => None
  end.

(** The minute field ["04"]: exactly two digits. *)
Definition parseMinute (s : string) : option (Z * string) :=
  match s with
  | String c1 (String c2 rest) =>
      d1 ← digitOf c1; d2 ← digitOf c2; Some (d1 * 10 + d2, rest)
  | _ => None
  end.

(** The zero [time.Time] is midnight of January 1 of year 1; a clock time
    parsed with the layout ["15:04"] lies on January 1 of year 0, a leap
    year.  Both are counted here in minutes since midnight of the latter. *)
Definition zeroTimeMinutes : Z := 366 * 24 * 60.

(** [t, _ := time.Parse("15:04", s)] in minutes: the zero time when the
    string does not parse. *)
Definition parseClock (s : string) : Z :=
  default zeroTimeMinutes
    ('(h, s1) ← parseHour s;
     if decide (24 ≤ h) then None else
     match s1 with
     | String ":"%char s2 =>
         '(m, s3) ← parseMinute s2;
         if decide (60 ≤ m) then None else
         match s3 with
         | EmptyString => Some (h * 60 + m)
         | _ => None
         end
     | _ => None
     end).

(** One turn of the loop of [calculateDailyOperationalMinutes] over the
    values of the map; the state is [(totalMinutes, daysCount)]. *)
Definition dailyMinutesStep (acc : Z * Z) (dayHours : DayHours) : Z * Z :=
  let startTime := parseClock (StartTime dayHours) in
  let endTime := parseClock (EndTime dayHours) in
  let dailyMinutes := endTime - startTime in
  if decide (dailyMinutes > 0)
  then (GoInt.add acc.1 dailyMinutes, GoInt.add acc.2 1)
  else acc.

Definition calculateDailyOperationalMinutes (hours : gmap string DayHours) : result Z :=
  let '(totalMinutes, daysCount) :=
    foldl dailyMinutesStep (0, 0) (snd <$> map_to_list hours) in
  if decide (daysCount = 0) then Ret 0
  else GoInt.div totalMinutes daysCount.

(** The two [float64] computations of the calculator whose result depends on
    rounding and on the conversion of a NaN or an infinity to [int]:
    - [sqrtCapacity slots] is
      [int((1 + math.Sqrt(1 + 8*float64(slots))) / 2)];
    - [scaleCapacity total slots required] is
      [int(float64(total) * (float64(slots) / float64(required)))].
    The calculator is defined for any such pair. *)
Record Float64Ops := {
  sqrtCapacity : Z → Z;
  scaleCapacity : Z → Z → Z → Z;
}.

(** The same computations in exact arithmetic. *)
Definition exactFloat64 : Float64Ops := {|
  sqrtCapacity slots := (1 + Z.sqrt (1 + 8 * slots)) `quot` 2;
  scaleCapacity total slots required := (total * slots) `quot` required;
|}.

Section Capacity.
Variable fl : Float64Ops.

(** The [switch req.FormatType] of [calculateTournamentCapacity]. *)
Definition formatCapacity (formatType : string) (formatConfig : option FormatConfig)
    (totalMatchSlots : Z) : result Z :=
  if decide (formatType = FormatSingleElimination) then
    Ret (GoInt.add totalMatchSlots 1)
  else if decide (formatType = FormatDoubleElimination) then
    GoInt.div (GoInt.add totalMatchSlots 2) 2
  else if decide (formatType = FormatRoundRobin) then
    let capacity := sqrtCapacity fl totalMatchSlots in
    q ← GoInt.div (GoInt.mul capacity (GoInt.sub capacity 1)) 2;
    if decide (q > totalMatchSlots) then Ret (GoInt.sub capacity 1)
    else Ret capacity
  else if decide (formatType = FormatGroupToKnockout) then
    match formatConfig with
    | Some cfg =>
        if decide (GroupSize cfg > 0 ∧ NumberOfGroups cfg > 0) then
          let groupSize := GroupSize cfg in
          let numGroups := NumberOfGroups cfg in
          matchesPerGroup ← GoInt.div (GoInt.mul groupSize (GoInt.sub groupSize 1)) 2;
          let groupStageMatches := GoInt.mul numGroups matchesPerGroup in
          let knockoutTeams := GoInt.mul numGroups 2 in
          let knockoutMatches := GoInt.sub knockoutTeams 1 in
          let totalRequired := GoInt.add groupStageMatches knockoutMatches in
          if decide (totalRequired ≤ totalMatchSlots) then
            Ret (GoInt.mul numGroups groupSize)
          else
            Ret (scaleCapacity fl (GoInt.mul numGroups groupSize)
                   totalMatchSlots totalRequired)
        else GoInt.div totalMatchSlots 3
    | None => GoInt.div totalMatchSlots 3
    end
  else if decide (formatType = FormatSwiss) then
    let rounds :=
      match formatConfig with
      | Some cfg => if decide (NumberOfRounds cfg > 0) then NumberOfRounds cfg else 5
      | None => 5
      end in
    GoInt.div (GoInt.mul totalMatchSlots 2) rounds
  else
    GoInt.div totalMatchSlots 3.

(** The total match slots computed by the first half of
    [calculateTournamentCapacity]. *)
Definition totalMatchSlots (req : Req.t) : result Z :=
  let days := calculateTournamentDays (Req.StartDate req) (Req.EndDate req) in
  let totalMatchSlots := GoInt.mul (Req.MaxMatchesPerDay req) days in
  dailyMinutes ← calculateDailyOperationalMinutes (Req.OperationalHours req);
  matchesPerVenuePerDay ←
    GoInt.div dailyMinutes (GoInt.add (Req.AvgMatchDuration req) (Req.BufferTime req));
  let totalVenueCapacity :=
    GoInt.mul (GoInt.mul matchesPerVenuePerDay (Z.of_nat (length (Req.Venues req)))) days in
  if decide (totalVenueCapacity < totalMatchSlots) then Ret totalVenueCapacity
  else Ret totalMatchSlots.

Definition calculateTournamentCapacity (req : Req.t) : result Z :=
  slots ← totalMatchSlots req;
  formatCapacity (Req.FormatType req) (Req.FormatConfig req) slots.
End Capacity.

(** ** Collaborators of the engine *)

(** The outcomes of the repository calls of one service call: which
    transactions and writes succeed, and what the reads return. *)
Record Repos := {
  BeginTx : bool;
  TournamentCreateWithTx : Tournament.t → bool;
  VenueCreateWithTx : string → bool;
  Commit : bool;
  TournamentGetByIDWithDetails : string → option Tournament.t;
  GetByTournamentID : string → option (list Participant.t);
  MatchCreateWithTx : Match.t → bool;
  UpdateStatusWithTx : bool;
}.

(** ** Tournament creation *)

Section Create.
Variable fl : Float64Ops.
(** [GenerateUUID k]: the identifier returned by the call number [k] of
    [utils.GenerateUUID] within one service call. *)
Variable GenerateUUID : nat → string.
Variable repos : Repos.

Definition Create (organizerID : string) (req : Req.t) : result Tournament.t :=
  capacity ← calculateTournamentCapacity fl req;
  if decide (capacity < 2) then Fail ErrConstraintsTooRestrictive
  else
    let tournament := {|
      Tournament.ID := GenerateUUID 0;
      Tournament.OrganizerID := organizerID;
      Tournament.Name := Req.Name req;
      Tournament.FormatType := Req.FormatType req;
      Tournament.FormatConfig := Req.FormatConfig req;
      Tournament.StartDate := Req.StartDate req;
      Tournament.EndDate := Req.EndDate req;
      Tournament.MaxMatchesPerDay := Req.MaxMatchesPerDay req;
      Tournament.OperationalHours := Req.OperationalHours req;
      Tournament.AvgMatchDuration := Req.AvgMatchDuration req;
      Tournament.BufferTime := Req.BufferTime req;
      Tournament.CapacityLimit := capacity;
      Tournament.CurrentParticipants := 0;
      Tournament.Status := StatusDraft;
    |} in
    if negb (BeginTx repos) then Fail ErrRepository
    else if negb (TournamentCreateWithTx repos tournament) then Fail ErrRepository
    else if negb (forallb (VenueCreateWithTx repos) (Req.Venues req)) then Fail ErrRepository
    else if negb (Commit repos) then Fail ErrRepository
    else Ret tournament.
End Create.

(** ** Seeding assigner *)

(** [seedMap[sd.ParticipantID] = sd.Seed] over the seeding data. *)
Definition seedMapOf (data : list SeedingData) : gmap string Z :=
  foldl (λ seedMap sd, <[ParticipantID sd := SeedingSeed sd]> seedMap) ∅ data.

(** The explicit seed of a participant in the manual seed data, read off the
    entries themselves: the seed of the last entry of [data] that names the
    participant, and none when no entry does. *)
Definition explicitSeed (data : list SeedingData) (id : string) : option Z :=
  SeedingSeed <$> last (filter (λ sd, ParticipantID sd = id) data).

(** The comparison of the manual method. *)
Definition manualLess (seedMap : gmap string Z) (pi pj : Participant.t) : bool :=
  match seedMap !! Participant.ID pi, seedMap !! Participant.ID pj with
  | Some seedI, Some seedJ => bool_decide (seedI < seedJ)
  | Some _, None => true
  | None, Some _ => false
  | None, None => String.ltb (Participant.Name pi) (Participant.Name pj)
  end.

(** The comparison of the skill method. *)
Definition nameLess (pi pj : Participant.t) : bool :=
  String.ltb (Participant.Name pi) (Participant.Name pj).

(** [for i, p := range participants { seed := i + 1; p.Seed = &seed }]. *)
Definition assignSeeds (participants : list Participant.t) : list Participant.t :=
  imap (λ i p, Participant.setSeed (Some (Z.of_nat i + 1)) p) participants.

(** [l[i], l[j] = l[j], l[i]]. *)
Definition swap {A} (l : list A) (i j : Z) : result (list A) :=
  x ← index l i;
  y ← index l j;
  l ← store l i y;
  store l j x.

Section Seeding.
(** [sort.Slice] on the elements of a slice, for a comparison of elements:
    the library only promises a sorted rearrangement. *)
Variable sortSlice : ∀ A : Type, (A → A → bool) → list A → list A.
(** The number drawn from [crypto/rand] by the call number [k] of
    [utils.RandomInt], before its reduction below the bound. *)
Variable entropy : nat → Z.

(** [utils.RandomInt(max)]: uniform in [[0, max)]; [rand.Int] panics on a
    bound that is not positive. *)
Definition RandomInt (call : nat) (max : Z) : result Z :=
  if decide (max ≤ 0) then Panic else Ret (entropy call `mod` max).

(** One turn of the shuffle; the state holds the slice and the number of
    draws made so far. *)
Definition shuffleStep (acc : result (list Participant.t * nat)) (i : Z)
    : result (list Participant.t * nat) :=
  '(participants, calls) ← acc;
  j ← RandomInt calls (i + 1);
  participants ← swap participants i j;
  Ret (participants, S calls).

(** [for i := len(participants) - 1; i > 0; i--]. *)
Definition shuffle (participants : list Participant.t) : result (list Participant.t) :=
  '(participants, _) ←
    foldl shuffleStep (Ret (participants, 0%nat))
      (reverse (seqZ 1 (Z.of_nat (length participants) - 1)));
  Ret participants.

Definition applySeedingMethod (participants : list Participant.t) (method : string)
    (data : list SeedingData) : result (list Participant.t) :=
  if decide (method = "manual") then
    let seedMap := seedMapOf data in
    Ret (assignSeeds (sortSlice _ (manualLess seedMap) participants))
  else if decide (method = "random") then
    participants ← shuffle participants;
    Ret (assignSeeds participants)
  else if decide (method = "skill") then
    Ret (assignSeeds (sortSlice _ nameLess participants))
  else Ret participants.
End Seeding.

(** ** Fixture generators *)

(** [int(math.Ceil(math.Log2(float64(n))))] for a slice length [n]:
    [math.Log2] is exact on powers of two and lies strictly between two
    integers elsewhere.  The generators are called with [n >= 2] only. *)
Definition ceilLog2 (n : Z) : Z := Z.log2_up n.

(** [int(math.Pow(2, float64(k)))] for a round count [k]. *)
Definition pow2 (k : Z) : Z := 2 ^ k.

(** The loop that places the participants in [participantPositions]. *)
Definition placeStep (acc : gmap Z Participant.t) (ip : nat * Participant.t)
    : gmap Z Participant.t :=
  match Participant.Seed ip.2 with
  | Some seed => <[seed - 1 := ip.2]> acc
  | None => <[Z.of_nat ip.1 := ip.2]> acc
  end.

Definition placeParticipants (participants : list Participant.t) : gmap Z Participant.t :=
  foldl placeStep ∅ (imap pair participants).

(** [if p, exists := participantPositions[pos]; exists && pos < n]: the
    identifier stored in a first-round slot. *)
Definition firstRoundSlot (participantPositions : gmap Z Participant.t) (n pos : Z)
    : option string :=
  match participantPositions !! pos with
  | Some p => if decide (pos < n) then Some (Participant.ID p) else None
  | None => None
  end.

(** The state of the generation loops: the matches allocated so far (the
    slice [fixtures] holds the pointers to them, in this order), the match
    counter and the number of identifiers drawn. *)
Record GenState := {
  fixtures : list Match.t;
  matchNumber : Z;
  uuidCalls : nat;
}.

(** [matchesByRound[r]] where a missing key reads as the nil slice. *)
Definition roundOf (matchesByRound : gmap Z (list nat)) (r : Z) : list nat :=
  default [] (matchesByRound !! r).

(** [for _, match := range matches]: the pointers are grouped by round. *)
Definition groupByRound (heap : list Match.t) : gmap Z (list nat) :=
  foldl (λ matchesByRound km,
           <[Match.RoundNumber km.2 :=
               roundOf matchesByRound (Match.RoundNumber km.2) ++ [km.1]]> matchesByRound)
        ∅ (imap pair heap).

(** [p.NextMatchID = &q.ID] through the pointers [p] and [q]; both are
    pointers taken from the heap. *)
Definition setNext (p q : nat) (heap : list Match.t) : list Match.t :=
  match heap !! q with
  | Some next => alter (Match.setNextMatchID (Some (Match.ID next))) p heap
  | None => heap
  end.

(** The body of the inner loop of [linkBracketProgression] at an even [i];
    the indexings are guarded by the tests on the lengths. *)
Definition linkStep (currentRoundMatches nextRoundMatches : list nat)
    (heap : list Match.t) (i : nat) : list Match.t :=
  let nextMatchIndex := (i / 2)%nat in
  if decide (nextMatchIndex < length nextRoundMatches)%nat then
    match nextRoundMatches !! nextMatchIndex, currentRoundMatches !! i with
    | Some q, Some p =>
        let heap := setNext p q heap in
        if decide (i + 1 < length currentRoundMatches)%nat then
          match currentRoundMatches !! (i + 1)%nat with
          | Some p' => setNext p' q heap
          | None => heap
          end
        else heap
    | _, _ => heap
    end
  else heap.

(** The values of [i] in [for i := 0; i < len; i += 2]. *)
Definition evens (len : nat) : list nat :=
  (λ k, 2 * k)%nat <$> seq 0 ((len + 1) / 2).

Definition linkRound (matchesByRound : gmap Z (list nat)) (heap : list Match.t)
    (round : Z) : list Match.t :=
  let currentRoundMatches := roundOf matchesByRound round in
  let nextRoundMatches := roundOf matchesByRound (round + 1) in
  foldl (linkStep currentRoundMatches nextRoundMatches) heap
    (evens (length currentRoundMatches)).

(** [linkBracketProgression]: [for round := 1; round < rounds; round++]. *)
Definition linkBracketProgression (matches : list Match.t) (rounds : Z) : list Match.t :=
  let matchesByRound := groupByRound matches in
  foldl (linkRound matchesByRound) matches (seqZ 1 (rounds - 1)).

Section Generators.
Variable GenerateUUID : nat → string.

(** [fixtures = append(fixtures, match); matchNumber++], after one call of
    [utils.GenerateUUID] for the match. *)
Definition pushMatch (st : GenState) (m : Match.t) : GenState :=
  {| fixtures := fixtures st ++ [m];
     matchNumber := matchNumber st + 1;
     uuidCalls := S (uuidCalls st) |}.

(** The body of the inner loop of [generateSingleEliminationFixtures]. *)
Definition eliminationStep (tournament : Tournament.t) (n round : Z)
    (bracketPositions : list Z) (participantPositions : gmap Z Participant.t)
    (acc : result GenState) (i : Z) : result GenState :=
  st ← acc;
  let m := {|
    Match.ID := GenerateUUID (uuidCalls st);
    Match.TournamentID := Tournament.ID tournament;
    Match.RoundNumber := round;
    Match.MatchNumber := matchNumber st;
    Match.Stage := "main";
    Match.Participant1ID := None;
    Match.Participant2ID := None;
    Match.Status := MatchPending;
    Match.NextMatchID := None;
  |} in
  m ← (if decide (round = 1) then
         pos1 ← index bracketPositions (i * 2);
         pos2 ← index bracketPositions (i * 2 + 1);
         Ret (Match.setParticipants
                (firstRoundSlot participantPositions n pos1)
                (firstRoundSlot participantPositions n pos2) m)
       else Ret m);
  Ret (pushMatch st m).

(** The body of the loop over the rounds. *)
Definition eliminationRound (tournament : Tournament.t) (n targetSize : Z)
    (bracketPositions : list Z) (participantPositions : gmap Z Participant.t)
    (acc : result GenState) (round : Z) : result GenState :=
  let roundMatches := targetSize `quot` pow2 round in
  foldl (eliminationStep tournament n round bracketPositions participantPositions)
    acc (seqZ 0 roundMatches).

Definition generateSingleEliminationFixtures (tournament : Tournament.t)
    (participants : list Participant.t) : result (list Match.t) :=
  let n := Z.of_nat (length participants) in
  let rounds := ceilLog2 n in
  (* [totalMatches := n - 1] only sizes the slice [fixtures], and [make]
     panics on a negative capacity; [byes] and
     [firstRoundMatches := (n - byes) / 2] are computed and not used. *)
  let totalMatches := n - 1 in
  _ ← (if decide (totalMatches < 0) then Panic else Ret ());
  let targetSize := pow2 rounds in
  let byes := targetSize - n in
  let firstRoundMatches := (n - byes) `quot` 2 in
  bracketPositions ← createBracketPositions targetSize;
  let participantPositions := placeParticipants participants in
  st ← foldl (eliminationRound tournament n targetSize bracketPositions
                participantPositions)
         (Ret {| fixtures := []; matchNumber := 1; uuidCalls := 0 |})
         (seqZ 1 rounds);
  Ret (linkBracketProgression (fixtures st) rounds).

(** The body of the inner loop of [generateRoundRobinFixtures]. *)
Definition roundRobinStep (tournament : Tournament.t)
    (participants : list Participant.t) (i : Z)
    (acc : result GenState) (j : Z) : result GenState :=
  st ← acc;
  pi ← index participants i;
  pj ← index participants j;
  Ret (pushMatch st {|
    Match.ID := GenerateUUID (uuidCalls st);
    Match.TournamentID := Tournament.ID tournament;
    Match.RoundNumber := 1;
    Match.MatchNumber := matchNumber st;
    Match.Stage := "main";
    Match.Participant1ID := Some (Participant.ID pi);
    Match.Participant2ID := Some (Participant.ID pj);
    Match.Status := MatchPending;
    Match.NextMatchID := None;
  |}).

(** [for j := i + 1; j < n; j++]. *)
Definition roundRobinRow (tournament : Tournament.t)
    (participants : list Participant.t) (n : Z)
    (acc : result GenState) (i : Z) : result GenState :=
  foldl (roundRobinStep tournament participants i) acc (seqZ (i + 1) (n - (i + 1))).

Definition generateRoundRobinFixtures (tournament : Tournament.t)
    (participants : list Participant.t) : result (list Match.t) :=
  let n := Z.of_nat (length participants) in
  st ← foldl (roundRobinRow tournament participants n)
         (Ret {| fixtures := []; matchNumber := 1; uuidCalls := 0 |})
         (seqZ 0 n);
  Ret (fixtures st).
End Generators.

(** ** Fixture generation and validation *)

(** The validation block of [GenerateFixtures]: the number of fixtures
    against [MaxMatchesPerDay * days]. *)
Definition validateFixtureCount (tournament : Tournament.t) (fixtures : list Match.t)
    : result () :=
  let maxPossibleMatches :=
    GoInt.mul (Tournament.MaxMatchesPerDay tournament)
      (calculateTournamentDays (Tournament.StartDate tournament)
         (Tournament.EndDate tournament)) in
  if decide (Z.of_nat (length fixtures) > maxPossibleMatches)
  then Fail ErrCapacityExceeded
  else Ret ().

Section GenerateFixtures.
Variable sortSlice : ∀ A : Type, (A → A → bool) → list A → list A.
Variable entropy : nat → Z.
Variable GenerateUUID : nat → string.
(** The generators of the other formats, whose code is not in the file. *)
Variable generateDoubleEliminationFixtures generateGroupToKnockoutFixtures
         generateSwissFirstRound
  : Tournament.t → list Participant.t → result (list Match.t).
Variable repos : Repos.

(** The [switch tournament.FormatType] of [GenerateFixtures]. *)
Definition generateByFormat (tournament : Tournament.t)
    (seededParticipants : list Participant.t) : result (list Match.t) :=
  let formatType := Tournament.FormatType tournament in
  if decide (formatType = FormatSingleElimination) then
    generateSingleEliminationFixtures GenerateUUID tournament seededParticipants
  else if decide (formatType = FormatDoubleElimination) then
    generateDoubleEliminationFixtures tournament seededParticipants
  else if decide (formatType = FormatRoundRobin) then
    generateRoundRobinFixtures GenerateUUID tournament seededParticipants
  else if decide (formatType = FormatGroupToKnockout) then
    generateGroupToKnockoutFixtures tournament seededParticipants
  else if decide (formatType = FormatSwiss) then
    generateSwissFirstRound tournament seededParticipants
  else Fail ErrUnsupportedFormat.

Definition GenerateFixtures (tournamentID seedingMethod : string)
    (seedingData : list SeedingData) : result (list Match.t) :=
  match TournamentGetByIDWithDetails repos tournamentID with
  | None => Fail ErrTournamentNotFound
  | Some tournament =>
      if decide (Tournament.Status tournament ≠ StatusRegistrationClosed)
      then Fail ErrRegistrationNotClosed
      else
        match GetByTournamentID repos tournamentID with
        | None => Fail ErrFetchParticipants
        | Some participants =>
            if decide (length participants < 2)%nat
            then Fail ErrInsufficientParticipants
            else
              seededParticipants ←
                applySeedingMethod sortSlice entropy participants seedingMethod
                  seedingData;
              fixtures ← generateByFormat tournament seededParticipants;
              _ ← validateFixtureCount tournament fixtures;
              if negb (BeginTx repos) then Fail ErrRepository
              else if negb (forallb (MatchCreateWithTx repos) fixtures)
              then Fail ErrRepository
              else if negb (UpdateStatusWithTx repos) then Fail ErrRepository
              else if negb (Commit repos) then Fail ErrRepository
              else Ret fixtures
        end
  end.
End GenerateFixtures.

(** ** Notions used in the statements *)

(** A size the bracket position generator is meant for: a power of two that
    is at least 2. *)
Definition validSize (size : Z) : Prop := ∃ k : Z, 1 ≤ k ∧ size = 2 ^ k.

(** The pair of slots written by turn [i] of the interleaving loop. *)
Definition interleavedPair (half : nat) (left right : list Z) (i : nat) : list Z :=
  [left !!! i; right !!! (half - 1 - i)%nat + Z.of_nat half].

(** The slots written by the whole loop. *)
Definition interleaved (half : nat) (left right : list Z) : list Z :=
  seq 0 half ≫= interleavedPair half left right.

(** The state of the generation loops after the matches [l]. *)
Definition stateOf (l : list Match.t) : GenState :=
  {| fixtures := l;
     matchNumber := Z.of_nat (length l) + 1;
     uuidCalls := length l |}.

Section Bracket.
Variable GenerateUUID : nat → string.
Variable tournament : Tournament.t.
Variable n targetSize : Z.
Variable bracketPositions : list Z.
Variable participantPositions : gmap Z Participant.t.

(** The match number [i] of round [round], allocated after [off] others. *)
Definition roundMatch (round : Z) (off i : nat) : Match.t := {|
  Match.ID := GenerateUUID (off + i);
  Match.TournamentID := Tournament.ID tournament;
  Match.RoundNumber := round;
  Match.MatchNumber := Z.of_nat (off + i) + 1;
  Match.Stage := "main";
  Match.Participant1ID :=
    if decide (round = 1)
    then firstRoundSlot participantPositions n (bracketPositions !!! (2 * i)%nat)
    else None;
  Match.Participant2ID :=
    if decide (round = 1)
    then firstRoundSlot participantPositions n (bracketPositions !!! (2 * i + 1)%nat)
    else None;
  Match.Status := MatchPending;
  Match.NextMatchID := None;
|}.

(** The matches of one round. *)
Definition roundBlock (round : Z) (off : nat) : list Match.t :=
  roundMatch round off <$> seq 0 (Z.to_nat (targetSize `quot` pow2 round)).

(** The matches of the rounds [rounds], before they are linked. *)
Fixpoint bracket (rounds : list Z) (off : nat) : list Match.t :=
  match rounds with
  | [] => []
  | round :: rounds =>
      roundBlock round off ++ bracket rounds (off + length (roundBlock round off))
  end.
End Bracket.

(** A match without its progression link. *)
Definition clearNext (m : Match.t) : Match.t := Match.setNextMatchID None m.

(** The pointers to the matches of round [r], in allocation order. *)
Definition indicesOfRound (heap : list Match.t) (r : Z) : list nat :=
  filter (λ k, Match.RoundNumber <$> heap !! k = Some r) (seq 0 (length heap)).

(** What the linking loops maintain over a heap [h] that started as
    [heap0]: only progression links have changed, and a link that is set was
    written from position [p] of a round to position [p / 2] of the round
    after. *)
Definition linked (heap0 h : list Match.t) : Prop :=
  clearNext <$> h = clearNext <$> heap0 ∧
  ∀ (k : nat) (m : Match.t), h !! k = Some m →
    Match.NextMatchID m = None ∨
    ∃ (p q : nat) (next : Match.t),
      indicesOfRound heap0 (Match.RoundNumber m) !! p = Some k ∧
      indicesOfRound heap0 (Match.RoundNumber m + 1) !! (p / 2)%nat = Some q ∧
      heap0 !! q = Some next ∧
      Match.NextMatchID m = Some (Match.ID next).

(** What a first-round slot for bracket position [pos] holds when the
    participants carry the seeds 1 to [n]: the participant with seed
    [pos + 1], or nothing (a bye) from position [n] on. *)
Definition seededSlot (participants : list Participant.t) (n pos : Z)
    (slot : option string) : Prop :=
  (pos < n →
   ∃ p, p ∈ participants ∧ Participant.Seed p = Some (pos + 1) ∧
        slot = Some (Participant.ID p)) ∧
  (n ≤ pos → slot = None).

(** The pairs of positions of the round robin in generation order: for each
    [i], the pairs [(i, j)] with [i < j < n]. *)
Definition rowPairs (n i : nat) : list (nat * nat) :=
  pair i <$> seq (S i) (n - S i).

Definition roundRobinPairs (n : nat) : list (nat * nat) :=
  seq 0 n ≫= rowPairs n.

(** The match for the pair [ij], allocated after [k] others. *)
Definition roundRobinMatch (GenerateUUID : nat → string) (tournament : Tournament.t)
    (participants : list Participant.t) (k : nat) (ij : nat * nat) : Match.t := {|
  Match.ID := GenerateUUID k;
  Match.TournamentID := Tournament.ID tournament;
  Match.RoundNumber := 1;
  Match.MatchNumber := Z.of_nat k + 1;
  Match.Stage := "main";
  Match.Participant1ID := Participant.ID <$> participants !! ij.1;
  Match.Participant2ID := Participant.ID <$> participants !! ij.2;
  Match.Status := MatchPending;
  Match.NextMatchID := None;
|}.

(** A comparison [sort.Slice] can sort by: a strict weak ordering. *)
Record StrictWeakOrder {A : Type} (less : A → A → bool) : Prop := {
  swo_irrefl : ∀ x, less x x = false;
  swo_trans : ∀ x y z, less x y = true → less y z = true → less x z = true;
  swo_comparison : ∀ x y z, less x z = true → less x y = true ∨ less y z = true;
}.

(** What [sort.Slice] promises: the slice is rearranged, and for a strict
    weak ordering no element is less than an element before it.  The order
    among equivalent elements is not specified. *)
Record SortContract (sortSlice : ∀ A : Type, (A → A → bool) → list A → list A)
    : Prop := {
  sort_permutation : ∀ A (less : A → A → bool) (l : list A),
    sortSlice A less l ≡ₚ l;
  sort_sorted : ∀ A (less : A → A → bool) (l : list A),
    StrictWeakOrder less →
    ∀ (i j : nat) (x y : A), (i < j)%nat →
      sortSlice A less l !! i = Some x → sortSlice A less l !! j = Some y →
      less y x = false;
}.

(** A participant without its seed. *)
Definition clearSeed (p : Participant.t) : Participant.t := Participant.setSeed None p.

(** ** Instances used to run the model *)

(** A sorting function that meets the contract of [sort.Slice]. *)
Definition mergeSortSlice (A : Type) (less : A → A → bool) (l : list A) : list A :=
  @merge_sort A (λ x y, less y x = false) (λ x y, decide (less y x = false)) l.

(** An identifier source without collisions. *)
Definition exampleUUID (k : nat) : string := pretty k.

Definition exampleEntropy (k : nat) : Z := Z.of_nat k * 7 + 3.

Definition exampleTournament : Tournament.t := {|
  Tournament.ID := "t1";
  Tournament.OrganizerID := "o1";
  Tournament.Name := "Open";
  Tournament.FormatType := FormatSingleElimination;
  Tournament.FormatConfig := None;
  Tournament.StartDate := 0;
  Tournament.EndDate := 0;
  Tournament.MaxMatchesPerDay := 4;
  Tournament.OperationalHours := {[ "monday" := {| StartTime := "09:00"; EndTime := "17:00" |} ]};
  Tournament.AvgMatchDuration := 30;
  Tournament.BufferTime := 10;
  Tournament.CapacityLimit := 5;
  Tournament.CurrentParticipants := 3;
  Tournament.Status := StatusRegistrationClosed;
|}.

Definition exampleParticipants : list Participant.t := [
  {| Participant.ID := "a"; Participant.Name := "Ann"; Participant.Seed := Some 1 |};
  {| Participant.ID := "b"; Participant.Name := "Bob"; Participant.Seed := Some 2 |};
  {| Participant.ID := "c"; Participant.Name := "Cyd"; Participant.Seed := Some 3 |}
].

(** The request of the capacity example: one day, at most 4 matches a day,
    one venue open from 09:00 to 17:00, matches of 30 minutes with 10
    minutes between them. *)
Definition exampleRequest : Req.t := {|
  Req.Name := "Open";
  Req.FormatType := FormatSingleElimination;
  Req.FormatConfig := None;
  Req.StartDate := 0;
  Req.EndDate := 0;
  Req.MaxMatchesPerDay := 4;
  Req.OperationalHours := {[ "monday" := {| StartTime := "09:00"; EndTime := "17:00" |} ]};
  Req.AvgMatchDuration := 30;
  Req.BufferTime := 10;
  Req.Venues := ["court 1"];
|}.

Definition exampleRepos : Repos := {|
  BeginTx := true;
  TournamentCreateWithTx _ := true;
  VenueCreateWithTx _ := true;
  Commit := true;
  TournamentGetByIDWithDetails _ := Some exampleTournament;
  GetByTournamentID _ := Some exampleParticipants;
  MatchCreateWithTx _ := true;
  UpdateStatusWithTx := true;
|}.

(** The request of the example with both dates at [day]. *)
Definition exampleRequestAt (day : Time) : Req.t := {|
  Req.Name := Req.Name exampleRequest;
  Req.FormatType := Req.FormatType exampleRequest;
  Req.FormatConfig := Req.FormatConfig exampleRequest;
  Req.StartDate := day;
  Req.EndDate := day;
  Req.MaxMatchesPerDay := Req.MaxMatchesPerDay exampleRequest;
  Req.OperationalHours := Req.OperationalHours exampleRequest;
  Req.AvgMatchDuration := Req.AvgMatchDuration exampleRequest;
  Req.BufferTime := Req.BufferTime exampleRequest;
  Req.Venues := Req.Venues exampleRequest;
|}.

(** The request of the example over a span one nanosecond short of 171
    days. *)
Definition edgeRequest : Req.t := {|
  Req.Name := Req.Name exampleRequest;
  Req.FormatType := Req.FormatType exampleRequest;
  Req.FormatConfig := Req.FormatConfig exampleRequest;
  Req.StartDate := 0;
  Req.EndDate := 171 * (24 * nanosPerHour) - 1;
  Req.MaxMatchesPerDay := Req.MaxMatchesPerDay exampleRequest;
  Req.OperationalHours := Req.OperationalHours exampleRequest;
  Req.AvgMatchDuration := Req.AvgMatchDuration exampleRequest;
  Req.BufferTime := Req.BufferTime exampleRequest;
  Req.Venues := Req.Venues exampleRequest;
|}.

(** Manual seed data for the participants of the example: Cyd first, Ann
    second, and no seed for Bob. *)
Definition exampleSeeding : list SeedingData := [
  {| ParticipantID := "c"; SeedingSeed := 1 |};
  {| ParticipantID := "a"; SeedingSeed := 2 |}
].

(** A request whose constraints leave room for no match at all. *)
Definition restrictiveRequest : Req.t := {|
  Req.Name := "Closed";
  Req.FormatType := FormatSingleElimination;
  Req.FormatConfig := None;
  Req.StartDate := 0;
  Req.EndDate := 0;
  Req.MaxMatchesPerDay := 0;
  Req.OperationalHours := ∅;
  Req.AvgMatchDuration := 30;
  Req.BufferTime := 10;
  Req.Venues := ["court 1"];
|}.

(** Generators standing for the formats whose code is not in the file. *)
Definition noFixtures (tournament : Tournament.t) (participants : list Participant.t)
    : result (list Match.t) := Ret [].

(** ** Further notions used in the statements *)

(** The pointer [k] holds a match whose progression link is set. *)
Definition hasNext (h : list Match.t) (k : nat) : Prop :=
  ∃ m, h !! k = Some m ∧ is_Some (Match.NextMatchID m).

(** The number of matches of the bracket for [2 ^ rounds] slots that come
    before round [r] in the fixture list. *)
Definition roundOffset (rounds r : Z) : nat :=
  Z.to_nat (pow2 rounds - pow2 (rounds - (r - 1))).

(** The number of matches of round [r] in that bracket. *)
Definition roundSize (rounds r : Z) : nat := Z.to_nat (pow2 (rounds - r)).

(** The participant slots of the first round, in match order. *)
Definition firstRoundSlots (fx : list Match.t) : list (option string) :=
  filter (λ m, Match.RoundNumber m = 1) fx
    ≫= λ m, [Match.Participant1ID m; Match.Participant2ID m].

(** Two seeded participants and two participants that were never seeded. *)
Definition examplePair : list Participant.t := take 2 exampleParticipants.

Definition exampleUnseeded : list Participant.t :=
  Participant.setSeed None <$> examplePair.

(** The example tournament played as a round robin, and its repositories. *)
Definition exampleRoundRobin : Tournament.t := {|
  Tournament.ID := Tournament.ID exampleTournament;
  Tournament.OrganizerID := Tournament.OrganizerID exampleTournament;
  Tournament.Name := Tournament.Name exampleTournament;
  Tournament.FormatType := FormatRoundRobin;
  Tournament.FormatConfig := Tournament.FormatConfig exampleTournament;
  Tournament.StartDate := Tournament.StartDate exampleTournament;
  Tournament.EndDate := Tournament.EndDate exampleTournament;
  Tournament.MaxMatchesPerDay := Tournament.MaxMatchesPerDay exampleTournament;
  Tournament.OperationalHours := Tournament.OperationalHours exampleTournament;
  Tournament.AvgMatchDuration := Tournament.AvgMatchDuration exampleTournament;
  Tournament.BufferTime := Tournament.BufferTime exampleTournament;
  Tournament.CapacityLimit := Tournament.CapacityLimit exampleTournament;
  Tournament.CurrentParticipants := Tournament.CurrentParticipants exampleTournament;
  Tournament.Status := Tournament.Status exampleTournament;
|}.

Definition exampleRoundRobinRepos : Repos := {|
  BeginTx := true;
  TournamentCreateWithTx _ := true;
  VenueCreateWithTx _ := true;
  Commit := true;
  TournamentGetByIDWithDetails _ := Some exampleRoundRobin;
  GetByTournamentID _ := Some exampleParticipants;
  MatchCreateWithTx _ := true;
  UpdateStatusWithTx := true;
|}.

(** ** Notions for the capacity calculator *)

(** The result of [time.Parse("15:04", s)] in minutes after midnight, when
    the string parses. *)
Definition parseClockOpt (s : string) : option Z :=
  '(h, s1) ← parseHour s;
  if decide (24 ≤ h) then None else
  match s1 with
  | String ":"%char s2 =>
      '(m, s3) ← parseMinute s2;
      if decide (60 ≤ m) then None else
      match s3 with
      | EmptyString => Some (h * 60 + m)
      | _ => None
      end
  | _ => None
  end.

(** The minutes between the opening and the closing time of an entry of the
    operational hours, as the calculator reads them. *)
Definition window (dayHours : DayHours) : Z :=
  parseClock (EndTime dayHours) - parseClock (StartTime dayHours).

(** The windows that the calculator counts. *)
Definition positiveWindows (hours : gmap string DayHours) : list Z :=
  filter (λ w, 0 < w) (window <$> (snd <$> map_to_list hours)).

Definition sumZ (l : list Z) : Z := foldr Z.add 0 l.

(** Five seeded participants, and repositories that hold them for the
    example tournament. *)
Definition exampleFive : list Participant.t :=
  exampleParticipants ++ [
    {| Participant.ID := "d"; Participant.Name := "Dee"; Participant.Seed := Some 4 |};
    {| Participant.ID := "e"; Participant.Name := "Eve"; Participant.Seed := Some 5 |}
  ].

Definition exampleFullRepos : Repos := {|
  BeginTx := true;
  TournamentCreateWithTx _ := true;
  VenueCreateWithTx _ := true;
  Commit := true;
  TournamentGetByIDWithDetails _ := Some exampleTournament;
  GetByTournamentID _ := Some exampleFive;
  MatchCreateWithTx _ := true;
  UpdateStatusWithTx := true;
|}.

(** ** Match progression *)

(** More [models.MatchStatus] constants. *)
Definition MatchScheduled : string := "scheduled".
Definition MatchInProgress : string := "in_progress".
Definition MatchCompleted : string := "completed".
Definition MatchCancelled : string := "cancelled".

(** A row of the table [matches], also the [models.Match] that
    [MatchRepository.GetByID] scans it into: the fields the generators set
    and the result and schedule columns.  The timestamps, the group name and
    the score details are left out. *)
Module MatchRow.
Record t := mk {
  Fixture : Match.t;
  WinnerID : option string;
  Score1 : option Z;
  Score2 : option Z;
  ScheduledDatetime : option Time;
  VenueID : option string;
  RefereeID : option string;
  Notes : option string;
}.

Definition ID (r : t) : string := Match.ID (Fixture r).
Definition Status (r : t) : string := Match.Status (Fixture r).
Definition Participant1ID (r : t) : option string := Match.Participant1ID (Fixture r).
Definition Participant2ID (r : t) : option string := Match.Participant2ID (Fixture r).
Definition NextMatchID (r : t) : option string := Match.NextMatchID (Fixture r).

Definition setFixture (m : Match.t) (r : t) : t :=
  mk m (WinnerID r) (Score1 r) (Score2 r) (ScheduledDatetime r) (VenueID r)
     (RefereeID r) (Notes r).

Definition setStatus (status : string) (r : t) : t :=
  let m := Fixture r in
  setFixture
    (Match.mk (Match.ID m) (Match.TournamentID m) (Match.RoundNumber m)
       (Match.MatchNumber m) (Match.Stage m) (Match.Participant1ID m)
       (Match.Participant2ID m) status (Match.NextMatchID m)) r.

Definition setParticipants (p1 p2 : option string) (r : t) : t :=
  setFixture (Match.setParticipants p1 p2 (Fixture r)) r.

Definition setSchedule (scheduled : option Time) (venue referee notes : option string)
    (r : t) : t :=
  mk (Fixture r) (WinnerID r) (Score1 r) (Score2 r) scheduled venue referee notes.

Definition setScore (score1 score2 : Z) (winner : string) (r : t) : t :=
  mk (Fixture r) (Some winner) (Some score1) (Some score2) (ScheduledDatetime r)
     (VenueID r) (RefereeID r) (Notes r).
End MatchRow.

(** The row that [MatchRepository.CreateWithTx] inserts for a generated
    fixture. *)
Definition newRow (m : Match.t) : MatchRow.t := {|
  MatchRow.Fixture := m;
  MatchRow.WinnerID := None;
  MatchRow.Score1 := None;
  MatchRow.Score2 := None;
  MatchRow.ScheduledDatetime := None;
  MatchRow.VenueID := None;
  MatchRow.RefereeID := None;
  MatchRow.Notes := None;
|}.

(** The errors of the match service. *)
Inductive MatchError :=
  | ErrMatchNotFound
  | ErrDatabase
  | ErrVenueNotFound
  | ErrVenueOfOtherTournament
  | ErrScoreNotReportable
  | ErrTieScore
  | ErrUpdateScore
  | ErrGetNextMatch
  | ErrNextMatchFull
  | ErrUpdateNextMatch
  | ErrCancelCompleted.

(** A computation of the match service over the table [matches]: it
    returns the table as its statements left it together with an error or a
    value.  Every statement of the match repository runs on the database
    handle, outside any transaction, so what is written before an error
    stays written. *)
Definition svc (A : Type) : Type :=
  list MatchRow.t → list MatchRow.t * (MatchError + A).

Global Instance svc_ret : MRet svc := λ A a table, (table, inr a).
Global Instance svc_bind : MBind svc := λ A B f m table,
  match m table with
  | (table', inl e) => (table', inl e)
  | (table', inr a) => f a table'
  end.

Definition raise {A} (e : MatchError) : svc A := λ table, (table, inl e).

(** [fmt.Errorf("...: %w", err)]: the error of a step under another name. *)
Definition wrapError {A} (e : MatchError) (m : svc A) : svc A := λ table,
  match m table with
  | (table', inl _) => (table', inl e)
  | r => r
  end.

(** Which statements and transaction calls of one service call succeed, and
    what the venue repository returns for a venue: the identifier of its
    tournament, or nothing for an error. *)
Record Outcomes := {
  getMatchOk : bool;
  getNextMatchOk : bool;
  beginTxOk : bool;
  updateScoreOk : bool;
  updateOk : bool;
  updateStatusOk : bool;
  commitOk : bool;
  venueTournament : string → option string;
}.

Module MatchRepository.
(** [GetByID]: the first row with the identifier. *)
Definition GetByID (ok : bool) (id : string) : svc MatchRow.t := λ table,
  if ok then
    match head (filter (λ r, MatchRow.ID r = id) table) with
    | Some r => (table, inr r)
    | None => (table, inl ErrMatchNotFound)
    end
  else (table, inl ErrDatabase).

(** A statement [UPDATE matches SET ... WHERE id = ?]. *)
Definition updateWhere (ok : bool) (id : string) (set : MatchRow.t → MatchRow.t)
    : svc () := λ table,
  if ok then
    ((λ r, if decide (MatchRow.ID r = id) then set r else r) <$> table, inr ())
  else (table, inl ErrDatabase).

(** [Update]: writes the schedule, the venue, the referee and the notes. *)
Definition Update (ok : bool) (m : MatchRow.t) : svc () :=
  updateWhere ok (MatchRow.ID m)
    (MatchRow.setSchedule (MatchRow.ScheduledDatetime m) (MatchRow.VenueID m)
       (MatchRow.RefereeID m) (MatchRow.Notes m)).

(** [UpdateScore]: writes the scores, the winner and the status completed. *)
Definition UpdateScore (ok : bool) (id : string) (score1 score2 : Z)
    (winnerID : string) : svc () :=
  updateWhere ok id
    (λ r, MatchRow.setStatus MatchCompleted (MatchRow.setScore score1 score2 winnerID r)).

Definition UpdateStatus (ok : bool) (id status : string) : svc () :=
  updateWhere ok id (MatchRow.setStatus status).
End MatchRepository.

Module MatchService.
(** [tx, err := s.repos.BeginTx(ctx)] and [tx.Commit()]: no statement of the
    service runs in the transaction, so neither touches the table. *)
Definition transactionCall (ok : bool) : svc () :=
  if ok then mret () else raise ErrDatabase.

Definition UpdateSchedule (o : Outcomes) (matchID : string) (scheduledTime : Time)
    (venueID : string) : svc () :=
  m ← MatchRepository.GetByID (getMatchOk o) matchID;
  _ ← (if decide (venueID ≠ "") then
         match venueTournament o venueID with
         | None => raise ErrVenueNotFound
         | Some tournamentID =>
             if decide (tournamentID ≠ Match.TournamentID (MatchRow.Fixture m))
             then raise ErrVenueOfOtherTournament
             else mret ()
         end
       else mret ());
  let m := MatchRow.setSchedule (Some scheduledTime) (Some venueID)
             (MatchRow.RefereeID m) (MatchRow.Notes m) m in
  let m := MatchRow.setStatus MatchScheduled m in
  MatchRepository.Update (updateOk o) m.

(** The winner that [ReportScore] determines. *)
Definition winnerOf (m : MatchRow.t) (score1 score2 : Z) : option string :=
  if decide (score1 > score2 ∧ MatchRow.Participant1ID m ≠ None)
  then MatchRow.Participant1ID m
  else if decide (score2 > score1 ∧ MatchRow.Participant2ID m ≠ None)
  then MatchRow.Participant2ID m
  else None.

(** The bracket progression of [ReportScore]. *)
Definition advanceWinner (o : Outcomes) (nextID winnerID : string) : svc () :=
  nextMatch ← wrapError ErrGetNextMatch
                 (MatchRepository.GetByID (getNextMatchOk o) nextID);
  nextMatch ←
    (if decide (MatchRow.Participant1ID nextMatch = None) then
       mret (MatchRow.setParticipants (Some winnerID)
               (MatchRow.Participant2ID nextMatch) nextMatch)
     else if decide (MatchRow.Participant2ID nextMatch = None) then
       mret (MatchRow.setParticipants (MatchRow.Participant1ID nextMatch)
               (Some winnerID) nextMatch)
     else raise ErrNextMatchFull);
  wrapError ErrUpdateNextMatch (MatchRepository.Update (updateOk o) nextMatch).

Definition ReportScore (o : Outcomes) (matchID : string) (score1 score2 : Z)
    : svc () :=
  m ← MatchRepository.GetByID (getMatchOk o) matchID;
  if decide (MatchRow.Status m ≠ MatchScheduled ∧ MatchRow.Status m ≠ MatchInProgress)
  then raise ErrScoreNotReportable
  else
    match winnerOf m score1 score2 with
    | None => raise ErrTieScore
    | Some winnerID =>
        _ ← transactionCall (beginTxOk o);
        _ ← wrapError ErrUpdateScore
              (MatchRepository.UpdateScore (updateScoreOk o) matchID score1 score2
                 winnerID);
        _ ← match MatchRow.NextMatchID m with
            | Some nextID => advanceWinner o nextID winnerID
            | None => mret ()
            end;
        transactionCall (commitOk o)
    end.

Definition StartMatch (o : Outcomes) (matchID : string) : svc () :=
  MatchRepository.UpdateStatus (updateStatusOk o) matchID MatchInProgress.

Definition CancelMatch (o : Outcomes) (matchID reason : string) : svc () :=
  m ← MatchRepository.GetByID (getMatchOk o) matchID;
  if decide (MatchRow.Status m = MatchCompleted) then raise ErrCancelCompleted
  else
    let m := MatchRow.setStatus MatchCancelled m in
    let m := MatchRow.setSchedule (MatchRow.ScheduledDatetime m) (MatchRow.VenueID m)
               (MatchRow.RefereeID m) (Some reason) m in
    MatchRepository.Update (updateOk o) m.
End MatchService.

(** A call of the match service, and a sequence of calls, each with the
    outcomes of its statements. *)
Inductive MatchCall :=
  | CallUpdateSchedule (matchID : string) (scheduledTime : Time) (venueID : string)
  | CallReportScore (matchID : string) (score1 score2 : Z)
  | CallStartMatch (matchID : string)
  | CallCancelMatch (matchID reason : string).

Definition runCall (table : list MatchRow.t) (c : Outcomes * MatchCall)
    : list MatchRow.t :=
  match c.2 with
  | CallUpdateSchedule matchID scheduledTime venueID =>
      (MatchService.UpdateSchedule c.1 matchID scheduledTime venueID table).1
  | CallReportScore matchID score1 score2 =>
      (MatchService.ReportScore c.1 matchID score1 score2 table).1
  | CallStartMatch matchID => (MatchService.StartMatch c.1 matchID table).1
  | CallCancelMatch matchID reason =>
      (MatchService.CancelMatch c.1 matchID reason table).1
  end.

Definition runCalls (calls : list (Outcomes * MatchCall)) (table : list MatchRow.t)
    : list MatchRow.t :=
  foldl runCall table calls.

(** The columns of a row that hold the bracket: the identifiers, the
    place in the bracket, the participants and the progression link. *)
Definition bracketColumns (r : MatchRow.t)
    : string * string * Z * Z * string * option string * option string
      * option string :=
  (MatchRow.ID r, Match.TournamentID (MatchRow.Fixture r),
   Match.RoundNumber (MatchRow.Fixture r), Match.MatchNumber (MatchRow.Fixture r),
   Match.Stage (MatchRow.Fixture r), MatchRow.Participant1ID r,
   MatchRow.Participant2ID r, MatchRow.NextMatchID r).

(** The columns of a row that hold its state and result. *)
Definition resultColumns (r : MatchRow.t)
    : string * option string * option Z * option Z :=
  (MatchRow.Status r, MatchRow.WinnerID r, MatchRow.Score1 r, MatchRow.Score2 r).

(** A computation that leaves every row of the table related to what it
    was. *)
Definition keeps (rel : relation MatchRow.t) {A} (m : svc A) : Prop :=
  ∀ table, Forall2 rel table (m table).1.

(** What [UpdateScore] leaves in the table. *)
Definition recordScore (matchID : string) (score1 score2 : Z) (winnerID : string)
    (table : list MatchRow.t) : list MatchRow.t :=
  (λ r, if decide (MatchRow.ID r = matchID)
        then MatchRow.setStatus MatchCompleted
               (MatchRow.setScore score1 score2 winnerID r)
        else r) <$> table.

(** Outcomes without a failure, for venues of the example tournament. *)
Definition allOk : Outcomes := {|
  getMatchOk := true;
  getNextMatchOk := true;
  beginTxOk := true;
  updateScoreOk := true;
  updateOk := true;
  updateStatusOk := true;
  commitOk := true;
  venueTournament _ := Some "t1";
|}.

(** Two tables for the examples: a scheduled match between two participants
    whose next match is empty, or already has both participants. *)
Definition exampleRow (id status : string) (p1 p2 next : option string) : MatchRow.t :=
  newRow (Match.mk id "t1" 1 1 "main" p1 p2 status next).

Definition exampleTable : list MatchRow.t := [
  exampleRow "m1" MatchScheduled (Some "a") (Some "b") (Some "m3");
  exampleRow "m3" MatchPending None None None
].

Definition exampleFullTable : list MatchRow.t := [
  exampleRow "m1" MatchScheduled (Some "a") (Some "b") (Some "m3");
  exampleRow "m3" MatchPending (Some "c") (Some "d") None
].

(** A row without participants keeps that state: it neither becomes
    completed nor gets a winner. *)
Definition staysOpen (r r' : MatchRow.t) : Prop :=
  bracketColumns r = bracketColumns r' ∧
  (MatchRow.Participant1ID r = None → MatchRow.Participant2ID r = None →
   (MatchRow.Status r ≠ MatchCompleted → MatchRow.Status r' ≠ MatchCompleted) ∧
   (MatchRow.WinnerID r = None → MatchRow.WinnerID r' = None)).

(** ** The handler of fixture generation *)

(** How [GenerateFixtures] builds the error that it returns: the sentinel
    value of the package itself ([return nil, ErrInsufficientParticipants]),
    or a new value made by [fmt.Errorf], which for the capacity error wraps
    the sentinel with [%w], or the error of a repository.  The comparison
    [err == sentinel] of the handler holds for the first kind only. *)
Inductive ErrorValue :=
  | SentinelError (e : Error)
  | OtherError (e : Error).

Definition errorValue (e : Error) : ErrorValue :=
  match e with
  | ErrInsufficientParticipants => SentinelError e
  | _ => OtherError e
  end.

(** The responses of the handler: the status and what the body says. *)
Inductive Response :=
  | StatusOK (fixtures : list Match.t) (count : nat)
  | StatusBadRequest (error : string)
  | StatusInternalServerError (error : string).

Section Handler.
Variable sortSlice : ∀ A : Type, (A → A → bool) → list A → list A.
Variable entropy : nat → Z.
Variable GenerateUUID : nat → string.
Variable generateDoubleEliminationFixtures generateGroupToKnockoutFixtures
         generateSwissFirstRound
  : Tournament.t → list Participant.t → result (list Match.t).
Variable repos : Repos.

(** [HandleGenerateFixtures]; [body] holds the seeding method and the seeding
    data of a request that is well-formed JSON with a seeding method, which
    the binding then checks against [oneof=manual random skill]. *)
Definition HandleGenerateFixtures (tournamentID : string)
    (body : option (string * list SeedingData)) : result Response :=
  match body with
  | None => Ret (StatusBadRequest "Invalid request format")
  | Some (seedingMethod, seedingData) =>
      if decide (seedingMethod ∈ ["manual"; "random"; "skill"]) then
        match GenerateFixtures sortSlice entropy GenerateUUID
                generateDoubleEliminationFixtures generateGroupToKnockoutFixtures
                generateSwissFirstRound repos tournamentID seedingMethod seedingData
        with
        | Ret fixtures => Ret (StatusOK fixtures (length fixtures))
        | Fail e =>
            match errorValue e with
            | SentinelError ErrInsufficientParticipants =>
                Ret (StatusBadRequest "Insufficient participants to generate fixtures")
            | SentinelError ErrCapacityExceeded =>
                Ret (StatusBadRequest
                       "Tournament format requires more matches than capacity allows")
            | _ => Ret (StatusInternalServerError "Failed to generate fixtures")
            end
        | Panic => Panic
        | OutOfFuel => OutOfFuel
        end
      else Ret (StatusBadRequest "Invalid request format")
  end.
End Handler.

(** ** Publication *)

Definition StatusRegistrationOpen : string := "registration_open".

(** A row of the table [tournaments], also the [models.Tournament] that the
    repository scans it into. *)
Module TournamentRow.
Record t := mk {
  Tournament : Tournament.t;
  IsPublic : bool;
}.

Definition ID (r : t) : string := Tournament.ID (Tournament r).
Definition Status (r : t) : string := Tournament.Status (Tournament r).

(** [tournament.Status = status; tournament.IsPublic = public]. *)
Definition setStatus (status : string) (public : bool) (r : t) : t :=
  let tournament := Tournament r in
  mk (Tournament.mk (Tournament.ID tournament) (Tournament.OrganizerID tournament)
        (Tournament.Name tournament) (Tournament.FormatType tournament)
        (Tournament.FormatConfig tournament) (Tournament.StartDate tournament)
        (Tournament.EndDate tournament) (Tournament.MaxMatchesPerDay tournament)
        (Tournament.OperationalHours tournament)
        (Tournament.AvgMatchDuration tournament) (Tournament.BufferTime tournament)
        (Tournament.CapacityLimit tournament)
        (Tournament.CurrentParticipants tournament) status)
     public.

(** The columns that [TournamentRepository.Update] writes, taken from
    [new]; the identifier, the organizer and the number of participants of
    the row stay. *)
Definition overwrite (new r : t) : t :=
  let tournament := Tournament new in
  mk (Tournament.mk (Tournament.ID (Tournament r))
        (Tournament.OrganizerID (Tournament r))
        (Tournament.Name tournament) (Tournament.FormatType tournament)
        (Tournament.FormatConfig tournament) (Tournament.StartDate tournament)
        (Tournament.EndDate tournament) (Tournament.MaxMatchesPerDay tournament)
        (Tournament.OperationalHours tournament)
        (Tournament.AvgMatchDuration tournament) (Tournament.BufferTime tournament)
        (Tournament.CapacityLimit tournament)
        (Tournament.CurrentParticipants (Tournament r))
        (Tournament.Status tournament))
     (IsPublic new).
End TournamentRow.

Inductive PublishError :=
  | ErrPublishNotFound
  | ErrPublishDatabase
  | ErrPublishNotDraft
  | ErrNoVenues.

(** Which statements of one call of [Publish] succeed, and the venues that
    the venue repository returns for the tournament (nothing for an
    error). *)
Record PublishOutcomes := {
  getTournamentOk : bool;
  venuesOfTournament : option (list string);
  updateTournamentOk : bool;
}.

Module TournamentRepository.
Definition GetByID (ok : bool) (id : string) (table : list TournamentRow.t)
    : PublishError + TournamentRow.t :=
  if ok then
    match head (filter (λ r, TournamentRow.ID r = id) table) with
    | Some r => inr r
    | None => inl ErrPublishNotFound
    end
  else inl ErrPublishDatabase.

Definition Update (ok : bool) (tournament : TournamentRow.t)
    (table : list TournamentRow.t) : list TournamentRow.t * option PublishError :=
  if ok then
    ((λ r, if decide (TournamentRow.ID r = TournamentRow.ID tournament)
           then TournamentRow.overwrite tournament r else r) <$> table, None)
  else (table, Some ErrPublishDatabase).
End TournamentRepository.

(** [Publish]: the table as the call leaves it, and its error if any. *)
Definition Publish (o : PublishOutcomes) (id : string) (table : list TournamentRow.t)
    : list TournamentRow.t * option PublishError :=
  match TournamentRepository.GetByID (getTournamentOk o) id table with
  | inl e => (table, Some e)
  | inr tournament =>
      if decide (TournamentRow.Status tournament ≠ StatusDraft)
      then (table, Some ErrPublishNotDraft)
      else
        match venuesOfTournament o with
        | None => (table, Some ErrPublishDatabase)
        | Some venues =>
            if decide (length venues = 0%nat) then (table, Some ErrNoVenues)
            else
              TournamentRepository.Update (updateTournamentOk o)
                (TournamentRow.setStatus StatusRegistrationOpen true tournament)
                table
        end
  end.

(** What a successful [Publish] leaves in the table. *)
Definition published (id : string) (table : list TournamentRow.t)
    : list TournamentRow.t :=
  (λ r, if decide (TournamentRow.ID r = id)
        then TournamentRow.setStatus StatusRegistrationOpen true r else r) <$> table.

(** A draft of the example tournament in the table, and outcomes without a
    failure for a tournament with one venue. *)
Definition exampleDraftTable : list TournamentRow.t := [
  TournamentRow.setStatus StatusDraft false
    {| TournamentRow.Tournament := exampleTournament; TournamentRow.IsPublic := false |}
].

Definition publishOk : PublishOutcomes := {|
  getTournamentOk := true;
  venuesOfTournament := Some ["court 1"];
  updateTournamentOk := true;
|}.

(** * Properties of the engine *)

(** ** Bracket position generator *)

Lemma index_lookup {A} (l : list A) (i : nat) x :
  l !! i = Some x → index l (Z.of_nat i) = Ret x.
Proof.
  intros H. unfold index. case_decide; [lia|]. by rewrite Nat2Z.id, H.
Qed.

Lemma index_total `{!Inhabited A} (l : list A) (i : nat) :
  (i < length l)%nat → index l (Z.of_nat i) = Ret (l !!! i).
Proof.
  intros H. apply index_lookup. by apply list_lookup_lookup_total_lt.
Qed.

Lemma store_insert {A} (l : list A) (i : nat) x :
  (i < length l)%nat → store l (Z.of_nat i) x = Ret (<[i := x]> l).
Proof.
  intros H. unfold store. case_decide; [|lia]. by rewrite Nat2Z.id.
Qed.

Lemma interleave_fold (h : nat) (left right : list Z) (e m : nat) :
  length left = h → length right = h →
  ∀ (k : nat) (pre : list Z),
    (k + m = h)%nat → length pre = (2 * k)%nat →
    foldl (interleaveStep (Z.of_nat h) left right)
      (Ret (pre ++ replicate (2 * m + e) 0)) (seqZ (Z.of_nat k) (Z.of_nat m))
    = Ret (pre ++ (seq k m ≫= interleavedPair h left right) ++ replicate e 0).
Proof.
  intros Hl Hr. induction m as [|m IH]; intros k pre Hk Hpre.
  - simpl. done.
  - rewrite seqZ_cons by lia. cbn [foldl seq mbind list_bind].
    replace (Z.pred (Z.of_nat (S m))) with (Z.of_nat m) by lia.
    replace (Z.succ (Z.of_nat k)) with (Z.of_nat (S k)) by lia.
    assert (Hstep : interleaveStep (Z.of_nat h) left right
              (Ret (pre ++ replicate (2 * S m + e) 0)) (Z.of_nat k)
            = Ret ((pre ++ interleavedPair h left right k) ++ replicate (2 * m + e) 0)).
    { unfold interleaveStep. cbn [mbind result_bind].
      rewrite (index_total left k) by lia. cbn [mbind result_bind].
      replace (Z.of_nat k * 2) with (Z.of_nat (2 * k)) by lia.
      rewrite store_insert by (rewrite length_app, length_replicate; lia).
      cbn [mbind result_bind].
      replace (Z.of_nat h - 1 - Z.of_nat k) with (Z.of_nat (h - 1 - k)) by lia.
      rewrite (index_total right (h - 1 - k)) by lia. cbn [mbind result_bind].
      replace (Z.of_nat (2 * k) + 1) with (Z.of_nat (2 * k + 1)) by lia.
      rewrite store_insert by (rewrite length_insert, length_app, length_replicate; lia).
      f_equal. replace (2 * S m + e)%nat with (S (S (2 * m + e))) by lia.
      cbn [replicate]. rewrite <- Hpre.
      rewrite (insert_app_r_alt pre _ (length pre)) by lia.
      rewrite Nat.sub_diag. cbn [insert list_insert].
      rewrite (insert_app_r_alt pre _ (length pre + 1)) by lia.
      replace (length pre + 1 - length pre)%nat with 1%nat by lia.
      cbn [insert list_insert]. unfold interleavedPair.
      by rewrite <- app_assoc. }
    rewrite Hstep, IH by (rewrite ?length_app; cbn; lia).
    by rewrite <- !app_assoc.
Qed.

Lemma interleaved_lookup_pairs (l : list nat) (f g : nat → Z) :
  l ≫= (λ i, [f i; g i]) ≡ₚ (f <$> l) ++ (g <$> l).
Proof.
  induction l as [|x l IH]; [done|].
  rewrite bind_cons, !fmap_cons. cbn [app].
  constructor. rewrite IH. apply Permutation_middle.
Qed.

Lemma fmap_lookup_total_seq (l : list Z) :
  (λ i, l !!! i) <$> seq 0 (length l) = l.
Proof.
  apply list_eq_same_length with (length l).
  - done.
  - by rewrite length_fmap, length_seq.
  - intros i x y Hi. rewrite list_lookup_fmap, lookup_seq_lt by done.
    simpl. intros [= <-] Hy. by apply list_lookup_total_correct.
Qed.

Lemma fmap_reverse_lookup_seq (l : list Z) (d : Z) :
  (λ i, l !!! (length l - 1 - i)%nat + d) <$> seq 0 (length l)
  = (λ x, x + d) <$> reverse l.
Proof.
  apply list_eq_same_length with (length l).
  - by rewrite length_fmap, length_reverse.
  - by rewrite length_fmap, length_seq.
  - intros i x y Hi. rewrite !list_lookup_fmap, lookup_seq_lt by done.
    rewrite reverse_lookup by done. simpl. intros [= <-].
    replace (length l - S i)%nat with (length l - 1 - i)%nat by lia.
    rewrite (list_lookup_lookup_total_lt l (length l - 1 - i)) by lia.
    simpl. by intros [= <-].
Qed.

Lemma interleaved_Permutation (h : nat) (left right : list Z) :
  length left = h → length right = h →
  interleaved h left right ≡ₚ left ++ ((λ x, x + Z.of_nat h) <$> reverse right).
Proof.
  intros Hl Hr. unfold interleaved, interleavedPair.
  rewrite (interleaved_lookup_pairs _ (λ i, left !!! i)
             (λ i, right !!! (h - 1 - i)%nat + Z.of_nat h)).
  assert ((λ i, left !!! i) <$> seq 0 h = left) as ->
    by (rewrite <- Hl; apply fmap_lookup_total_seq).
  assert ((λ i, right !!! (h - 1 - i)%nat + Z.of_nat h) <$> seq 0 h
          = (λ x, x + Z.of_nat h) <$> reverse right) as ->
    by (rewrite <- Hr; apply fmap_reverse_lookup_seq).
  done.
Qed.

Lemma length_interleaved (h : nat) (left right : list Z) :
  length (interleaved h left right) = (2 * h)%nat.
Proof.
  unfold interleaved.
  assert (G : ∀ m k, length (seq k m ≫= interleavedPair h left right) = (2 * m)%nat).
  { induction m as [|m IH]; intros k; [done|].
    cbn [seq]. rewrite bind_cons, length_app, IH. cbn. lia. }
  apply G.
Qed.

(** The slots of the interleaving, as the loop writes them. *)
Lemma interleaved_lookup (h : nat) (left right : list Z) (i : nat) :
  (i < h)%nat →
  interleaved h left right !! (2 * i)%nat = Some (left !!! i) ∧
  interleaved h left right !! (2 * i + 1)%nat
    = Some (right !!! (h - 1 - i)%nat + Z.of_nat h).
Proof.
  unfold interleaved. intros Hi.
  assert (G : ∀ m k j, (j < m)%nat →
    (seq k m ≫= interleavedPair h left right) !! (2 * j)%nat
      = Some (left !!! (k + j)%nat) ∧
    (seq k m ≫= interleavedPair h left right) !! (2 * j + 1)%nat
      = Some (right !!! (h - 1 - (k + j))%nat + Z.of_nat h)).
  { induction m as [|m IH]; intros k j Hj; [lia|].
    cbn [seq]. rewrite bind_cons. destruct j as [|j].
    - rewrite Nat.add_0_r. done.
    - replace (2 * S j)%nat with (S (S (2 * j))) by lia.
      replace (S (S (2 * j)) + 1)%nat with (S (S (2 * j + 1))) by lia.
      cbn [interleavedPair app lookup list_lookup].
      replace (k + S j)%nat with (S k + j)%nat by lia. apply IH. lia. }
  apply (G h 0%nat i Hi).
Qed.

(** The unfolding of one level of the recursion, once the recursive call has
    returned. *)
Lemma createBracketPositions_fuel_unfold (fuel : nat) (size : Z) (left : list Z) :
  size ≠ 2 → 2 ≤ size `quot` 2 →
  createBracketPositions_fuel fuel (size `quot` 2) = Ret left →
  length left = Z.to_nat (size `quot` 2) →
  createBracketPositions_fuel (S fuel) size
  = Ret (interleaved (length left) left left
         ++ replicate (Z.to_nat size - 2 * length left) 0).
Proof.
  intros Hne Hhalf Hleft Hlen. cbn [createBracketPositions_fuel].
  case_decide; [done|]. rewrite Hleft. cbn [mbind result_bind].
  unfold make_ints. case_decide.
  { Z.to_euclidean_division_equations. lia. }
  cbn [mbind result_bind].
  assert (Hq : 2 * (size `quot` 2) ≤ size)
    by (Z.to_euclidean_division_equations; lia).
  pose proof (interleave_fold (length left) left left
                (Z.to_nat size - 2 * length left) (length left) eq_refl eq_refl
                0%nat [] ltac:(lia) eq_refl) as Hfold.
  cbn [app] in Hfold.
  replace (2 * length left + (Z.to_nat size - 2 * length left))%nat
    with (Z.to_nat size) in Hfold by lia.
  replace (Z.of_nat (length left)) with (size `quot` 2) in Hfold by lia.
  exact Hfold.
Qed.

Lemma createBracketPositions_fuel_rec (fuel : nat) (size : Z) (l : list Z) :
  createBracketPositions_fuel (S fuel) size = Ret l → size ≠ 2 →
  ∃ left, createBracketPositions_fuel fuel (size `quot` 2) = Ret left.
Proof.
  cbn [createBracketPositions_fuel]. intros H Hne. case_decide; [done|].
  destruct (createBracketPositions_fuel fuel (size `quot` 2)) as [left| | |];
    cbn in H; try discriminate.
  by exists left.
Qed.

(** What a returned sequence looks like: its length is [size], which is at
    least 2, and its first slot is 0. *)
Lemma createBracketPositions_fuel_facts (fuel : nat) :
  ∀ (size : Z) (l : list Z),
    createBracketPositions_fuel fuel size = Ret l →
    2 ≤ size ∧ length l = Z.to_nat size ∧ l !! 0%nat = Some 0.
Proof.
  induction fuel as [|fuel IH]; intros size l H; [done|].
  destruct (decide (size = 2)) as [->|Hne].
  { cbn in H. injection H as <-. done. }
  destruct (createBracketPositions_fuel_rec _ _ _ H Hne) as [left Hleft].
  destruct (IH _ _ Hleft) as (Hhalf & Hlen & Hhd).
  rewrite (createBracketPositions_fuel_unfold _ _ _ Hne Hhalf Hleft Hlen) in H.
  injection H as <-.
  assert (2 * (size `quot` 2) ≤ size) by (Z.to_euclidean_division_equations; lia).
  split; [lia|]. split.
  - rewrite length_app, length_interleaved, length_replicate. lia.
  - rewrite lookup_app_l by (rewrite length_interleaved; lia).
    destruct (interleaved_lookup (length left) left left 0) as [Hl _]; [lia|].
    change (2 * 0)%nat with 0%nat in Hl. rewrite Hl.
    f_equal. by apply list_lookup_total_correct.
Qed.

Lemma createBracketPositions_fuel_inv (fuel : nat) (size : Z) (l : list Z) :
  createBracketPositions_fuel (S fuel) size = Ret l → size ≠ 2 →
  ∃ left,
    createBracketPositions_fuel fuel (size `quot` 2) = Ret left ∧
    2 ≤ size `quot` 2 ∧ length left = Z.to_nat (size `quot` 2) ∧
    l = interleaved (length left) left left
        ++ replicate (Z.to_nat size - 2 * length left) 0.
Proof.
  intros H Hne.
  destruct (createBracketPositions_fuel_rec _ _ _ H Hne) as [left Hleft].
  destruct (createBracketPositions_fuel_facts _ _ _ Hleft) as (Hhalf & Hlen & _).
  rewrite (createBracketPositions_fuel_unfold _ _ _ Hne Hhalf Hleft Hlen) in H.
  injection H as <-. by exists left.
Qed.

(** More fuel does not change a returned sequence. *)
Lemma createBracketPositions_fuel_S (fuel : nat) :
  ∀ (size : Z) (l : list Z),
    createBracketPositions_fuel fuel size = Ret l →
    createBracketPositions_fuel (S fuel) size = Ret l.
Proof.
  induction fuel as [|fuel IH]; intros size l H; [done|].
  destruct (decide (size = 2)) as [->|Hne]; [exact H|].
  destruct (createBracketPositions_fuel_inv _ _ _ H Hne)
    as (left & Hleft & Hhalf & Hlen & ->).
  apply createBracketPositions_fuel_unfold; auto.
Qed.

Lemma createBracketPositions_fuel_mono (fuel fuel' : nat) (size : Z) (l : list Z) :
  (fuel ≤ fuel')%nat →
  createBracketPositions_fuel fuel size = Ret l →
  createBracketPositions_fuel fuel' size = Ret l.
Proof.
  induction 1 as [|fuel' _ IH]; [done|].
  intros H. by apply createBracketPositions_fuel_S, IH.
Qed.

(** The fuel of [createBracketPositions] is enough: a call that returns with
    some fuel returns the same sequence with fuel [size]. *)
Lemma createBracketPositions_fuel_enough (fuel : nat) (size : Z) (l : list Z) :
  createBracketPositions_fuel fuel size = Ret l →
  createBracketPositions size = Ret l.
Proof.
  intros H. unfold createBracketPositions.
  assert (G : ∀ fuel size l, createBracketPositions_fuel fuel size = Ret l →
    ∃ g, (S g ≤ Z.to_nat size)%nat ∧ createBracketPositions_fuel g size = Ret l).
  { clear. induction fuel as [|fuel IH]; intros size l H; [done|].
    destruct (decide (size = 2)) as [->|Hne].
    { exists 1%nat. split; [lia|exact H]. }
    destruct (createBracketPositions_fuel_inv _ _ _ H Hne)
      as (left & Hleft & Hhalf & Hlen & ->).
    destruct (IH _ _ Hleft) as (g & Hg & Hret).
    exists (S g). split.
    - Z.to_euclidean_division_equations. lia.
    - apply createBracketPositions_fuel_unfold; auto. }
  destruct (G _ _ _ H) as (g & Hg & Hret).
  apply (createBracketPositions_fuel_mono g); [lia|done].
Qed.

(** The generator never panics and returns no error value. *)
Lemma createBracketPositions_fuel_cases (fuel : nat) :
  ∀ size : Z,
    createBracketPositions_fuel fuel size = OutOfFuel ∨
    ∃ l, createBracketPositions_fuel fuel size = Ret l.
Proof.
  induction fuel as [|fuel IH]; intros size; [by left|].
  destruct (decide (size = 2)) as [->|Hne]; [right; by exists [0; 1]|].
  destruct (IH (size `quot` 2)) as [Hout|[left Hleft]].
  - left. cbn [createBracketPositions_fuel]. case_decide; [done|].
    by rewrite Hout.
  - right. destruct (createBracketPositions_fuel_facts _ _ _ Hleft) as (Hhalf & Hlen & _).
    eexists. apply createBracketPositions_fuel_unfold; eauto.
Qed.

Lemma fmap_add_r_seqZ (h m n : Z) : (λ x, x + h) <$> seqZ m n = seqZ (m + h) n.
Proof.
  rewrite (Z.add_comm m h), <- fmap_add_seqZ.
  apply list_fmap_ext. intros _ x _. lia.
Qed.

(** On a power of two the generator returns a permutation of the slots. *)
Lemma createBracketPositions_pow2 (k : nat) :
  ∃ l, createBracketPositions_fuel (S k) (2 ^ Z.of_nat (S k)) = Ret l ∧
       l ≡ₚ seqZ 0 (2 ^ Z.of_nat (S k)).
Proof.
  induction k as [|k (left & Hleft & Hperm)].
  { exists [0; 1]. split; [done|]. done. }
  assert (Hpow : 2 ^ Z.of_nat (S (S k)) = 2 * 2 ^ Z.of_nat (S k)).
  { rewrite (Nat2Z.inj_succ (S k)), Z.pow_succ_r by lia. done. }
  assert (Hpos : 2 ≤ 2 ^ Z.of_nat (S k)).
  { change 2 with (2 ^ 1) at 1. apply Z.pow_le_mono_r; lia. }
  rewrite Hpow. generalize dependent (2 ^ Z.of_nat (S k)). intros h Hleft Hperm _ Hpos.
  assert (Hq : (2 * h) `quot` 2 = h) by (Z.to_euclidean_division_equations; lia).
  destruct (createBracketPositions_fuel_facts _ _ _ Hleft) as (_ & Hlen & _).
  eexists. split.
  - apply createBracketPositions_fuel_unfold; rewrite ?Hq; eauto. lia.
  - replace (Z.to_nat (2 * h) - 2 * length left)%nat with 0%nat by lia.
    cbn [replicate]. rewrite app_nil_r.
    rewrite interleaved_Permutation by done.
    rewrite reverse_Permutation, Hperm, fmap_add_r_seqZ.
    replace (2 * h) with (h + h) by lia.
    rewrite seqZ_app by lia.
    replace (Z.of_nat (length left)) with h by lia. done.
Qed.

(** A returned sequence without repetition can only come from a power of
    two. *)
Lemma createBracketPositions_NoDup_pow2 (fuel : nat) :
  ∀ (size : Z) (l : list Z),
    createBracketPositions_fuel fuel size = Ret l → NoDup l →
    ∃ k : nat, size = 2 ^ Z.of_nat (S k).
Proof.
  induction fuel as [|fuel IH]; intros size l H Hnd; [done|].
  destruct (decide (size = 2)) as [->|Hne]; [by exists 0%nat|].
  destruct (createBracketPositions_fuel_inv _ _ _ H Hne)
    as (left & Hleft & Hhalf & Hlen & ->).
  destruct (createBracketPositions_fuel_facts _ _ _ Hleft) as (_ & _ & Hhd).
  apply NoDup_app in Hnd as (Hnd & Hdisj & _).
  rewrite interleaved_Permutation in Hnd by done.
  apply NoDup_app in Hnd as (Hnd & _ & _).
  destruct (IH _ _ Hleft Hnd) as [k Hk].
  assert (He : (Z.to_nat size - 2 * length left = 0)%nat).
  { destruct (Z.to_nat size - 2 * length left)%nat as [|e] eqn:He; [done|].
    exfalso. apply (Hdisj 0).
    - rewrite interleaved_Permutation by done.
      apply elem_of_app. left. by eapply list_elem_of_lookup_2.
    - cbn [replicate]. apply elem_of_cons. by left. }
  exists (S k). rewrite (Nat2Z.inj_succ (S k)), Z.pow_succ_r, <- Hk by lia.
  Z.to_euclidean_division_equations. lia.
Qed.

Lemma validSize_nat (size : Z) :
  validSize size ↔ ∃ k : nat, size = 2 ^ Z.of_nat (S k).
Proof.
  split.
  - intros (k & Hk & ->). exists (Z.to_nat (k - 1)). f_equal. lia.
  - intros [k ->]. exists (Z.of_nat (S k)). split; [lia|done].
Qed.

Lemma validSize_log2 (size : Z) : validSize size → 2 ^ Z.log2 size = size.
Proof. intros (k & Hk & ->). rewrite Z.log2_pow2 by lia. done. Qed.

(** On a power of two that is at least 2 the generator returns, and the
    sequence is a permutation of the slots. *)
Lemma createBracketPositions_returns (k : Z) :
  1 ≤ k →
  ∃ l, createBracketPositions_fuel (Z.to_nat k) (2 ^ k) = Ret l ∧
       createBracketPositions (2 ^ k) = Ret l ∧
       l ≡ₚ seqZ 0 (2 ^ k).
Proof.
  intros Hk.
  destruct (createBracketPositions_pow2 (Z.to_nat (k - 1))) as (l & Hl & Hperm).
  replace (S (Z.to_nat (k - 1))) with (Z.to_nat k) in Hl, Hperm by lia.
  rewrite Z2Nat.id in Hl, Hperm by lia.
  exists l. split; [done|]. split; [|done].
  by eapply createBracketPositions_fuel_enough.
Qed.

(** C3: on every size that is a power of two and at least 2, the bracket
    position generator returns a permutation of the slots 0 .. size-1; it
    returns [0, 1] for size 2 and [0, 3, 1, 2] for size 4; and above 2 the
    sequence is the interleaving of the sequence [left] for half the size:
    slot 2i holds [left[i]], slot 2i+1 holds [left[half-1-i] + half]. *)
Theorem createBracketPositions_permutation (size k : Z) :
  1 ≤ k → size = 2 ^ k →
  ∃ l, createBracketPositions size = Ret l ∧
       l ≡ₚ seqZ 0 size ∧
       createBracketPositions 2 = Ret [0; 1] ∧
       createBracketPositions 4 = Ret [0; 3; 1; 2] ∧
       (size ≠ 2 →
        ∃ left, createBracketPositions (size `quot` 2) = Ret left ∧
          ∀ i : nat, Z.of_nat i < size `quot` 2 →
            l !! (2 * i)%nat = left !! i ∧
            l !! (2 * i + 1)%nat
              = (λ x, x + size `quot` 2) <$> left !! (Z.to_nat (size `quot` 2) - 1 - i)%nat).
Proof.
  intros Hk ->.
  destruct (createBracketPositions_returns k Hk) as (l & Hl & Hret & Hperm).
  exists l. split; [done|].
  split; [done|]. split; [done|]. split; [done|].
  intros Hne.
  replace (Z.to_nat k) with (S (Z.to_nat (k - 1))) in Hl by lia.
  destruct (createBracketPositions_fuel_inv _ _ _ Hl Hne)
    as (left & Hleft & Hhalf & Hlen & ->).
  exists left. split; [by eapply createBracketPositions_fuel_enough|].
  intros i Hi.
  destruct (interleaved_lookup (length left) left left i) as [H0 H1]; [lia|].
  rewrite !lookup_app_l by (rewrite length_interleaved; lia).
  rewrite H0, H1. split.
  - symmetry. apply list_lookup_lookup_total_lt. lia.
  - rewrite <- Hlen.
    rewrite (list_lookup_lookup_total_lt left (length left - 1 - i)) by lia.
    simpl. do 2 f_equal. lia.
Qed.

Lemma createBracketPositions_permutation_witness :
  ∃ l, createBracketPositions 8 = Ret l ∧ l ≡ₚ seqZ 0 8.
Proof.
  destruct (createBracketPositions_permutation 8 3) as (l & Hl & Hp & _);
    [lia | reflexivity |].
  exists l. split; assumption.
Defined.

(** C4, as the code has it: the generator has no error result.  On a size
    that is not a power of two or is below 2 it either recurses without end
    (whatever the fuel) or returns a sequence of [size] slots in which a slot
    number is repeated; it never reports an error. *)
Theorem createBracketPositions_invalid_size (size : Z) (fuel : nat) :
  ¬ validSize size →
  createBracketPositions_fuel fuel size = OutOfFuel ∨
  ∃ l, createBracketPositions_fuel fuel size = Ret l ∧
       length l = Z.to_nat size ∧ ¬ NoDup l.
Proof.
  intros Hinvalid.
  destruct (createBracketPositions_fuel_cases fuel size) as [?|[l Hl]]; [by left|].
  right. exists l. split; [done|].
  destruct (createBracketPositions_fuel_facts _ _ _ Hl) as (_ & Hlen & _).
  split; [done|]. intros Hnd. apply Hinvalid, validSize_nat.
  by eapply createBracketPositions_NoDup_pow2.
Qed.

Lemma createBracketPositions_invalid_size_witness :
  createBracketPositions_fuel 10 6 = OutOfFuel ∨
  ∃ l, createBracketPositions_fuel 10 6 = Ret l ∧
       length l = Z.to_nat 6 ∧ ¬ NoDup l.
Proof.
  apply createBracketPositions_invalid_size.
  intros H. apply validSize_log2 in H. vm_compute in H. discriminate.
Defined.

(** Below 2 the recursion never ends. *)
Lemma createBracketPositions_fuel_below_2 (fuel : nat) (size : Z) :
  size < 2 → createBracketPositions_fuel fuel size = OutOfFuel.
Proof.
  intros Hsize.
  destruct (createBracketPositions_fuel_cases fuel size) as [?|[l Hl]]; [done|].
  destruct (createBracketPositions_fuel_facts _ _ _ Hl) as (? & _). lia.
Qed.

(** C4 fails as stated: 5 and 3 are not powers of two; for size 5 the
    generator returns a sequence instead of an error, and for size 3 it does
    not return at all. *)
Lemma createBracketPositions_5_returns :
  ¬ validSize 5 ∧
  createBracketPositions 5 = Ret [0; 3; 1; 2; 0] ∧
  (∀ e, createBracketPositions 5 ≠ Fail e) ∧
  ¬ validSize 3 ∧
  ∀ fuel, createBracketPositions_fuel fuel 3 = OutOfFuel.
Proof.
  split_and!.
  - intros H. apply validSize_log2 in H. vm_compute in H. discriminate.
  - reflexivity.
  - discriminate.
  - intros H. apply validSize_log2 in H. vm_compute in H. discriminate.
  - intros [|fuel]; [done|]. cbn [createBracketPositions_fuel].
    rewrite decide_False by done.
    by rewrite createBracketPositions_fuel_below_2.
Qed.

Section BracketFacts.
Context (GenerateUUID : nat → string) (tournament : Tournament.t).
Context (n targetSize : Z) (bracketPositions : list Z).
Context (participantPositions : gmap Z Participant.t).

Local Abbreviation step := (eliminationStep GenerateUUID tournament n).
Local Abbreviation rmatch :=
  (roundMatch GenerateUUID tournament n bracketPositions participantPositions).
Local Abbreviation rblock :=
  (roundBlock GenerateUUID tournament n targetSize bracketPositions participantPositions).
Local Abbreviation bracket' :=
  (bracket GenerateUUID tournament n targetSize bracketPositions participantPositions).

Lemma pushMatch_stateOf (l : list Match.t) (m : Match.t) :
  pushMatch (stateOf l) m = stateOf (l ++ [m]).
Proof.
  unfold pushMatch, stateOf. cbn. rewrite length_app. cbn. f_equal; lia.
Qed.

Lemma eliminationStep_spec (round : Z) (l : list Match.t) (k : nat) :
  (round = 1 → (2 * k + 1 < length bracketPositions)%nat) →
  step round bracketPositions participantPositions
    (Ret (stateOf (l ++ (rmatch round (length l) <$> seq 0 k)))) (Z.of_nat k)
  = Ret (stateOf (l ++ (rmatch round (length l) <$> seq 0 (S k)))).
Proof.
  intros Hbp. unfold eliminationStep. cbn [mbind result_bind].
  rewrite seq_S, fmap_app, app_assoc. cbn [fmap list_fmap].
  rewrite <- pushMatch_stateOf. cbn [uuidCalls matchNumber stateOf].
  rewrite length_app, length_fmap, length_seq.
  unfold roundMatch. case_decide as Hr.
  - specialize (Hbp Hr).
    replace (Z.of_nat k * 2) with (Z.of_nat (2 * k)) by lia.
    rewrite index_total by lia. cbn [mbind result_bind].
    replace (Z.of_nat (2 * k) + 1) with (Z.of_nat (2 * k + 1)) by lia.
    rewrite index_total by lia. cbn [mbind result_bind].
    done.
  - done.
Qed.

Lemma eliminationStep_fold (round : Z) (l : list Match.t) (m : nat) :
  ∀ k : nat,
    (round = 1 → (2 * (k + m) ≤ length bracketPositions)%nat) →
    foldl (step round bracketPositions participantPositions)
      (Ret (stateOf (l ++ (rmatch round (length l) <$> seq 0 k))))
      (seqZ (Z.of_nat k) (Z.of_nat m))
    = Ret (stateOf (l ++ (rmatch round (length l) <$> seq 0 (k + m)))).
Proof.
  induction m as [|m IH]; intros k Hbp.
  - rewrite Nat.add_0_r. done.
  - rewrite seqZ_cons by lia. cbn [foldl].
    rewrite eliminationStep_spec by (intros Hr; specialize (Hbp Hr); lia).
    replace (Z.pred (Z.of_nat (S m))) with (Z.of_nat m) by lia.
    replace (Z.succ (Z.of_nat k)) with (Z.of_nat (S k)) by lia.
    rewrite IH by (intros Hr; specialize (Hbp Hr); lia).
    by replace (S k + m)%nat with (k + S m)%nat by lia.
Qed.

Lemma eliminationRound_spec (round : Z) (l : list Match.t) :
  (round = 1 →
   (2 * Z.to_nat (targetSize `quot` pow2 round) ≤ length bracketPositions)%nat) →
  eliminationRound GenerateUUID tournament n targetSize bracketPositions
    participantPositions (Ret (stateOf l)) round
  = Ret (stateOf (l ++ rblock round (length l))).
Proof.
  intros Hbp. unfold eliminationRound, roundBlock.
  pose proof (eliminationStep_fold round l
                (Z.to_nat (targetSize `quot` pow2 round)) 0 Hbp) as H.
  cbn [seq fmap list_fmap] in H. rewrite app_nil_r in H.
  destruct (decide (0 ≤ targetSize `quot` pow2 round)) as [Hpos|Hneg].
  - rewrite Z2Nat.id in H by done. exact H.
  - rewrite seqZ_nil by lia.
    replace (Z.to_nat (targetSize `quot` pow2 round)) with 0%nat by lia.
    cbn. by rewrite app_nil_r.
Qed.

Lemma eliminationRounds_spec (rounds : list Z) :
  ∀ l : list Match.t,
    (1 ∈ rounds →
     (2 * Z.to_nat (targetSize `quot` pow2 1) ≤ length bracketPositions)%nat) →
    foldl (eliminationRound GenerateUUID tournament n targetSize bracketPositions
             participantPositions) (Ret (stateOf l)) rounds
    = Ret (stateOf (l ++ bracket' rounds (length l))).
Proof.
  induction rounds as [|round rounds IH]; intros l Hbp.
  - cbn. by rewrite app_nil_r.
  - cbn [foldl bracket]. rewrite eliminationRound_spec.
    + rewrite IH by (intros ?; apply Hbp; by right).
      rewrite length_app, app_assoc. done.
    + intros ->. apply Hbp. by left.
Qed.
End BracketFacts.

(** *** Progression linking *)

Lemma foldl_invariant {A B} (P : A → Prop) (Q : B → Prop) (f : A → B → A)
    (l : list B) (a : A) :
  P a → Forall Q l → (∀ a x, P a → Q x → P (f a x)) → P (foldl f a l).
Proof.
  intros Ha Hl Hf. revert a Ha.
  induction Hl as [|x l Hx _ IH]; intros a Ha; [done|].
  cbn. apply IH, Hf; done.
Qed.

Lemma filter_ext_in {A} (P Q : A → Prop) `{!∀ x, Decision (P x)}
    `{!∀ x, Decision (Q x)} (l : list A) :
  (∀ x, x ∈ l → P x ↔ Q x) → filter P l = filter Q l.
Proof.
  induction l as [|x l IH]; intros Hext; [done|].
  rewrite !filter_cons.
  rewrite IH by (intros y Hy; apply Hext; by right).
  destruct (decide (P x)) as [HP|HP], (decide (Q x)) as [HQ|HQ]; try done.
  - exfalso. apply HQ, Hext; [by left|done].
  - exfalso. apply HP, Hext; [by left|done].
Qed.

Lemma indicesOfRound_snoc (heap : list Match.t) (m : Match.t) (r : Z) :
  indicesOfRound (heap ++ [m]) r
  = indicesOfRound heap r
    ++ (if decide (Match.RoundNumber m = r) then [length heap] else []).
Proof.
  unfold indicesOfRound. rewrite length_app. cbn [length].
  rewrite Nat.add_1_r, seq_S, filter_app. f_equal.
  - apply filter_ext_in. intros k Hk. apply elem_of_seq in Hk.
    rewrite lookup_app_l by lia. done.
  - cbn [Nat.add]. rewrite filter_cons, filter_nil.
    rewrite list_lookup_middle by done. cbn.
    destruct (decide (Some (Match.RoundNumber m) = Some r)) as [[= H]|H],
      (decide (Match.RoundNumber m = r)) as [H'|H']; try done.
    by rewrite H' in H.
Qed.

(** The map built by the grouping loop holds, for each round, the pointers
    to the matches of that round in allocation order. *)
Lemma roundOf_groupByRound (heap : list Match.t) (r : Z) :
  roundOf (groupByRound heap) r = indicesOfRound heap r.
Proof.
  revert r. induction heap as [|m heap IH] using rev_ind; intros r; [done|].
  unfold groupByRound. rewrite imap_app, foldl_app. cbn [imap foldl].
  fold (groupByRound heap). rewrite Nat.add_0_r. cbn [fst snd].
  rewrite indicesOfRound_snoc. unfold roundOf at 1.
  destruct (decide (Match.RoundNumber m = r)) as [->|Hne].
  - rewrite lookup_insert_eq. cbn. by rewrite IH.
  - rewrite lookup_insert_ne by done. rewrite app_nil_r. apply IH.
Qed.

Lemma NoDup_indicesOfRound (heap : list Match.t) (r : Z) :
  NoDup (indicesOfRound heap r).
Proof. apply NoDup_filter, NoDup_seq. Qed.

Lemma elem_of_indicesOfRound (heap : list Match.t) (r : Z) (k : nat) :
  k ∈ indicesOfRound heap r ↔ ∃ m, heap !! k = Some m ∧ Match.RoundNumber m = r.
Proof.
  unfold indicesOfRound. rewrite list_elem_of_filter, elem_of_seq. split.
  - intros [H _]. destruct (heap !! k) as [m|]; [|done].
    exists m. split; [done|]. by injection H.
  - intros (m & Hm & <-). rewrite Hm. split; [done|].
    apply lookup_lt_Some in Hm. lia.
Qed.

Lemma clearNext_setNextMatchID (x : option string) (m : Match.t) :
  clearNext (Match.setNextMatchID x m) = clearNext m.
Proof. done. Qed.

Lemma clearNext_fields (m m' : Match.t) :
  clearNext m = clearNext m' →
  Match.ID m = Match.ID m' ∧ Match.RoundNumber m = Match.RoundNumber m' ∧
  Match.MatchNumber m = Match.MatchNumber m' ∧
  Match.Participant1ID m = Match.Participant1ID m' ∧
  Match.Participant2ID m = Match.Participant2ID m'.
Proof. unfold clearNext, Match.setNextMatchID. intros [=]. done. Qed.

(** Two heaps that differ in progression links only hold, at each pointer,
    matches that differ in that link only. *)
Lemma clearNext_lookup (h h' : list Match.t) (k : nat) (m : Match.t) :
  clearNext <$> h = clearNext <$> h' → h !! k = Some m →
  ∃ m', h' !! k = Some m' ∧ clearNext m = clearNext m'.
Proof.
  intros Heq Hm.
  assert (H : (clearNext <$> h) !! k = Some (clearNext m))
    by (by rewrite list_lookup_fmap, Hm).
  rewrite Heq, list_lookup_fmap in H.
  destruct (h' !! k) as [m'|]; [|done].
  exists m'. split; [done|].
  cbv [fmap option_fmap option_map] in H. congruence.
Qed.

Lemma setNext_clearNext (p q : nat) (h : list Match.t) :
  clearNext <$> setNext p q h = clearNext <$> h.
Proof.
  unfold setNext. destruct (h !! q) as [next|]; [|done].
  apply list_eq. intros k. rewrite !list_lookup_fmap.
  destruct (decide (p = k)) as [->|Hne].
  - rewrite list_lookup_alter_eq. by destruct (h !! k).
  - by rewrite list_lookup_alter_ne.
Qed.

Section Linking.
Context (heap0 : list Match.t).

(** One assignment of the linking loop keeps the invariant. *)
Lemma setNext_linked (r : Z) (i p q : nat) (h : list Match.t) :
  indicesOfRound heap0 r !! i = Some p →
  indicesOfRound heap0 (r + 1) !! (i / 2)%nat = Some q →
  linked heap0 h → linked heap0 (setNext p q h).
Proof.
  intros Hp Hq [Hclear Hnext]. split.
  { by rewrite setNext_clearNext. }
  assert (Hqr : q ∈ indicesOfRound heap0 (r + 1))
    by (by eapply list_elem_of_lookup_2).
  apply elem_of_indicesOfRound in Hqr as (next0 & Hnext0 & _).
  assert (∃ next, h !! q = Some next ∧ Match.ID next = Match.ID next0)
    as (next & Hhq & Hid).
  { destruct (clearNext_lookup heap0 h q next0) as (next & ? & Hc); [done..|].
    exists next. split; [done|].
    by destruct (clearNext_fields _ _ Hc) as (-> & _). }
  unfold setNext. rewrite Hhq. intros k m Hk.
  destruct (decide (p = k)) as [->|Hne].
  - rewrite list_lookup_alter_eq in Hk.
    destruct (h !! k) as [m0|] eqn:Hm0; [|done].
    injection Hk as <-. right. exists i, q, next0.
    cbn [Match.RoundNumber Match.NextMatchID Match.setNextMatchID].
    destruct (clearNext_lookup h heap0 k m0) as (m1 & Hm1 & Hc); [done..|].
    destruct (clearNext_fields _ _ Hc) as (_ & Hround & _).
    assert (Hpr : k ∈ indicesOfRound heap0 r)
      by (by eapply list_elem_of_lookup_2).
    apply elem_of_indicesOfRound in Hpr as (m2 & Hm2 & Hr2).
    assert (Match.RoundNumber m0 = r) as -> by congruence.
    rewrite Hid. done.
  - rewrite list_lookup_alter_ne in Hk by done. by apply Hnext.
Qed.

Lemma linkStep_linked (r : Z) (i : nat) (h : list Match.t) :
  Nat.Even i →
  linked heap0 h →
  linked heap0 (linkStep (indicesOfRound heap0 r) (indicesOfRound heap0 (r + 1)) h i).
Proof.
  intros [j ->] Hh. unfold linkStep. case_decide; [|done].
  destruct (indicesOfRound heap0 (r + 1) !! (2 * j / 2)%nat) as [q|] eqn:Hq;
    [|done].
  destruct (indicesOfRound heap0 r !! (2 * j)%nat) as [p|] eqn:Hp; [|done].
  assert (Hh' : linked heap0 (setNext p q h)) by (by eapply setNext_linked).
  case_decide; [|done].
  destruct (indicesOfRound heap0 r !! (2 * j + 1)%nat) as [p'|] eqn:Hp'; [|done].
  eapply setNext_linked; [exact Hp'| |done].
  rewrite <- Hq. f_equal.
  rewrite (Nat.mul_comm 2 j), Nat.div_add_l, Nat.div_mul by lia.
  cbn. lia.
Qed.

Lemma Forall_Even_evens (len : nat) : Forall Nat.Even (evens len).
Proof.
  unfold evens. apply Forall_fmap, Forall_forall. intros k _. by exists k.
Qed.

Lemma linkRound_linked (r : Z) (h : list Match.t) :
  linked heap0 h → linked heap0 (linkRound (groupByRound heap0) h r).
Proof.
  intros Hh. unfold linkRound. rewrite !roundOf_groupByRound.
  apply (foldl_invariant (linked heap0) Nat.Even); [done|apply Forall_Even_evens|].
  intros a x Ha Hx. by apply linkStep_linked.
Qed.

(** The heap after [linkBracketProgression], for a heap that starts
    without links. *)
Lemma linkBracketProgression_linked (rounds : Z) :
  (∀ m, m ∈ heap0 → Match.NextMatchID m = None) →
  linked heap0 (linkBracketProgression heap0 rounds).
Proof.
  intros Hnone. unfold linkBracketProgression.
  apply (foldl_invariant (linked heap0) (λ _, True)).
  - split; [done|]. intros k m Hk. left. apply Hnone.
    by eapply list_elem_of_lookup_2.
  - by apply Forall_forall.
  - intros a x Ha _. by apply linkRound_linked.
Qed.
End Linking.

(** *** The matches of the bracket before linking *)

Section BracketShape.
Context (GenerateUUID : nat → string) (tournament : Tournament.t).
Context (n targetSize : Z) (bracketPositions : list Z).
Context (participantPositions : gmap Z Participant.t).

Local Abbreviation rmatch :=
  (roundMatch GenerateUUID tournament n bracketPositions participantPositions).
Local Abbreviation rblock :=
  (roundBlock GenerateUUID tournament n targetSize bracketPositions participantPositions).
Local Abbreviation bracket' :=
  (bracket GenerateUUID tournament n targetSize bracketPositions participantPositions).

Lemma length_roundBlock (round : Z) (off : nat) :
  length (rblock round off) = Z.to_nat (targetSize `quot` pow2 round).
Proof. unfold roundBlock. by rewrite length_fmap, length_seq. Qed.

Lemma roundBlock_lookup (round : Z) (off i : nat) (m : Match.t) :
  rblock round off !! i = Some m →
  m = rmatch round off i ∧ (i < Z.to_nat (targetSize `quot` pow2 round))%nat.
Proof.
  unfold roundBlock. rewrite list_lookup_fmap. intros H.
  destruct (seq 0 _ !! i) as [j|] eqn:Hj; [|done].
  apply lookup_seq in Hj as [-> Hlt]. cbn in H. injection H as <-. done.
Qed.

Lemma bracket_app (rs1 rs2 : list Z) :
  ∀ off : nat,
    bracket' (rs1 ++ rs2) off
    = bracket' rs1 off ++ bracket' rs2 (off + length (bracket' rs1 off)).
Proof.
  induction rs1 as [|r rs1 IH]; intros off.
  - cbn. by rewrite Nat.add_0_r.
  - cbn [app bracket]. rewrite IH, length_app, <- app_assoc.
    do 3 f_equal. lia.
Qed.

(** Each match of the bracket carries the identifier drawn at its
    allocation, the round of its block, no link, and participants in
    round 1 only. *)
Lemma bracket_lookup (rs : list Z) :
  ∀ (off k : nat) (m : Match.t),
    bracket' rs off !! k = Some m →
    Match.ID m = GenerateUUID (off + k) ∧
    Match.MatchNumber m = Z.of_nat (off + k) + 1 ∧
    Match.NextMatchID m = None ∧
    Match.RoundNumber m ∈ rs ∧
    (Match.RoundNumber m ≠ 1 →
     Match.Participant1ID m = None ∧ Match.Participant2ID m = None).
Proof.
  induction rs as [|r rs IH]; intros off k m H; [done|].
  cbn [bracket] in H. apply lookup_app_Some in H as [H|[Hge H]].
  - apply roundBlock_lookup in H as [-> _]. cbn.
    split_and!; try done; [by left|].
    intros Hr. by rewrite !decide_False by done.
  - destruct (IH _ _ _ H) as (Hid & Hnum & Hnone & Hr & Hp).
    split_and!; try done.
    + rewrite Hid. f_equal. lia.
    + rewrite Hnum. lia.
    + by right.
Qed.

Lemma bracket_IDs (rs : list Z) (off : nat) :
  Match.ID <$> bracket' rs off
  = GenerateUUID <$> seq off (length (bracket' rs off)).
Proof.
  apply list_eq_same_length with (length (bracket' rs off));
    rewrite ?length_fmap, ?length_seq; try done.
  intros k x y Hk. rewrite !list_lookup_fmap, lookup_seq_lt by done.
  destruct (bracket' rs off !! k) as [m|] eqn:Hm; [|done].
  destruct (bracket_lookup _ _ _ _ Hm) as (Hid & _).
  cbn. rewrite Hid. congruence.
Qed.

Lemma bracket_NoDup_IDs (rs : list Z) (off : nat) :
  Inj (=) (=) GenerateUUID → NoDup (Match.ID <$> bracket' rs off).
Proof.
  intros Hinj. rewrite bracket_IDs. apply NoDup_fmap_2; [done|apply NoDup_seq].
Qed.

(** Every round with a match count above zero appears in the bracket. *)
Lemma bracket_round_present (rs : list Z) (r : Z) :
  ∀ off : nat,
    r ∈ rs → 0 < targetSize `quot` pow2 r →
    ∃ m, m ∈ bracket' rs off ∧ Match.RoundNumber m = r.
Proof.
  induction rs as [|r' rs IH]; intros off Hr Hpos; [by apply elem_of_nil in Hr|].
  cbn [bracket]. apply elem_of_cons in Hr as [->|Hr].
  - exists (rmatch r' off 0). split; [|done].
    apply elem_of_app. left. unfold roundBlock.
    apply list_elem_of_fmap. exists 0%nat. split; [done|].
    apply elem_of_seq. lia.
  - destruct (IH (off + length (rblock r' off))%nat Hr Hpos) as (m & Hm & Hround).
    exists m. split; [|done]. apply elem_of_app. by right.
Qed.
End BracketShape.

Lemma pow2_quot (R r : Z) : 0 ≤ r ≤ R → pow2 R `quot` pow2 r = pow2 (R - r).
Proof.
  intros Hr. unfold pow2.
  replace R with ((R - r) + r) at 1 by lia.
  rewrite Z.pow_add_r by lia. apply Z.quot_mul.
  apply Z.pow_nonzero; lia.
Qed.

Lemma pow2_pos (k : Z) : 0 ≤ k → 0 < pow2 k.
Proof. intros. unfold pow2. by apply Z.pow_pos_nonneg. Qed.

(** The bracket for a target size [2 ^ R] has [2 ^ R - 2 ^ (R - j)] matches
    in its first [j] rounds. *)
Lemma length_bracket_rounds (GenerateUUID : nat → string) (tournament : Tournament.t)
    (n : Z) (bp : list Z) (pp : gmap Z Participant.t) (R : Z) (j : nat) :
  Z.of_nat j ≤ R →
  Z.of_nat (length (bracket GenerateUUID tournament n (pow2 R) bp pp
                      (seqZ 1 (Z.of_nat j)) 0))
  = pow2 R - pow2 (R - Z.of_nat j).
Proof.
  induction j as [|j IH]; intros Hj.
  - change (seqZ 1 (Z.of_nat 0)) with (@nil Z). cbn [bracket length].
    rewrite Z.sub_0_r. lia.
  - rewrite seqZ_S, bracket_app, length_app, Nat2Z.inj_add, IH by lia.
    cbn [bracket]. rewrite app_nil_r, length_roundBlock.
    rewrite pow2_quot by lia.
    pose proof (pow2_pos (R - (1 + Z.of_nat j))).
    rewrite Z2Nat.id by lia.
    replace (R - Z.of_nat j) with (Z.succ (R - (1 + Z.of_nat j))) by lia.
    replace (R - Z.of_nat (S j)) with (R - (1 + Z.of_nat j)) by lia.
    unfold pow2. rewrite Z.pow_succ_r by lia. lia.
Qed.

(** *** The single-elimination generator *)

Lemma ceilLog2_pos (n : Z) : 2 ≤ n → 1 ≤ ceilLog2 n.
Proof. intros. unfold ceilLog2. pose proof (Z.log2_up_pos n). lia. Qed.

(** With two participants or more the generator returns: the bracket
    positions exist for the target size, and the fixtures are the linked
    bracket of the rounds 1 to [ceilLog2 n]. *)
Lemma generateSingleEliminationFixtures_spec (GenerateUUID : nat → string)
    (tournament : Tournament.t) (participants : list Participant.t) :
  let n := Z.of_nat (length participants) in
  let rounds := ceilLog2 n in
  2 ≤ n →
  ∃ bp, createBracketPositions (pow2 rounds) = Ret bp ∧
        bp ≡ₚ seqZ 0 (pow2 rounds) ∧
        generateSingleEliminationFixtures GenerateUUID tournament participants
        = Ret (linkBracketProgression
                 (bracket GenerateUUID tournament n (pow2 rounds) bp
                    (placeParticipants participants) (seqZ 1 rounds) 0)
                 rounds).
Proof.
  intros n rounds Hn.
  pose proof (ceilLog2_pos n Hn) as Hrounds. fold rounds in Hrounds.
  destruct (createBracketPositions_returns rounds Hrounds) as (bp & _ & Hbp & Hperm).
  fold (pow2 rounds) in Hbp, Hperm.
  exists bp. split; [done|]. split; [done|].
  unfold generateSingleEliminationFixtures. fold n. fold rounds.
  destruct (decide (n - 1 < 0)) as [?|_]; [lia|]. cbn [mbind result_bind].
  rewrite Hbp. cbn [mbind result_bind].
  change {| fixtures := []; matchNumber := 1; uuidCalls := 0 |} with (stateOf []).
  rewrite eliminationRounds_spec; [done|].
  intros _. apply Permutation_length in Hperm. rewrite Hperm, length_seqZ.
  pose proof (pow2_pos rounds).
  assert (0 ≤ pow2 rounds `quot` pow2 1 ∧
          2 * (pow2 rounds `quot` pow2 1) ≤ pow2 rounds) as [? ?].
  { change (pow2 1) with 2. Z.to_euclidean_division_equations. lia. }
  lia.
Qed.

(** The generator returns [2 ^ rounds - 1] matches, in the rounds 1 to
    [rounds = ceilLog2 n]: every one of these rounds has a match and no match
    lies in another round. *)
Lemma generateSingleEliminationFixtures_size (GenerateUUID : nat → string)
    (tournament : Tournament.t) (participants : list Participant.t) :
  let n := Z.of_nat (length participants) in
  2 ≤ n →
  ∃ fx, generateSingleEliminationFixtures GenerateUUID tournament participants = Ret fx ∧
        Z.of_nat (length fx) = 2 ^ ceilLog2 n - 1 ∧
        ∀ r, (∃ m, m ∈ fx ∧ Match.RoundNumber m = r) ↔ 1 ≤ r ≤ ceilLog2 n.
Proof.
  intros n Hn.
  destruct (generateSingleEliminationFixtures_spec GenerateUUID tournament
              participants Hn) as (bp & Hbp & Hperm & Hgen).
  fold n in Hbp, Hperm, Hgen. pose proof (ceilLog2_pos n Hn) as Hrounds.
  set (rounds := ceilLog2 n) in *.
  set (pre := bracket _ _ _ _ _ _ _ _) in Hgen.
  assert (Hlinked : linked pre (linkBracketProgression pre rounds)).
  { apply linkBracketProgression_linked. intros m Hm.
    apply list_elem_of_lookup_1 in Hm as [k Hk].
    by destruct (bracket_lookup _ _ _ _ _ _ _ _ _ _ Hk) as (_ & _ & ? & _). }
  destruct Hlinked as [Hclear _].
  eexists. split; [exact Hgen|]. split.
  - assert (length (linkBracketProgression pre rounds) = length pre) as ->.
    { by rewrite <- (length_fmap clearNext), Hclear, length_fmap. }
    pose proof (length_bracket_rounds GenerateUUID tournament n bp
                  (placeParticipants participants) rounds (Z.to_nat rounds)) as Hlen.
    rewrite Z2Nat.id in Hlen by lia. fold pre in Hlen.
    rewrite Hlen by lia. rewrite Z.sub_diag. done.
  - intros r. split.
    + intros (m & Hm & <-).
      apply list_elem_of_lookup_1 in Hm as [k Hk].
      destruct (clearNext_lookup _ _ _ _ Hclear Hk) as (m0 & Hm0 & Hc).
      destruct (clearNext_fields _ _ Hc) as (_ & -> & _).
      destruct (bracket_lookup _ _ _ _ _ _ _ _ _ _ Hm0) as (_ & _ & _ & Hr & _).
      apply elem_of_seqZ in Hr. lia.
    + intros Hr.
      destruct (bracket_round_present GenerateUUID tournament n (pow2 rounds) bp
                  (placeParticipants participants) (seqZ 1 rounds) r 0)
        as (m0 & Hm0 & Hround).
      { apply elem_of_seqZ. lia. }
      { rewrite pow2_quot by lia. apply pow2_pos. lia. }
      apply list_elem_of_lookup_1 in Hm0 as [k Hk].
      destruct (clearNext_lookup pre (linkBracketProgression pre rounds) k m0)
        as (m & Hm & Hc); [done..|].
      destruct (clearNext_fields _ _ Hc) as (_ & Hr' & _).
      exists m. split; [by eapply list_elem_of_lookup_2|congruence].
Qed.

(** *** Counting the feeders of a match *)

Lemma length_filter_ge_mono (off : nat) (ks : list nat) :
  (length (filter (λ s, S off ≤ s)%nat ks) ≤ length (filter (λ s, off ≤ s)%nat ks))%nat.
Proof.
  induction ks as [|s ks IH]; [done|].
  rewrite !filter_cons. repeat case_decide; cbn; lia.
Qed.

Lemma length_filter_ge_lt (off : nat) (ks : list nat) :
  off ∈ ks →
  (length (filter (λ s, S off ≤ s)%nat ks) < length (filter (λ s, off ≤ s)%nat ks))%nat.
Proof.
  induction ks as [|s ks IH]; intros Hin; [by apply elem_of_nil in Hin|].
  rewrite !filter_cons. pose proof (length_filter_ge_mono off ks).
  apply elem_of_cons in Hin as [<-|Hin].
  - rewrite decide_False, decide_True by lia. cbn. lia.
  - specialize (IH Hin). repeat case_decide; cbn; lia.
Qed.

(** A list in which the positions of the elements satisfying [P] all belong
    to [ks] has at most [length ks] such elements. *)
Lemma length_filter_le_indices {A} (P : A → Prop) `{!∀ x, Decision (P x)}
    (l : list A) (ks : list nat) :
  (∀ k x, l !! k = Some x → P x → k ∈ ks) →
  (length (filter P l) ≤ length ks)%nat.
Proof.
  intros HS.
  assert (G : ∀ off : nat,
    (∀ k x, l !! k = Some x → P x → (off + k)%nat ∈ ks) →
    (length (filter P l) ≤ length (filter (λ s, off ≤ s)%nat ks))%nat).
  { clear HS. induction l as [|x l IH]; intros off HS; [cbn; lia|].
    assert (Hrec : (length (filter P l)
                    ≤ length (filter (λ s, S off ≤ s)%nat ks))%nat).
    { apply IH. intros k y Hk Hy.
      replace (S off + k)%nat with (off + S k)%nat by lia. by apply (HS (S k) y). }
    rewrite filter_cons. destruct (decide (P x)) as [HP|HP].
    - assert (Hoff : off ∈ ks).
      { rewrite <- (Nat.add_0_r off). by apply (HS 0%nat x). }
      pose proof (length_filter_ge_lt off ks Hoff). cbn. lia.
    - pose proof (length_filter_ge_mono off ks). lia. }
  etrans; [apply (G 0%nat); intros k x; apply HS|apply length_filter].
Qed.

Lemma NoDup_fmap_lookup {A B} (f : A → B) (l : list A) (i j : nat) (x y : A) :
  NoDup (f <$> l) → l !! i = Some x → l !! j = Some y → f x = f y → i = j.
Proof.
  intros Hnd Hi Hj Hf. apply (NoDup_lookup (f <$> l) i j (f x)); [done|..].
  - by rewrite list_lookup_fmap, Hi.
  - by rewrite list_lookup_fmap, Hj, Hf.
Qed.

(** What a linked heap with distinct identifiers satisfies. *)
Section LinkedProperties.
Context (heap0 fx : list Match.t).
Context (Hlinked : linked heap0 fx).
Context (Hnodup : NoDup (Match.ID <$> heap0)).

Lemma linked_IDs : Match.ID <$> fx = Match.ID <$> heap0.
Proof.
  destruct Hlinked as [Hclear _].
  change Match.ID with (Match.ID ∘ clearNext).
  by rewrite !list_fmap_compose, Hclear.
Qed.

Lemma linked_unique (m m' : Match.t) :
  m ∈ fx → m' ∈ fx → Match.ID m = Match.ID m' → m = m'.
Proof.
  intros Hm Hm' Hid.
  apply list_elem_of_lookup_1 in Hm as [i Hi].
  apply list_elem_of_lookup_1 in Hm' as [j Hj].
  assert (i = j) as ->; [|congruence].
  eapply (NoDup_fmap_lookup Match.ID fx); [|done..].
  by rewrite linked_IDs.
Qed.

(** A link that is set names a match of the next round. *)
Lemma linked_next_round (m : Match.t) (id : string) :
  m ∈ fx → Match.NextMatchID m = Some id →
  ∃ m', m' ∈ fx ∧ Match.ID m' = id ∧
        Match.RoundNumber m' = Match.RoundNumber m + 1.
Proof.
  intros Hm Hid. apply list_elem_of_lookup_1 in Hm as [k Hk].
  destruct Hlinked as [Hclear Hnext].
  destruct (Hnext k m Hk) as [Hnone|(p & q & next & Hp & Hq & Hnext0 & Hlink)];
    [congruence|].
  assert (Hqr : q ∈ indicesOfRound heap0 (Match.RoundNumber m + 1))
    by (by eapply list_elem_of_lookup_2).
  apply elem_of_indicesOfRound in Hqr as (next' & Hnext' & Hround).
  assert (next' = next) as -> by congruence.
  destruct (clearNext_lookup heap0 fx q next) as (m' & Hm' & Hc); [done..|].
  destruct (clearNext_fields _ _ Hc) as (Hid' & Hround' & _).
  exists m'. split; [by eapply list_elem_of_lookup_2|].
  split; congruence.
Qed.

(** At most two matches are linked to the same match. *)
Lemma linked_feeders (m' : Match.t) :
  m' ∈ fx →
  (length (filter (λ m, Match.NextMatchID m = Some (Match.ID m')) fx) ≤ 2)%nat.
Proof.
  intros Hm'. apply list_elem_of_lookup_1 in Hm' as [k' Hk'].
  destruct Hlinked as [Hclear Hnext].
  destruct (clearNext_lookup fx heap0 k' m') as (m0' & Hk0' & Hc'); [done..|].
  destruct (clearNext_fields _ _ Hc') as (Hid' & Hround' & _).
  set (r' := Match.RoundNumber m').
  assert (Hin : k' ∈ indicesOfRound heap0 r').
  { apply elem_of_indicesOfRound. exists m0'. split; [done|]. by symmetry. }
  apply list_elem_of_lookup_1 in Hin as [j Hj].
  set (ks := take 2 (drop (2 * j) (indicesOfRound heap0 (r' - 1)))).
  trans (length ks); [|unfold ks; rewrite length_take; lia].
  apply length_filter_le_indices. intros k m Hk Hlink.
  destruct (Hnext k m Hk) as [Hnone|(p & q & next & Hp & Hq & Hnext0 & Hlink')];
    [congruence|].
  assert (q = k') as ->.
  { eapply (NoDup_fmap_lookup Match.ID heap0); [done..|congruence]. }
  assert (next = m0') as -> by congruence.
  assert (Hqr : k' ∈ indicesOfRound heap0 (Match.RoundNumber m + 1))
    by (by eapply list_elem_of_lookup_2).
  apply elem_of_indicesOfRound in Hqr as (m1 & Hm1 & Hround).
  assert (Hr : Match.RoundNumber m + 1 = r') by (unfold r'; congruence).
  rewrite Hr in Hq.
  assert (Hpj : (p / 2)%nat = j)
    by (eapply NoDup_lookup; [apply NoDup_indicesOfRound|done..]).
  replace (Match.RoundNumber m) with (r' - 1) in Hp by lia.
  unfold ks. apply elem_of_take. exists (p - 2 * j)%nat.
  pose proof (Nat.div_mod_eq p 2). pose proof (Nat.mod_upper_bound p 2).
  rewrite lookup_drop. split; [|lia].
  rewrite <- Hp. f_equal. lia.
Qed.
End LinkedProperties.

(** C6: in the fixtures of the single-elimination generator, a progression
    link that is set names a match of the next round (round r feeds round
    r+1), and that match is the only one with this identifier; two matches
    of one round with the same link feed the same match of the next round;
    and no match is the target of more than two matches. *)
Theorem single_elimination_progression (GenerateUUID : nat → string)
    (tournament : Tournament.t) (participants : list Participant.t) :
  Inj (=) (=) GenerateUUID →
  (2 ≤ length participants)%nat →
  ∃ fx,
    generateSingleEliminationFixtures GenerateUUID tournament participants = Ret fx ∧
    (∀ m id, m ∈ fx → Match.NextMatchID m = Some id →
       ∃ m', m' ∈ fx ∧ Match.ID m' = id ∧
             Match.RoundNumber m < Match.RoundNumber m' ∧
             Match.RoundNumber m' = Match.RoundNumber m + 1 ∧
             ∀ m'', m'' ∈ fx → Match.ID m'' = id → m'' = m') ∧
    (∀ m1 m2 id, m1 ∈ fx → m2 ∈ fx →
       Match.RoundNumber m1 = Match.RoundNumber m2 →
       Match.NextMatchID m1 = Some id → Match.NextMatchID m2 = Some id →
       ∃ m', m' ∈ fx ∧ Match.ID m' = id ∧
             Match.RoundNumber m' = Match.RoundNumber m1 + 1 ∧
             Match.NextMatchID m1 = Some (Match.ID m') ∧
             Match.NextMatchID m2 = Some (Match.ID m')) ∧
    (∀ m', m' ∈ fx →
       (length (filter (λ m, (Match.RoundNumber m + 1 = Match.RoundNumber m')%Z ∧
                             Match.NextMatchID m = Some (Match.ID m')) fx) ≤ 2)%nat).
Proof.
  intros Hinj Hn.
  destruct (generateSingleEliminationFixtures_spec GenerateUUID tournament
              participants) as (bp & Hbp & Hperm & Hgen); [lia|].
  set (pre := bracket _ _ _ _ _ _ _ _) in Hgen.
  set (rounds := ceilLog2 _) in *.
  assert (Hlinked : linked pre (linkBracketProgression pre rounds)).
  { apply linkBracketProgression_linked. intros m Hm.
    apply list_elem_of_lookup_1 in Hm as [k Hk].
    by destruct (bracket_lookup _ _ _ _ _ _ _ _ _ _ Hk) as (_ & _ & ? & _). }
  assert (Hnodup : NoDup (Match.ID <$> pre)) by (by apply bracket_NoDup_IDs).
  exists (linkBracketProgression pre rounds). split; [exact Hgen|].
  assert (Hnext : ∀ m id, m ∈ linkBracketProgression pre rounds →
    Match.NextMatchID m = Some id →
    ∃ m', m' ∈ linkBracketProgression pre rounds ∧ Match.ID m' = id ∧
          Match.RoundNumber m < Match.RoundNumber m' ∧
          Match.RoundNumber m' = Match.RoundNumber m + 1 ∧
          ∀ m'', m'' ∈ linkBracketProgression pre rounds →
                 Match.ID m'' = id → m'' = m').
  { intros m id Hm Hid.
    destruct (linked_next_round pre _ Hlinked m id Hm Hid) as (m' & Hm' & Hid' & Hr).
    exists m'. split_and!; [done|done|lia|done|].
    intros m'' Hm'' Hid''. eapply linked_unique; [done..|congruence]. }
  split; [exact Hnext|]. split.
  - intros m1 m2 id Hm1 Hm2 Hround H1 H2.
    destruct (Hnext m1 id Hm1 H1) as (m' & Hm' & Hid' & _ & Hr & _).
    exists m'. rewrite Hid'. done.
  - intros m' Hm'.
    etrans; [|by apply (linked_feeders pre _ Hlinked Hnodup m')].
    rewrite <- (list_filter_filter
                  (λ m, Match.RoundNumber m + 1 = Match.RoundNumber m')
                  (λ m, Match.NextMatchID m = Some (Match.ID m'))).
    apply length_filter.
Qed.

Lemma single_elimination_progression_witness :
  Inj (=) (=) exampleUUID ∧
  (2 ≤ length exampleParticipants)%nat ∧
  ∃ fx,
    generateSingleEliminationFixtures exampleUUID exampleTournament exampleParticipants
      = Ret fx ∧
    ∀ m', m' ∈ fx →
      (length (filter (λ m, (Match.RoundNumber m + 1 = Match.RoundNumber m')%Z ∧
                            Match.NextMatchID m = Some (Match.ID m')) fx) ≤ 2)%nat.
Proof.
  split; [unfold exampleUUID; apply _|]. split; [simpl; lia|].
  destruct (single_elimination_progression exampleUUID exampleTournament
              exampleParticipants) as (fx & Hfx & _ & _ & Hfeed);
    [unfold exampleUUID; apply _ | simpl; lia |].
  exists fx. split; assumption.
Defined.

(** *** Placement of the seeded participants *)

Lemma placeParticipants_snoc (ps : list Participant.t) (x : Participant.t) :
  placeParticipants (ps ++ [x])
  = placeStep (placeParticipants ps) (length ps, x).
Proof.
  unfold placeParticipants. rewrite imap_app, foldl_app. cbn.
  by rewrite Nat.add_0_r.
Qed.

(** With distinct seeds on all participants, position [pos] of the map holds
    the participant with seed [pos + 1]. *)
Lemma placeParticipants_seeded (ps : list Participant.t) :
  Forall (λ p, is_Some (Participant.Seed p)) ps →
  NoDup (Participant.Seed <$> ps) →
  ∀ pos p, placeParticipants ps !! pos = Some p ↔
           p ∈ ps ∧ Participant.Seed p = Some (pos + 1).
Proof.
  induction ps as [|x ps IH] using rev_ind; intros Hsome Hnd pos p.
  { cbn. rewrite lookup_empty. split; [done|]. intros [H _]. by apply elem_of_nil in H. }
  apply Forall_app in Hsome as [Hsome Hx]. apply Forall_singleton in Hx as [s Hs].
  rewrite fmap_app in Hnd. apply NoDup_app in Hnd as (Hnd & Hfresh & _).
  rewrite placeParticipants_snoc. unfold placeStep. cbn [fst snd]. rewrite Hs.
  destruct (decide (s - 1 = pos)) as [<-|Hne].
  - rewrite lookup_insert_eq. split.
    + intros [= <-]. split; [apply elem_of_app; right; by left|].
      rewrite Hs. f_equal. lia.
    + intros [Hin Hseed]. apply elem_of_app in Hin as [Hin|Hin].
      * exfalso. apply (Hfresh (Some s)).
        -- apply list_elem_of_fmap. exists p. split; [|done].
           rewrite Hseed. f_equal. lia.
        -- cbn. rewrite Hs. by left.
      * apply list_elem_of_singleton in Hin. by subst.
  - rewrite lookup_insert_ne by done. rewrite IH by done. split.
    + intros [Hin Hseed]. split; [apply elem_of_app; by left|done].
    + intros [Hin Hseed]. apply elem_of_app in Hin as [Hin|Hin]; [done|].
      apply list_elem_of_singleton in Hin. subst.
      rewrite Hs in Hseed. injection Hseed as ->. lia.
Qed.

Lemma firstRoundSlot_seeded (ps : list Participant.t) (pos : Z) :
  let n := Z.of_nat (length ps) in
  Participant.Seed <$> ps ≡ₚ Some <$> seqZ 1 n →
  0 ≤ pos →
  seededSlot ps n pos (firstRoundSlot (placeParticipants ps) n pos).
Proof.
  intros n Hperm Hpos.
  assert (Hsome : Forall (λ p, is_Some (Participant.Seed p)) ps).
  { apply Forall_forall. intros p Hp.
    assert (Hin : Participant.Seed p ∈ Participant.Seed <$> ps)
      by (apply list_elem_of_fmap; eauto).
    rewrite Hperm in Hin. apply list_elem_of_fmap in Hin as (s & -> & _). done. }
  assert (Hnd : NoDup (Participant.Seed <$> ps)).
  { rewrite Hperm. apply NoDup_fmap_2; [apply _|apply NoDup_seqZ]. }
  pose proof (placeParticipants_seeded ps Hsome Hnd pos) as Hlookup.
  unfold seededSlot, firstRoundSlot. split.
  - intros Hlt.
    assert (Hin : Some (pos + 1) ∈ Participant.Seed <$> ps).
    { rewrite Hperm. apply list_elem_of_fmap. exists (pos + 1). split; [done|].
      apply elem_of_seqZ. lia. }
    apply list_elem_of_fmap in Hin as (p & Hseed & Hp).
    exists p. split; [done|]. split; [done|].
    assert (placeParticipants ps !! pos = Some p) as -> by (by apply Hlookup).
    by rewrite decide_True.
  - intros Hge. destruct (placeParticipants ps !! pos); [|done].
    by rewrite decide_False by lia.
Qed.



(** *** The round-robin generator *)

Lemma seqZ_of_nat (j m : nat) :
  seqZ (Z.of_nat j) (Z.of_nat m) = Z.of_nat <$> seq j m.
Proof.
  apply list_eq_same_length with m;
    rewrite ?length_fmap, ?length_seq, ?length_seqZ; [lia..|].
  intros k x y Hk. rewrite list_lookup_fmap, lookup_seq_lt by done.
  rewrite lookup_seqZ_lt by lia. cbn. intros [= <-] [= <-]. lia.
Qed.

Section RoundRobin.
Context (GenerateUUID : nat → string) (tournament : Tournament.t).
Context (participants : list Participant.t).

Local Abbreviation rmatch := (roundRobinMatch GenerateUUID tournament participants).
Local Abbreviation n := (length participants).

Lemma roundRobinStep_fold (i : nat) (js : list nat) :
  (i < n)%nat → Forall (λ j, j < n)%nat js →
  ∀ l : list Match.t,
    foldl (roundRobinStep GenerateUUID tournament participants (Z.of_nat i))
      (Ret (stateOf l)) (Z.of_nat <$> js)
    = Ret (stateOf (l ++ imap (λ k ij, rmatch (length l + k) ij) (pair i <$> js))).
Proof.
  intros Hi Hjs. induction Hjs as [|j js Hj _ IH]; intros l.
  { cbn. by rewrite app_nil_r. }
  destruct (lookup_lt_is_Some_2 participants i Hi) as [pi Hpi].
  destruct (lookup_lt_is_Some_2 participants j Hj) as [pj Hpj].
  cbn [fmap list_fmap foldl].
  assert (Hstep : roundRobinStep GenerateUUID tournament participants (Z.of_nat i)
                    (Ret (stateOf l)) (Z.of_nat j)
                  = Ret (stateOf (l ++ [rmatch (length l) (i, j)]))).
  { unfold roundRobinStep. cbn [mbind result_bind].
    rewrite (index_lookup _ _ _ Hpi), (index_lookup _ _ _ Hpj).
    cbn [mbind result_bind]. rewrite pushMatch_stateOf.
    unfold roundRobinMatch. cbn [fst snd stateOf uuidCalls matchNumber].
    by rewrite Hpi, Hpj. }
  fold (@fmap list _ nat Z Z.of_nat js). rewrite Hstep, IH.
  rewrite imap_cons, <- app_assoc. cbn [app]. rewrite Nat.add_0_r.
  do 4 f_equal. apply imap_ext. intros k x _. cbn [compose].
  rewrite length_app. cbn [length]. f_equal. lia.
Qed.

Lemma roundRobinRow_spec (i : nat) (l : list Match.t) :
  (i < n)%nat →
  roundRobinRow GenerateUUID tournament participants (Z.of_nat n)
    (Ret (stateOf l)) (Z.of_nat i)
  = Ret (stateOf (l ++ imap (λ k ij, rmatch (length l + k) ij) (rowPairs n i))).
Proof.
  intros Hi. unfold roundRobinRow, rowPairs.
  replace (Z.of_nat i + 1) with (Z.of_nat (S i)) by lia.
  replace (Z.of_nat n - Z.of_nat (S i)) with (Z.of_nat (n - S i)) by lia.
  rewrite seqZ_of_nat. apply roundRobinStep_fold; [done|].
  apply Forall_forall. intros j Hj. apply elem_of_seq in Hj. lia.
Qed.

Lemma roundRobinRow_fold (rows : list nat) :
  Forall (λ i, i < n)%nat rows →
  ∀ l : list Match.t,
    foldl (roundRobinRow GenerateUUID tournament participants (Z.of_nat n))
      (Ret (stateOf l)) (Z.of_nat <$> rows)
    = Ret (stateOf (l ++ imap (λ k ij, rmatch (length l + k) ij)
                           (rows ≫= rowPairs n))).
Proof.
  intros Hrows. induction Hrows as [|i rows Hi _ IH]; intros l.
  { cbn. by rewrite app_nil_r. }
  cbn [fmap list_fmap foldl]. fold (@fmap list _ nat Z Z.of_nat rows).
  rewrite roundRobinRow_spec, IH by done.
  rewrite bind_cons, imap_app, <- app_assoc. do 4 f_equal.
  apply imap_ext. intros k x _. cbn [compose].
  rewrite length_app, length_imap. f_equal. lia.
Qed.

(** The fixtures of the round robin: one match per pair, numbered in
    generation order. *)
Lemma generateRoundRobinFixtures_spec :
  generateRoundRobinFixtures GenerateUUID tournament participants
  = Ret (imap rmatch (roundRobinPairs n)).
Proof.
  unfold generateRoundRobinFixtures.
  change {| fixtures := []; matchNumber := 1; uuidCalls := 0 |} with (stateOf []).
  change 0 with (Z.of_nat 0). rewrite seqZ_of_nat, roundRobinRow_fold.
  - cbn [mbind result_bind stateOf fixtures app length]. done.
  - apply Forall_forall. intros i Hi. apply elem_of_seq in Hi. lia.
Qed.
End RoundRobin.

Lemma elem_of_roundRobinPairs (n i j : nat) :
  (i, j) ∈ roundRobinPairs n ↔ (i < j < n)%nat.
Proof.
  unfold roundRobinPairs, rowPairs. rewrite list_elem_of_bind. split.
  - intros (i' & Hin & Hi'). apply list_elem_of_fmap in Hin as (j' & [= -> ->] & Hj').
    apply elem_of_seq in Hi', Hj'. lia.
  - intros Hij. exists i. split.
    + apply list_elem_of_fmap. exists j. split; [done|]. apply elem_of_seq. lia.
    + apply elem_of_seq. lia.
Qed.

Lemma NoDup_roundRobinPairs (n : nat) : NoDup (roundRobinPairs n).
Proof.
  unfold roundRobinPairs. apply NoDup_bind.
  - intros i1 i2 [i j] _ _ H1 H2. unfold rowPairs in H1, H2.
    apply list_elem_of_fmap in H1 as (? & [= -> _] & _).
    apply list_elem_of_fmap in H2 as (? & [= -> _] & _). done.
  - intros i _. unfold rowPairs. apply NoDup_fmap_2; [|apply NoDup_seq].
    by intros ?? [=].
  - apply NoDup_seq.
Qed.

Lemma length_roundRobinPairs (n : nat) :
  Z.of_nat (length (roundRobinPairs n)) = (Z.of_nat n * (Z.of_nat n - 1)) `div` 2.
Proof.
  assert (G : ∀ m i0 : nat, (i0 + m = n)%nat →
    (2 * length (seq i0 m ≫= rowPairs n) + m = m * m)%nat).
  { induction m as [|m IH]; intros i0 Hm; [done|].
    cbn [seq]. rewrite bind_cons, length_app.
    specialize (IH (S i0) ltac:(lia)).
    unfold rowPairs at 1. rewrite length_fmap, length_seq. nia. }
  specialize (G n 0%nat eq_refl). fold (roundRobinPairs n) in G.
  apply Z.div_unique_exact; [lia|]. nia.
Qed.

(** C7: the round-robin generator returns n(n-1)/2 matches, one for each
    pair of positions (i, j) with i < j < n in seed order and each pair once,
    in generation order; every match is in round 1 and the match numbers
    count from 1 in this order. *)
Theorem round_robin_fixtures (GenerateUUID : nat → string)
    (tournament : Tournament.t) (participants : list Participant.t) :
  let n := length participants in
  ∃ fx,
    generateRoundRobinFixtures GenerateUUID tournament participants = Ret fx ∧
    Z.of_nat (length fx) = (Z.of_nat n * (Z.of_nat n - 1)) `div` 2 ∧
    (∀ m, m ∈ fx → Match.RoundNumber m = 1) ∧
    (∀ (k : nat) m, fx !! k = Some m → Match.MatchNumber m = Z.of_nat k + 1) ∧
    (λ m, (Match.Participant1ID m, Match.Participant2ID m)) <$> fx
      = (λ ij, (Participant.ID <$> participants !! ij.1,
                Participant.ID <$> participants !! ij.2)) <$> roundRobinPairs n ∧
    NoDup (roundRobinPairs n) ∧
    (∀ i j, (i, j) ∈ roundRobinPairs n ↔ (i < j < n)%nat).
Proof.
  intros n. eexists. split; [apply generateRoundRobinFixtures_spec|].
  fold n. split_and!.
  - rewrite length_imap. apply length_roundRobinPairs.
  - intros m Hm. apply list_elem_of_lookup_1 in Hm as [k Hk].
    apply list_lookup_imap_Some in Hk as (ij & _ & ->). done.
  - intros k m Hk. apply list_lookup_imap_Some in Hk as (ij & _ & ->). done.
  - apply list_eq. intros k. rewrite !list_lookup_fmap, list_lookup_imap.
    by destruct (roundRobinPairs n !! k).
  - apply NoDup_roundRobinPairs.
  - apply elem_of_roundRobinPairs.
Qed.

(** *** The seeding assigner *)

Lemma String_ltb_lt (s1 s2 : string) : String.ltb s1 s2 = true ↔ String_as_OT.lt s1 s2.
Proof.
  unfold String.ltb, String_as_OT.lt.
  change (String.compare s1 s2) with (String_as_OT.compare s1 s2).
  destruct (String_as_OT.compare s1 s2); split; congruence.
Qed.

Lemma String_ltb_swo : StrictWeakOrder String.ltb.
Proof.
  split.
  - intros x. apply not_true_is_false. rewrite String_ltb_lt.
    apply (StrictOrder_Irreflexive (R := String_as_OT.lt)).
  - intros x y z. rewrite !String_ltb_lt.
    apply (StrictOrder_Transitive (R := String_as_OT.lt)).
  - intros x y z. rewrite !String_ltb_lt. intros Hxz.
    destruct (String_as_OT.compare_spec x y) as [->|Hxy|Hyx]; [by right|by left|].
    right. by etrans.
Qed.

Lemma manualLess_swo (seedMap : gmap string Z) : StrictWeakOrder (manualLess seedMap).
Proof.
  destruct String_ltb_swo as [Hirr Htrans Hcmp].
  split; unfold manualLess.
  - intros x. destruct (seedMap !! Participant.ID x); [|apply Hirr].
    apply bool_decide_eq_false. lia.
  - intros x y z.
    destruct (seedMap !! Participant.ID x), (seedMap !! Participant.ID y),
      (seedMap !! Participant.ID z); try done; [|apply Htrans].
    rewrite !bool_decide_eq_true. lia.
  - intros x y z.
    destruct (seedMap !! Participant.ID x), (seedMap !! Participant.ID y),
      (seedMap !! Participant.ID z); try done; try (by left); try (by right);
      [|apply Hcmp].
    rewrite !bool_decide_eq_true. lia.
Qed.

Lemma clearSeed_assignSeeds (l : list Participant.t) :
  clearSeed <$> assignSeeds l = clearSeed <$> l.
Proof.
  apply list_eq. intros k. unfold assignSeeds.
  rewrite !list_lookup_fmap, list_lookup_imap. by destruct (l !! k).
Qed.

Lemma Seed_assignSeeds (l : list Participant.t) :
  Participant.Seed <$> assignSeeds l = Some <$> seqZ 1 (Z.of_nat (length l)).
Proof.
  apply list_eq_same_length with (length l);
    rewrite ?length_fmap, ?length_seqZ; unfold assignSeeds;
    rewrite ?length_imap; [lia..|].
  intros k x y Hk. rewrite !list_lookup_fmap, list_lookup_imap.
  rewrite lookup_seqZ_lt by lia.
  destruct (l !! k); [|done]. cbn. intros [= <-] [= <-]. f_equal. lia.
Qed.

Lemma assignSeeds_lookup (l : list Participant.t) (k : nat) (p : Participant.t) :
  assignSeeds l !! k = Some p →
  ∃ q, l !! k = Some q ∧ Participant.ID p = Participant.ID q.
Proof.
  unfold assignSeeds. intros H. apply list_lookup_imap_Some in H as (q & Hq & ->).
  by exists q.
Qed.

Lemma swap_Permutation {A} (l : list A) (i j : nat) :
  (i < length l)%nat → (j < length l)%nat →
  ∃ l', swap l (Z.of_nat i) (Z.of_nat j) = Ret l' ∧ l' ≡ₚ l.
Proof.
  intros Hi Hj.
  destruct (lookup_lt_is_Some_2 l i Hi) as [x Hx].
  destruct (lookup_lt_is_Some_2 l j Hj) as [y Hy].
  exists (<[j := x]> (<[i := y]> l)). split.
  - unfold swap. rewrite (index_lookup _ _ _ Hx), (index_lookup _ _ _ Hy).
    cbn [mbind result_bind]. rewrite store_insert by done.
    cbn [mbind result_bind]. rewrite store_insert by (by rewrite length_insert).
    done.
  - by apply Permutation_insert_swap.
Qed.

Section Shuffle.
Context (sortSlice : ∀ A : Type, (A → A → bool) → list A → list A).
Context (entropy : nat → Z).

Lemma shuffleStep_Permutation (ps l : list Participant.t) (calls : nat) (i : Z) :
  l ≡ₚ ps → 1 ≤ i < Z.of_nat (length ps) →
  ∃ l', shuffleStep entropy (Ret (l, calls)) i = Ret (l', S calls) ∧ l' ≡ₚ ps.
Proof.
  intros Hl Hi. unfold shuffleStep, RandomInt. cbn [mbind result_bind].
  rewrite decide_False by lia. cbn [mbind result_bind].
  pose proof (Z.mod_pos_bound (entropy calls) (i + 1) ltac:(lia)) as Hj.
  apply Permutation_length in Hl as Hlen.
  destruct (swap_Permutation l (Z.to_nat i) (Z.to_nat (entropy calls `mod` (i + 1))))
    as (l' & Hswap & Hperm); [lia..|].
  rewrite !Z2Nat.id in Hswap by lia. rewrite Hswap. cbn [mbind result_bind].
  exists l'. split; [done|]. by rewrite Hperm.
Qed.

Lemma shuffle_Permutation (ps : list Participant.t) :
  ∃ l, shuffle entropy ps = Ret l ∧ l ≡ₚ ps.
Proof.
  unfold shuffle.
  assert (G : ∃ l calls,
    foldl (shuffleStep entropy) (Ret (ps, 0%nat))
      (reverse (seqZ 1 (Z.of_nat (length ps) - 1))) = Ret (l, calls) ∧ l ≡ₚ ps).
  { apply (foldl_invariant
             (λ acc, ∃ l calls, acc = Ret (l, calls) ∧ l ≡ₚ ps)
             (λ i, 1 ≤ i < Z.of_nat (length ps))).
    - by exists ps, 0%nat.
    - apply Forall_forall. intros i Hi.
      apply elem_of_reverse, elem_of_seqZ in Hi. lia.
    - intros acc i (l & calls & -> & Hl) Hi.
      destruct (shuffleStep_Permutation ps l calls i Hl Hi) as (l' & -> & Hl').
      by exists l', (S calls). }
  destruct G as (l & calls & -> & Hl). by exists l.
Qed.
End Shuffle.

(** The seed map holds, for every participant, the explicit seed of the
    seed data: later entries overwrite earlier ones. *)
Lemma seedMapOf_snoc (data : list SeedingData) (sd : SeedingData) :
  seedMapOf (data ++ [sd]) = <[ParticipantID sd := SeedingSeed sd]> (seedMapOf data).
Proof. unfold seedMapOf. by rewrite foldl_app. Qed.

Lemma seedMapOf_lookup (data : list SeedingData) (id : string) :
  seedMapOf data !! id = SeedingSeed <$> last (filter (λ sd, ParticipantID sd = id) data).
Proof.
  induction data as [|sd data IH] using rev_ind; [done|].
  rewrite seedMapOf_snoc, filter_app, filter_cons, filter_nil.
  case_decide as Hid.
  - rewrite Hid, lookup_insert_eq, last_snoc. done.
  - rewrite lookup_insert_ne, app_nil_r by done. done.
Qed.

Lemma seedMapOf_explicitSeed (data : list SeedingData) (id : string) :
  seedMapOf data !! id = explicitSeed data id.
Proof. apply seedMapOf_lookup. Qed.

(** A participant has an explicit seed exactly when an entry of the seed
    data names it. *)
Lemma explicitSeed_is_Some (data : list SeedingData) (id : string) :
  is_Some (explicitSeed data id) ↔ ∃ sd, sd ∈ data ∧ ParticipantID sd = id.
Proof.
  unfold explicitSeed. rewrite fmap_is_Some. split.
  - intros [sd Hlast]. exists sd.
    apply last_Some_elem_of, list_elem_of_filter in Hlast as [? ?]. done.
  - intros (sd & Hin & Hid). apply last_is_Some.
    apply (elem_of_not_nil sd). by apply list_elem_of_filter.
Qed.

(** In seed data with one entry at most for a participant, the explicit seed
    is the seed of that entry. *)
Lemma explicitSeed_NoDup (data : list SeedingData) (sd : SeedingData) :
  NoDup (ParticipantID <$> data) → sd ∈ data →
  explicitSeed data (ParticipantID sd) = Some (SeedingSeed sd).
Proof.
  unfold explicitSeed. induction data as [|x data IH]; intros Hnd Hin.
  - by apply elem_of_nil in Hin.
  - rewrite fmap_cons in Hnd. apply NoDup_cons in Hnd as [Hx Hnd].
    rewrite filter_cons. apply elem_of_cons in Hin as [->|Hin].
    + rewrite decide_True by done.
      replace (filter (λ sd, ParticipantID sd = ParticipantID x) data)
        with (@nil SeedingData); [done|].
      symmetry. apply elem_of_nil_inv. intros y [Heq Hy]%list_elem_of_filter.
      apply Hx. rewrite <- Heq. by apply list_elem_of_fmap_2.
    + rewrite decide_False.
      * by apply IH.
      * intros Heq. apply Hx. rewrite Heq. by apply list_elem_of_fmap_2.
Qed.

(** C8: the random method returns the participants in some order, none lost
    and none duplicated, stamped with the seeds 1 to n.  The manual method
    returns them, none lost and none duplicated and stamped with the seeds 1
    to n as well, in an order in which a participant that an entry of the
    seed data names is never preceded by one that no entry names, and in
    which the explicit seeds of the seed data ascend; when the seed data
    have one entry at most for a participant, the seeds of the entries of
    two participants ascend with their places. *)
Theorem seeding_methods
    (sortSlice : ∀ A : Type, (A → A → bool) → list A → list A)
    (entropy : nat → Z) (participants : list Participant.t)
    (data : list SeedingData) :
  SortContract sortSlice →
  let n := Z.of_nat (length participants) in
  (∃ out,
     applySeedingMethod sortSlice entropy participants "random" data = Ret out ∧
     clearSeed <$> out ≡ₚ clearSeed <$> participants ∧
     Participant.Seed <$> out = Some <$> seqZ 1 n) ∧
  (∃ out,
     applySeedingMethod sortSlice entropy participants "manual" data = Ret out ∧
     clearSeed <$> out ≡ₚ clearSeed <$> participants ∧
     Participant.Seed <$> out = Some <$> seqZ 1 n ∧
     ∀ (i j : nat) (pi pj : Participant.t),
       (i < j)%nat → out !! i = Some pi → out !! j = Some pj →
       (∀ sdj, sdj ∈ data → ParticipantID sdj = Participant.ID pj →
               ∃ sdi, sdi ∈ data ∧ ParticipantID sdi = Participant.ID pi) ∧
       (∀ si sj, explicitSeed data (Participant.ID pi) = Some si →
                 explicitSeed data (Participant.ID pj) = Some sj → si ≤ sj) ∧
       (NoDup (ParticipantID <$> data) →
        ∀ sdi sdj, sdi ∈ data → sdj ∈ data →
                   ParticipantID sdi = Participant.ID pi →
                   ParticipantID sdj = Participant.ID pj →
                   SeedingSeed sdi ≤ SeedingSeed sdj)).
Proof.
  intros [Hperm Hsorted] n. split.
  - destruct (shuffle_Permutation entropy participants) as (l & Hl & Hp).
    exists (assignSeeds l). unfold applySeedingMethod.
    rewrite decide_False, decide_True by done. rewrite Hl. cbn [mbind result_bind].
    split; [done|]. split.
    + by rewrite clearSeed_assignSeeds, Hp.
    + rewrite Seed_assignSeeds. unfold n. by rewrite Hp.
  - set (seedMap := seedMapOf data).
    set (sorted := sortSlice _ (manualLess seedMap) participants).
    exists (assignSeeds sorted). unfold applySeedingMethod.
    rewrite decide_True by done. split; [done|]. split; [|split].
    + rewrite clearSeed_assignSeeds. unfold sorted. by rewrite Hperm.
    + rewrite Seed_assignSeeds. unfold n, sorted. by rewrite Hperm.
    + intros i j pi pj Hij Hi Hj.
      apply assignSeeds_lookup in Hi as (qi & Hqi & ->).
      apply assignSeeds_lookup in Hj as (qj & Hqj & ->).
      pose proof (Hsorted _ (manualLess seedMap) participants
                    (manualLess_swo seedMap) i j qi qj Hij Hqi Hqj) as Hless.
      unfold manualLess, seedMap in Hless.
      rewrite !seedMapOf_explicitSeed in Hless.
      assert (Hsome : is_Some (explicitSeed data (Participant.ID qj)) →
                      is_Some (explicitSeed data (Participant.ID qi))).
      { destruct (explicitSeed data (Participant.ID qj)),
          (explicitSeed data (Participant.ID qi)); done. }
      assert (Hseeds : ∀ si sj, explicitSeed data (Participant.ID qi) = Some si →
                                explicitSeed data (Participant.ID qj) = Some sj → si ≤ sj).
      { intros si sj Hsi Hsj. rewrite Hsi, Hsj in Hless.
        apply bool_decide_eq_false in Hless. lia. }
      split; [|split].
      * intros sdj Hin Hid. apply explicitSeed_is_Some, Hsome, explicitSeed_is_Some.
        by exists sdj.
      * exact Hseeds.
      * intros Hnd sdi sdj Hini Hinj Hidi Hidj. apply Hseeds.
        -- rewrite <- Hidi. by apply explicitSeed_NoDup.
        -- rewrite <- Hidj. by apply explicitSeed_NoDup.
Qed.

(** The merge sort of the model meets the contract of [sort.Slice]. *)
Lemma StronglySorted_lookup_lt {A} (R : A → A → Prop) (l : list A) :
  StronglySorted R l →
  ∀ (i j : nat) (x y : A), (i < j)%nat → l !! i = Some x → l !! j = Some y → R x y.
Proof.
  induction 1 as [|a l _ IH Hall]; intros i j x y Hij Hi Hj; [done|].
  destruct j as [|j]; [lia|]. cbn in Hj. destruct i as [|i].
  - injection Hi as <-. rewrite Forall_forall in Hall.
    apply Hall. by eapply list_elem_of_lookup_2.
  - cbn in Hi. apply (IH i j); [lia|done..].
Qed.

Lemma mergeSortSlice_contract : SortContract mergeSortSlice.
Proof.
  split; unfold mergeSortSlice.
  - intros A less l. apply merge_sort_Permutation.
  - intros A less l [Hirr Htrans Hcmp] i j x y Hij Hi Hj.
    assert (Htotal : Total (λ x y : A, less y x = false)).
    { intros a b. destruct (less b a) eqn:Hba; [|by left].
      right. destruct (less a b) eqn:Hab; [|done].
      pose proof (Htrans _ _ _ Hab Hba). pose proof (Hirr a). congruence. }
    assert (Htransitive : Transitive (λ x y : A, less y x = false)).
    { intros a b c Hba Hcb. destruct (less c a) eqn:Hca; [|done].
      destruct (Hcmp c b a Hca); congruence. }
    by eapply (StronglySorted_lookup_lt _ _
                 (StronglySorted_merge_sort (λ x y : A, less y x = false) l)).
Qed.

Lemma seeding_methods_witness :
  SortContract mergeSortSlice ∧
  (∃ out,
     applySeedingMethod mergeSortSlice exampleEntropy exampleParticipants "random"
       exampleSeeding = Ret out ∧
     clearSeed <$> out ≡ₚ clearSeed <$> exampleParticipants) ∧
  (∃ out,
     applySeedingMethod mergeSortSlice exampleEntropy exampleParticipants "manual"
       exampleSeeding = Ret out ∧
     Participant.ID <$> out = ["c"; "a"; "b"] ∧
     Participant.Seed <$> out = [Some 1; Some 2; Some 3] ∧
     ∀ (i j : nat) (pi pj : Participant.t),
       (i < j)%nat → out !! i = Some pi → out !! j = Some pj →
       ∀ si sj, explicitSeed exampleSeeding (Participant.ID pi) = Some si →
                explicitSeed exampleSeeding (Participant.ID pj) = Some sj → si ≤ sj).
Proof.
  split; [exact mergeSortSlice_contract|].
  destruct (seeding_methods mergeSortSlice exampleEntropy exampleParticipants
              exampleSeeding mergeSortSlice_contract)
    as [(out & Hout & Hperm & _) (out' & Hout' & _ & Hseed & Horder)].
  split.
  - exists out. split; assumption.
  - exists out'. split; [assumption|]. split; [|split].
    + assert (Hrun : applySeedingMethod mergeSortSlice exampleEntropy exampleParticipants
                       "manual" exampleSeeding
                     = Ret [ {| Participant.ID := "c"; Participant.Name := "Cyd";
                                Participant.Seed := Some 1 |};
                             {| Participant.ID := "a"; Participant.Name := "Ann";
                                Participant.Seed := Some 2 |};
                             {| Participant.ID := "b"; Participant.Name := "Bob";
                                Participant.Seed := Some 3 |} ]) by (by vm_compute).
      rewrite Hrun in Hout'. by injection Hout' as <-.
    + exact Hseed.
    + intros i j pi pj Hij Hi Hj. by apply (Horder i j pi pj Hij Hi Hj).
Defined.

(** *** The capacity calculator *)

Lemma calculateDailyOperationalMinutes_returns (hours : gmap string DayHours) :
  ∃ dailyMinutes, calculateDailyOperationalMinutes hours = Ret dailyMinutes.
Proof.
  unfold calculateDailyOperationalMinutes.
  destruct (foldl dailyMinutesStep (0, 0) (map_to_list hours).*2)
    as [totalMinutes daysCount].
  case_decide; [by eexists|]. unfold GoInt.div. rewrite decide_False by done.
  by eexists.
Qed.

Lemma calculateTournamentDays_same (day : Time) : calculateTournamentDays day day = 1.
Proof. unfold calculateTournamentDays, timeSub. by rewrite Z.sub_diag. Qed.

Lemma roundHalfEven_exact (q d : Z) : 0 < d → Float64.roundHalfEven (q * d) d = q.
Proof.
  intros Hd. unfold Float64.roundHalfEven.
  rewrite Z.div_mul, Z.mod_mul by lia. by rewrite decide_True by lia.
Qed.

(** An integer below [2 ^ 53] in absolute value is a binary64 value: rounding
    it leaves it as it is. *)
Lemma round_exact (n d z : Z) :
  0 < d → n = z * d → z ≠ 0 → Z.abs z < 2 ^ 53 →
  ∃ m, 0 ≤ m ∧ Float64.round n d = (z * 2 ^ m, 2 ^ m).
Proof.
  intros Hd -> Hz Hlt. exists (52 - Z.log2 (Z.abs z)).
  assert (Hlog : 0 ≤ Z.log2 (Z.abs z) ≤ 52).
  { split; [apply Z.log2_nonneg|].
    assert (Z.log2 (Z.abs z) < 53); [|lia]. apply Z.log2_lt_pow2; lia. }
  split; [lia|]. unfold Float64.round.
  assert (Hn : z * d ≠ 0) by (apply Z.neq_mul_0; lia).
  destruct (decide (z * d = 0)) as [|_]; [done|].
  assert (Habs : Z.abs (z * d) = Z.abs z * d) by (rewrite Z.abs_mul; lia).
  assert (Hsgn : Z.sgn (z * d) = Z.sgn z) by (rewrite Z.sgn_mul; lia).
  rewrite Habs, Hsgn. unfold Float64.exponent.
  assert (Hle : d ≤ Z.abs z * d) by nia.
  destruct (decide (d ≤ Z.abs z * d)) as [_|]; [|done]. rewrite Z.div_mul by lia.
  case_decide as He.
  - assert (Z.log2 (Z.abs z) = 52) as -> by lia. cbn [Z.sub Z.pos_sub Z.opp].
    change (52 - 52) with 0. change (2 ^ 0) with 1.
    rewrite !Z.mul_1_r, roundHalfEven_exact by lia.
    f_equal. rewrite Z.mul_comm. apply Z.abs_sgn.
  - replace (- (Z.log2 (Z.abs z) - 52)) with (52 - Z.log2 (Z.abs z)) by lia.
    replace (Z.abs z * d * 2 ^ (52 - Z.log2 (Z.abs z)))
      with (Z.abs z * 2 ^ (52 - Z.log2 (Z.abs z)) * d) by lia.
    rewrite roundHalfEven_exact by lia.
    f_equal. rewrite Z.mul_assoc. f_equal. rewrite Z.mul_comm. apply Z.abs_sgn.
Qed.

Lemma round_zero (d : Z) : Float64.round 0 d = (0, 1).
Proof. done. Qed.

(** Over a whole number of days the count is that number plus one: both
    endpoints are counted. *)
Lemma calculateTournamentDays_whole_days (start : Time) (k : Z) :
  0 ≤ k → k * (24 * nanosPerHour) ≤ maxDuration →
  calculateTournamentDays start (start + k * (24 * nanosPerHour)) = k + 1.
Proof.
  intros Hk Hmax. unfold calculateTournamentDays, timeSub.
  replace (start + k * (24 * nanosPerHour) - start) with (k * (24 * nanosPerHour)) by lia.
  assert (Hmin : minDuration ≤ 0) by done.
  assert (Hpos : 0 ≤ k * (24 * nanosPerHour)) by (unfold nanosPerHour; lia).
  rewrite Z.min_r, Z.max_r by lia.
  destruct (decide (k = 0)) as [->|Hk0]; [done|].
  assert (Hsmall : k < 2 ^ 40).
  { unfold maxDuration, GoInt.max_int, nanosPerHour in Hmax. lia. }
  unfold durationHours.
  replace (k * (24 * nanosPerHour)) with (24 * k * nanosPerHour) by lia.
  rewrite Z.quot_mul, Z.rem_mul by done.
  unfold Float64.ofInt at 2. rewrite round_zero.
  unfold Float64.divInt at 2. cbn [fst snd]. rewrite round_zero.
  unfold Float64.ofInt.
  destruct (round_exact (24 * k) 1 (24 * k)) as (m & Hm & ->); [lia..|].
  unfold Float64.add. cbn [fst snd].
  destruct (round_exact (24 * k * 2 ^ m * 1 + 0 * 2 ^ m) (2 ^ m * 1) (24 * k))
    as (m' & Hm' & ->); [lia..|].
  unfold Float64.divInt. cbn [fst snd].
  destruct (round_exact (24 * k * 2 ^ m') (2 ^ m' * 24) k)
    as (m'' & Hm'' & ->); [lia..|].
  unfold Float64.toInt. cbn [fst snd]. rewrite Z.quot_mul by lia. done.
Qed.

(** C2: over a span one nanosecond short of 171 days, 170 whole days and a
    part of one, the days counted are 172 and not the 171 that counting both
    endpoints gives: the hours of the span, a 3.6e12th short of 4104, round
    to 4104 in [float64], and their quotient by 24 is then 171.  The total
    match slots of the request of the example over that span are 4 * 172,
    and its single-elimination capacity is 4 * 172 + 1. *)
Theorem capacity_days_rounding (fl : Float64Ops) :
  let start := Req.StartDate edgeRequest in
  let end_ := Req.EndDate edgeRequest in
  170 * (24 * nanosPerHour) ≤ end_ - start < 171 * (24 * nanosPerHour) ∧
  (end_ - start) `div` (24 * nanosPerHour) + 1 = 171 ∧
  durationHours (timeSub end_ start) = Float64.ofInt 4104 ∧
  calculateTournamentDays start end_ = 172 ∧
  totalMatchSlots edgeRequest = Ret (4 * 172) ∧
  calculateTournamentCapacity fl edgeRequest = Ret (4 * 172 + 1).
Proof.
  intros start end_. split; [by vm_compute|]. split; [by vm_compute|].
  split; [by vm_compute|]. split; [by vm_compute|]. split; [by vm_compute|].
  unfold calculateTournamentCapacity.
  assert (Hslots : totalMatchSlots edgeRequest = Ret 688) by (by vm_compute).
  rewrite Hslots. reflexivity.
Qed.

(** *** Tournament creation *)

(** C5: a capacity below 2 never reaches the caller with a tournament: when
    the calculator returns such a capacity, [Create] returns the error that
    the constraints are too restrictive, whatever the format; and a
    tournament that [Create] returns carries the calculated capacity
    unchanged, which is then at least 2. *)
Theorem create_rejects_small_capacity (fl : Float64Ops) (GenerateUUID : nat → string)
    (repos : Repos) (organizerID : string) (req : Req.t) (capacity : Z) :
  calculateTournamentCapacity fl req = Ret capacity →
  (capacity < 2 →
   Create fl GenerateUUID repos organizerID req = Fail ErrConstraintsTooRestrictive) ∧
  (∀ tournament,
     Create fl GenerateUUID repos organizerID req = Ret tournament →
     Tournament.CapacityLimit tournament = capacity ∧ 2 ≤ capacity).
Proof.
  intros Hcap. unfold Create. rewrite Hcap. cbn [mbind result_bind]. split.
  - intros Hlt. by rewrite decide_True.
  - intros tournament. case_decide; [done|].
    repeat (case_match; [done|]). intros [= <-]. cbn. split; [done|lia].
Qed.

Lemma create_rejects_small_capacity_witness :
  calculateTournamentCapacity exactFloat64 restrictiveRequest = Ret 1 ∧
  Create exactFloat64 exampleUUID exampleRepos "o1" restrictiveRequest
  = Fail ErrConstraintsTooRestrictive.
Proof.
  split; [reflexivity|].
  apply (create_rejects_small_capacity exactFloat64 exampleUUID exampleRepos "o1"
           restrictiveRequest 1); [reflexivity|lia].
Defined.

(** A panic of the calculator leaves [Create] without a tournament too. *)
Lemma Create_returns_capacity (fl : Float64Ops) (GenerateUUID : nat → string)
    (repos : Repos) (organizerID : string) (req : Req.t) (tournament : Tournament.t) :
  Create fl GenerateUUID repos organizerID req = Ret tournament →
  calculateTournamentCapacity fl req = Ret (Tournament.CapacityLimit tournament) ∧
  2 ≤ Tournament.CapacityLimit tournament.
Proof.
  unfold Create.
  destruct (calculateTournamentCapacity fl req) as [capacity| | |];
    cbn [mbind result_bind]; try discriminate.
  case_decide; [done|].
  repeat (case_match; [done|]). intros [= <-]. cbn. split; [done|lia].
Qed.

(** *** Fixture validation *)

Section Validation.
Context (sortSlice : ∀ A : Type, (A → A → bool) → list A → list A).
Context (entropy : nat → Z) (GenerateUUID : nat → string).
Context (generateDoubleEliminationFixtures generateGroupToKnockoutFixtures
         generateSwissFirstRound
  : Tournament.t → list Participant.t → result (list Match.t)).
Context (repos : Repos).

(** C9: once the fixtures are generated, the validation step fails with
    the capacity error exactly when their number exceeds
    [MaxMatchesPerDay * days] (the product of Go's [int]) and passes at or
    below that bound; [GenerateFixtures] then reports this error in the
    first case only, and returns the fixtures in the second when the
    repository accepts them. *)
Theorem fixture_count_validation (tournamentID seedingMethod : string)
    (seedingData : list SeedingData) (tournament : Tournament.t)
    (participants seeded : list Participant.t) (fx : list Match.t) :
  TournamentGetByIDWithDetails repos tournamentID = Some tournament →
  Tournament.Status tournament = StatusRegistrationClosed →
  GetByTournamentID repos tournamentID = Some participants →
  (2 ≤ length participants)%nat →
  applySeedingMethod sortSlice entropy participants seedingMethod seedingData
    = Ret seeded →
  generateByFormat GenerateUUID generateDoubleEliminationFixtures
    generateGroupToKnockoutFixtures generateSwissFirstRound tournament seeded
    = Ret fx →
  let bound :=
    GoInt.mul (Tournament.MaxMatchesPerDay tournament)
      (calculateTournamentDays (Tournament.StartDate tournament)
         (Tournament.EndDate tournament)) in
  let outcome :=
    GenerateFixtures sortSlice entropy GenerateUUID
      generateDoubleEliminationFixtures generateGroupToKnockoutFixtures
      generateSwissFirstRound repos tournamentID seedingMethod seedingData in
  (validateFixtureCount tournament fx = Fail ErrCapacityExceeded
   ↔ bound < Z.of_nat (length fx)) ∧
  (validateFixtureCount tournament fx = Ret () ↔ Z.of_nat (length fx) ≤ bound) ∧
  (outcome = Fail ErrCapacityExceeded ↔ bound < Z.of_nat (length fx)) ∧
  (Z.of_nat (length fx) ≤ bound →
   BeginTx repos = true → forallb (MatchCreateWithTx repos) fx = true →
   UpdateStatusWithTx repos = true → Commit repos = true →
   outcome = Ret fx).
Proof.
  intros Hget Hstatus Hparts Hn Hseed Hgen bound outcome.
  assert (Hvalid :
    (validateFixtureCount tournament fx = Fail ErrCapacityExceeded
     ↔ bound < Z.of_nat (length fx)) ∧
    (validateFixtureCount tournament fx = Ret () ↔ Z.of_nat (length fx) ≤ bound)).
  { unfold validateFixtureCount. fold bound. case_decide; split; split; try done; lia. }
  destruct Hvalid as [Hfail Hpass]. split; [done|]. split; [done|].
  assert (Houtcome : outcome
    = (_ ← validateFixtureCount tournament fx;
       if negb (BeginTx repos) then Fail ErrRepository
       else if negb (forallb (MatchCreateWithTx repos) fx) then Fail ErrRepository
       else if negb (UpdateStatusWithTx repos) then Fail ErrRepository
       else if negb (Commit repos) then Fail ErrRepository
       else Ret fx)).
  { unfold outcome, GenerateFixtures. rewrite Hget.
    rewrite decide_False by (by intros []). rewrite Hparts.
    rewrite decide_False by lia. rewrite Hseed. cbn [mbind result_bind].
    rewrite Hgen. done. }
  rewrite Houtcome. split.
  - rewrite <- Hfail.
    destruct (validateFixtureCount tournament fx) as [[]|e| |] eqn:Hv;
      cbn [mbind result_bind]; [|split; congruence..].
    split; [|discriminate]. repeat case_match; discriminate.
  - intros Hle Hbegin Hcreate Hupdate Hcommit.
    apply Hpass in Hle. rewrite Hle. cbn [mbind result_bind].
    by rewrite Hbegin, Hcreate, Hupdate, Hcommit.
Qed.
End Validation.

Lemma fixture_count_validation_witness :
  ∃ fx,
    GenerateFixtures mergeSortSlice exampleEntropy exampleUUID noFixtures noFixtures
      noFixtures exampleRepos "t1" "manual" [] = Ret fx ∧
    length fx = 3%nat.
Proof.
  eexists. split.
  - eapply (fixture_count_validation mergeSortSlice exampleEntropy exampleUUID
              noFixtures noFixtures noFixtures exampleRepos "t1" "manual" []
              exampleTournament exampleParticipants);
      [reflexivity | reflexivity | reflexivity | simpl; lia | reflexivity
      | reflexivity | by vm_compute | reflexivity.. ].
  - reflexivity.
Defined.

(** C1 at three participants: the generator returns three matches, one more
    than the [n - 1] announced, in the rounds 1 and 2. *)
Lemma single_elimination_three_participants :
  ∃ fx,
    generateSingleEliminationFixtures exampleUUID exampleTournament exampleParticipants
      = Ret fx ∧
    length exampleParticipants = 3%nat ∧
    length fx = 3%nat ∧
    Match.RoundNumber <$> fx = [1; 1; 2].
Proof. eexists. split; [by vm_compute|]. done. Qed.

(** ** Further properties of the engine *)

(** *** Every match but the final is linked *)

Lemma foldl_establish {A B} (Inv : A → Prop) (Q : B → A → Prop) (f : A → B → A)
    (l : list B) :
  (∀ a x, Inv a → Inv (f a x)) →
  (∀ a x, x ∈ l → Inv a → Q x (f a x)) →
  (∀ a x y, Inv a → Q y a → Q y (f a x)) →
  ∀ a, Inv a → ∀ x, x ∈ l → Q x (foldl f a l).
Proof.
  intros Hinv Hset Hkeep.
  assert (Hmono : ∀ l' a y, Inv a → Q y a → Q y (foldl f a l')).
  { induction l' as [|x l' IH]; intros a y Ha Hy; [done|].
    cbn. apply IH; [by apply Hinv|by apply Hkeep]. }
  induction l as [|x0 l IH]; intros a Ha x Hx; [by apply elem_of_nil in Hx|].
  cbn. apply elem_of_cons in Hx as [->|Hx].
  - apply Hmono; [by apply Hinv|]. apply Hset; [by left|done].
  - apply IH; [|by apply Hinv|done].
    intros a' x' Hx' Ha'. apply Hset; [by right|done].
Qed.

Lemma length_setNext (p q : nat) (h : list Match.t) :
  length (setNext p q h) = length h.
Proof. unfold setNext. destruct (h !! q); [apply length_alter|done]. Qed.

Lemma setNext_hasNext (p q : nat) (h : list Match.t) :
  (p < length h)%nat → (q < length h)%nat → hasNext (setNext p q h) p.
Proof.
  intros Hp Hq. unfold setNext, hasNext.
  destruct (lookup_lt_is_Some_2 h q Hq) as [next ->].
  destruct (lookup_lt_is_Some_2 h p Hp) as [m Hm].
  eexists. rewrite list_lookup_alter_eq, Hm. split; [done|]. by eexists.
Qed.

Lemma setNext_hasNext_keep (p q k : nat) (h : list Match.t) :
  hasNext h k → hasNext (setNext p q h) k.
Proof.
  intros (m & Hm & Hsome). unfold setNext, hasNext.
  destruct (h !! q) as [next|]; [|by exists m].
  destruct (decide (p = k)) as [->|Hne].
  - eexists. rewrite list_lookup_alter_eq, Hm. split; [done|]. by eexists.
  - exists m. by rewrite list_lookup_alter_ne.
Qed.

Section LinkComplete.
Context (len : nat) (cur nxt : list nat).
Context (Hcur : Forall (λ p, p < len)%nat cur) (Hnxt : Forall (λ q, q < len)%nat nxt).

Lemma length_linkStep (h : list Match.t) (i : nat) :
  length (linkStep cur nxt h i) = length h.
Proof.
  unfold linkStep. repeat case_match; rewrite ?length_setNext; done.
Qed.

Lemma linkStep_hasNext_keep (h : list Match.t) (i k : nat) :
  hasNext h k → hasNext (linkStep cur nxt h i) k.
Proof.
  intros Hk. unfold linkStep.
  repeat case_match; try done; repeat apply setNext_hasNext_keep; done.
Qed.

(** Turn [i] of the loop links the matches at the positions [i] and [i + 1]
    of the round. *)
Lemma linkStep_hasNext (h : list Match.t) (i j p : nat) :
  length h = len → (i / 2 < length nxt)%nat →
  (j = i ∨ j = i + 1)%nat → cur !! j = Some p →
  hasNext (linkStep cur nxt h i) p.
Proof.
  intros Hlen Hi Hj Hp. unfold linkStep. rewrite decide_True by done.
  destruct (lookup_lt_is_Some_2 nxt (i / 2) Hi) as [q Hq]. rewrite Hq.
  assert (Hqlen : (q < len)%nat).
  { rewrite Forall_forall in Hnxt. apply Hnxt. by eapply list_elem_of_lookup_2. }
  assert (Hplen : ∀ j' p', cur !! j' = Some p' → (p' < len)%nat).
  { intros j' p' Hj'. rewrite Forall_forall in Hcur. apply Hcur.
    by eapply list_elem_of_lookup_2. }
  assert (Hi' : (i < length cur)%nat).
  { apply lookup_lt_Some in Hp. lia. }
  destruct (lookup_lt_is_Some_2 cur i Hi') as [p0 Hp0]. rewrite Hp0.
  destruct Hj as [-> | ->].
  - assert (p0 = p) as -> by congruence.
    assert (hasNext (setNext p q h) p)
      by (apply setNext_hasNext; [pose proof (Hplen _ _ Hp)|]; lia).
    repeat case_match; try done. by apply setNext_hasNext_keep.
  - rewrite decide_True by (by eapply lookup_lt_Some). rewrite Hp.
    apply setNext_hasNext; rewrite length_setNext; [pose proof (Hplen _ _ Hp)|]; lia.
Qed.

(** After the loop over a round, every match of the round whose target
    exists is linked. *)
Lemma linkRound_fold_hasNext (h : list Match.t) (j p : nat) :
  length h = len → (j / 2 < length nxt)%nat → cur !! j = Some p →
  hasNext (foldl (linkStep cur nxt) h (evens (length cur))) p.
Proof.
  intros Hlen Hj Hp.
  pose proof (Nat.div_mod_eq j 2) as Hdiv.
  pose proof (Nat.mod_upper_bound j 2 ltac:(lia)) as Hmod.
  apply lookup_lt_Some in Hp as Hjlen.
  apply (foldl_establish (λ a, length a = len)
           (λ i a, ∀ j' p', (i / 2 < length nxt)%nat → (j' = i ∨ j' = i + 1)%nat →
                            cur !! j' = Some p' → hasNext a p')
           (linkStep cur nxt) (evens (length cur)))
    with (x := (2 * (j / 2))%nat) (j' := j).
  - intros a x Ha. by rewrite length_linkStep.
  - intros a x _ Ha j' p' Hx Hj' Hp'. by eapply linkStep_hasNext.
  - intros a x y Ha Hy j' p' Hx Hj' Hp'. apply linkStep_hasNext_keep. by eapply Hy.
  - done.
  - unfold evens. apply list_elem_of_fmap. exists (j / 2)%nat. split; [done|].
    apply elem_of_seq. split; [lia|].
    cbn [Nat.add]. apply Nat.Div0.div_lt_upper_bound.
    pose proof (Nat.div_mod_eq (length cur + 1) 2).
    pose proof (Nat.mod_upper_bound (length cur + 1) 2 ltac:(lia)). lia.
  - by rewrite (Nat.mul_comm 2), Nat.div_mul.
  - lia.
  - done.
Qed.
End LinkComplete.

Lemma indicesOfRound_lt (heap : list Match.t) (r : Z) :
  Forall (λ k, k < length heap)%nat (indicesOfRound heap r).
Proof.
  apply Forall_forall. intros k Hk.
  apply elem_of_indicesOfRound in Hk as (m & Hm & _). by eapply lookup_lt_Some.
Qed.

Lemma length_linkRound (heap0 h : list Match.t) (r : Z) :
  length (linkRound (groupByRound heap0) h r) = length h.
Proof.
  unfold linkRound.
  apply (foldl_invariant (λ a, length a = length h) (λ _, True));
    [done|by apply Forall_forall|].
  intros a x Ha _. by rewrite length_linkStep.
Qed.

Lemma linkRound_hasNext_keep (heap0 h : list Match.t) (r : Z) (k : nat) :
  hasNext h k → hasNext (linkRound (groupByRound heap0) h r) k.
Proof.
  intros Hk. unfold linkRound.
  apply (foldl_invariant (λ a, hasNext a k) (λ _, True));
    [done|by apply Forall_forall|].
  intros a x Ha _. by apply linkStep_hasNext_keep.
Qed.

(** After [linkBracketProgression], every match of a round below [rounds]
    whose target exists in the next round is linked. *)
Lemma linkBracketProgression_hasNext (heap0 : list Match.t) (rounds r : Z)
    (j p : nat) :
  1 ≤ r < rounds →
  indicesOfRound heap0 r !! j = Some p →
  (j / 2 < length (indicesOfRound heap0 (r + 1)))%nat →
  hasNext (linkBracketProgression heap0 rounds) p.
Proof.
  intros Hr Hp Hj. unfold linkBracketProgression.
  apply (foldl_establish (λ a, length a = length heap0)
           (λ r a, ∀ j p, indicesOfRound heap0 r !! j = Some p →
                          (j / 2 < length (indicesOfRound heap0 (r + 1)))%nat →
                          hasNext a p)
           (linkRound (groupByRound heap0)) (seqZ 1 (rounds - 1)))
    with (x := r) (j := j).
  - intros a x Ha. by rewrite length_linkRound.
  - intros a x _ Ha j' p' Hp' Hj'. unfold linkRound.
    rewrite !roundOf_groupByRound.
    eapply (linkRound_fold_hasNext (length heap0));
      [apply indicesOfRound_lt|apply indicesOfRound_lt|done..].
  - intros a x y Ha Hy j' p' Hp' Hj'. apply linkRound_hasNext_keep. by eapply Hy.
  - done.
  - apply elem_of_seqZ. lia.
  - done.
  - done.
Qed.

(** *** The rounds of the bracket as ranges of the fixture list *)

Lemma indicesOfRound_app (h1 h2 : list Match.t) (r : Z) :
  indicesOfRound (h1 ++ h2) r
  = indicesOfRound h1 r ++ ((λ k, length h1 + k)%nat <$> indicesOfRound h2 r).
Proof.
  induction h2 as [|m h2 IH] using rev_ind.
  { rewrite app_nil_r. cbn. by rewrite app_nil_r. }
  rewrite app_assoc, !indicesOfRound_snoc, IH, fmap_app, <- app_assoc.
  do 2 f_equal. rewrite length_app. by case_decide.
Qed.

Lemma indicesOfRound_all (h : list Match.t) (r : Z) :
  (∀ m, m ∈ h → Match.RoundNumber m = r) →
  indicesOfRound h r = seq 0 (length h).
Proof.
  induction h as [|m h IH] using rev_ind; intros Hall; [done|].
  rewrite indicesOfRound_snoc, IH, length_app, seq_app.
  - rewrite decide_True; [done|]. apply Hall, elem_of_app. right. by left.
  - intros m' Hm'. apply Hall, elem_of_app. by left.
Qed.

Lemma indicesOfRound_none (h : list Match.t) (r : Z) :
  (∀ m, m ∈ h → Match.RoundNumber m ≠ r) → indicesOfRound h r = [].
Proof.
  intros Hnone. apply elem_of_nil_inv. intros k Hk.
  apply elem_of_indicesOfRound in Hk as (m & Hm & Hr).
  by apply (Hnone m); [eapply list_elem_of_lookup_2|].
Qed.

Section BracketRanges.
Context (GenerateUUID : nat → string) (tournament : Tournament.t).
Context (n rounds : Z) (bp : list Z) (pp : gmap Z Participant.t).
Context (Hrounds : 1 ≤ rounds).

Local Abbreviation pre :=
  (bracket GenerateUUID tournament n (pow2 rounds) bp pp (seqZ 1 rounds) 0).

Lemma roundOffset_1 : roundOffset rounds 1 = 0%nat.
Proof. unfold roundOffset. rewrite Z.sub_diag, Z.sub_0_r. lia. Qed.

Lemma roundOffset_succ (r : Z) :
  1 ≤ r ≤ rounds →
  roundOffset rounds (r + 1) = (roundOffset rounds r + roundSize rounds r)%nat.
Proof.
  intros Hr. unfold roundOffset, roundSize.
  replace (r + 1 - 1) with r by lia.
  pose proof (pow2_pos (rounds - r) ltac:(lia)).
  assert (pow2 (rounds - (r - 1)) = 2 * pow2 (rounds - r)) as Hpow.
  { unfold pow2. replace (rounds - (r - 1)) with (Z.succ (rounds - r)) by lia.
    by rewrite Z.pow_succ_r by lia. }
  assert (pow2 (rounds - (r - 1)) ≤ pow2 rounds).
  { unfold pow2. apply Z.pow_le_mono_r; lia. }
  lia.
Qed.

(** The bracket splits at every round into the earlier rounds, the block of
    the round and the later rounds. *)
Lemma bracket_split (r : Z) :
  1 ≤ r ≤ rounds →
  ∃ before block after,
    pre = before ++ block ++ after ∧
    length before = roundOffset rounds r ∧
    block = roundBlock GenerateUUID tournament n (pow2 rounds) bp pp r
              (roundOffset rounds r) ∧
    length block = roundSize rounds r ∧
    (∀ m, m ∈ before → Match.RoundNumber m < r) ∧
    (∀ m, m ∈ after → r < Match.RoundNumber m).
Proof.
  intros Hr.
  assert (Hseq : seqZ 1 rounds = seqZ 1 (r - 1) ++ [r] ++ seqZ (r + 1) (rounds - r)).
  { replace rounds with ((r - 1) + (1 + (rounds - r))) at 1 by lia.
    rewrite seqZ_app by lia. f_equal.
    replace (1 + (r - 1)) with r by lia.
    rewrite (seqZ_cons r) by lia. cbn. do 2 f_equal; lia. }
  assert (Hbefore : length (bracket GenerateUUID tournament n (pow2 rounds) bp pp
                              (seqZ 1 (r - 1)) 0) = roundOffset rounds r).
  { pose proof (length_bracket_rounds GenerateUUID tournament n bp pp rounds
                  (Z.to_nat (r - 1)) ltac:(lia)) as Hlen.
    rewrite Z2Nat.id in Hlen by lia. unfold roundOffset. lia. }
  eexists _, _, _. split.
  { rewrite Hseq, bracket_app. cbn [app bracket]. reflexivity. }
  rewrite Nat.add_0_l, Hbefore. split; [done|]. split; [done|]. split.
  { rewrite length_roundBlock, pow2_quot by lia. done. }
  split.
  - intros m Hm. apply list_elem_of_lookup_1 in Hm as [k Hk].
    destruct (bracket_lookup _ _ _ _ _ _ _ _ _ _ Hk) as (_ & _ & _ & Hin & _).
    apply elem_of_seqZ in Hin. lia.
  - intros m Hm. apply list_elem_of_lookup_1 in Hm as [k Hk].
    destruct (bracket_lookup _ _ _ _ _ _ _ _ _ _ Hk) as (_ & _ & _ & Hin & _).
    apply elem_of_seqZ in Hin. lia.
Qed.

(** The matches of round [r] are those at the positions
    [roundOffset rounds r], ..., one for each of its [roundSize rounds r]
    matches. *)
Lemma indicesOfRound_bracket (r : Z) :
  1 ≤ r ≤ rounds →
  indicesOfRound pre r = seq (roundOffset rounds r) (roundSize rounds r).
Proof.
  intros Hr.
  destruct (bracket_split r Hr)
    as (before & block & after & -> & Hlen & Hblock & Hsize & Hlt & Hgt).
  rewrite !indicesOfRound_app.
  rewrite (indicesOfRound_none before) by (intros m Hm; specialize (Hlt m Hm); lia).
  rewrite (indicesOfRound_none after) by (intros m Hm; specialize (Hgt m Hm); lia).
  rewrite (indicesOfRound_all block).
  - rewrite fmap_nil, app_nil_r, app_nil_l, Hsize, Hlen.
    etrans; [apply (fmap_add_seq (roundOffset rounds r) 0)|].
    by rewrite Nat.add_0_r.
  - intros m Hm. rewrite Hblock in Hm. unfold roundBlock in Hm.
    apply list_elem_of_fmap in Hm as (i & -> & _). done.
Qed.

Lemma indicesOfRound_bracket_outside (r : Z) :
  ¬ 1 ≤ r ≤ rounds → indicesOfRound pre r = [].
Proof.
  intros Hr. apply indicesOfRound_none. intros m Hm Heq.
  apply list_elem_of_lookup_1 in Hm as [k Hk].
  destruct (bracket_lookup _ _ _ _ _ _ _ _ _ _ Hk) as (_ & _ & _ & Hin & _).
  apply elem_of_seqZ in Hin. lia.
Qed.

Lemma roundSize_succ (r : Z) :
  1 ≤ r < rounds → roundSize rounds r = (2 * roundSize rounds (r + 1))%nat.
Proof.
  intros Hr. unfold roundSize, pow2.
  replace (rounds - r) with (Z.succ (rounds - (r + 1))) by lia.
  rewrite Z.pow_succ_r by lia.
  pose proof (Z.pow_pos_nonneg 2 (rounds - (r + 1)) ltac:(lia) ltac:(lia)). lia.
Qed.
End BracketRanges.

(** The generator returns the linked bracket, whose invariant holds. *)
Lemma generateSingleEliminationFixtures_linked (GenerateUUID : nat → string)
    (tournament : Tournament.t) (participants : list Participant.t) :
  let n := Z.of_nat (length participants) in
  let rounds := ceilLog2 n in
  2 ≤ n →
  ∃ bp,
    let pre := bracket GenerateUUID tournament n (pow2 rounds) bp
                 (placeParticipants participants) (seqZ 1 rounds) 0 in
    createBracketPositions (pow2 rounds) = Ret bp ∧
    bp ≡ₚ seqZ 0 (pow2 rounds) ∧
    generateSingleEliminationFixtures GenerateUUID tournament participants
      = Ret (linkBracketProgression pre rounds) ∧
    linked pre (linkBracketProgression pre rounds).
Proof.
  intros n rounds Hn.
  destruct (generateSingleEliminationFixtures_spec GenerateUUID tournament
              participants Hn) as (bp & Hbp & Hperm & Hgen).
  exists bp. intros pre. split; [done|]. split; [done|]. split; [done|].
  apply linkBracketProgression_linked. intros m Hm.
  apply list_elem_of_lookup_1 in Hm as [k Hk].
  by destruct (bracket_lookup _ _ _ _ _ _ _ _ _ _ Hk) as (_ & _ & ? & _).
Qed.

Section LinkedBracket.
Context (GenerateUUID : nat → string) (tournament : Tournament.t).
Context (n rounds : Z) (bp : list Z) (pp : gmap Z Participant.t).
Context (Hrounds : 1 ≤ rounds).

Local Abbreviation pre :=
  (bracket GenerateUUID tournament n (pow2 rounds) bp pp (seqZ 1 rounds) 0).
Local Abbreviation fx := (linkBracketProgression pre rounds).

Context (Hlinked : linked pre fx).

(** The round of the match at a position of the linked bracket. *)
Lemma linked_bracket_round (k : nat) (m : Match.t) :
  fx !! k = Some m →
  1 ≤ Match.RoundNumber m ≤ rounds ∧
  ∃ p : nat, (p < roundSize rounds (Match.RoundNumber m))%nat ∧
             k = (roundOffset rounds (Match.RoundNumber m) + p)%nat.
Proof.
  intros Hk. destruct Hlinked as [Hclear _].
  destruct (clearNext_lookup _ _ _ _ Hclear Hk) as (m0 & Hm0 & Hc).
  destruct (clearNext_fields _ _ Hc) as (_ & Hr & _).
  destruct (bracket_lookup _ _ _ _ _ _ _ _ _ _ Hm0) as (_ & _ & _ & Hin & _).
  apply elem_of_seqZ in Hin. rewrite Hr. split; [lia|].
  assert (Hk' : k ∈ indicesOfRound pre (Match.RoundNumber m0)).
  { apply elem_of_indicesOfRound. by exists m0. }
  rewrite (indicesOfRound_bracket GenerateUUID tournament n rounds bp pp Hrounds)
    in Hk' by lia.
  apply elem_of_seq in Hk'. exists (k - roundOffset rounds (Match.RoundNumber m0))%nat.
  lia.
Qed.

(** Position [p] of a round below the last is linked to position [p / 2] of
    the next round. *)
Lemma linked_bracket_target (r : Z) (p : nat) :
  1 ≤ r < rounds → (p < roundSize rounds r)%nat →
  ∃ m m',
    fx !! (roundOffset rounds r + p)%nat = Some m ∧
    fx !! (roundOffset rounds (r + 1) + p / 2)%nat = Some m' ∧
    Match.RoundNumber m = r ∧ Match.RoundNumber m' = r + 1 ∧
    Match.NextMatchID m = Some (Match.ID m').
Proof.
  intros Hr Hp. destruct Hlinked as [Hclear Hnext].
  pose proof (indicesOfRound_bracket GenerateUUID tournament n rounds bp pp
                Hrounds r ltac:(lia)) as Hcur.
  pose proof (indicesOfRound_bracket GenerateUUID tournament n rounds bp pp
                Hrounds (r + 1) ltac:(lia)) as Hnxt.
  pose proof (roundSize_succ rounds r Hr) as Hsize.
  assert (Hhalf : (p / 2 < roundSize rounds (r + 1))%nat).
  { apply Nat.Div0.div_lt_upper_bound. lia. }
  set (k := (roundOffset rounds r + p)%nat).
  assert (Hkp : indicesOfRound pre r !! p = Some k).
  { rewrite Hcur. by apply lookup_seq_lt. }
  destruct (linkBracketProgression_hasNext pre rounds r p k Hr Hkp)
    as (m & Hm & Hsome).
  { by rewrite Hnxt, length_seq. }
  destruct (clearNext_lookup _ _ _ _ Hclear Hm) as (m0 & Hm0 & Hc).
  destruct (clearNext_fields _ _ Hc) as (_ & Hround & _).
  assert (Hmr : Match.RoundNumber m = r).
  { assert (Hin : k ∈ indicesOfRound pre r) by (by eapply list_elem_of_lookup_2).
    apply elem_of_indicesOfRound in Hin as (m1 & Hm1 & <-). congruence. }
  destruct (Hnext k m Hm) as [Hnone|(p' & q & next & Hp' & Hq & Hnext0 & Hlink)].
  { rewrite Hnone in Hsome. by destruct Hsome. }
  rewrite Hmr in Hp', Hq.
  assert (p' = p) as ->
    by (eapply NoDup_lookup; [apply NoDup_indicesOfRound|done..]).
  rewrite Hnxt in Hq. apply lookup_seq in Hq as [-> _].
  destruct (clearNext_lookup pre fx _ next (eq_sym Hclear) Hnext0)
    as (m' & Hm' & Hc').
  destruct (clearNext_fields _ _ Hc') as (Hid & Hround' & _).
  exists m, m'. split; [done|]. split; [done|]. split; [done|]. split.
  - rewrite <- Hround'.
    assert (Hin : (roundOffset rounds (r + 1) + p / 2)%nat
                  ∈ indicesOfRound pre (r + 1)).
    { rewrite Hnxt. apply elem_of_seq. lia. }
    apply elem_of_indicesOfRound in Hin as (m1 & Hm1 & <-). congruence.
  - by rewrite Hlink, Hid.
Qed.

(** The matches without a link are those of the last round. *)
Lemma linked_bracket_final (m : Match.t) :
  m ∈ fx → Match.NextMatchID m = None ↔ Match.RoundNumber m = rounds.
Proof.
  intros Hm. apply list_elem_of_lookup_1 in Hm as [k Hk].
  destruct (linked_bracket_round k m Hk) as (Hr & p & Hp & ->).
  split.
  - intros Hnone. destruct (decide (Match.RoundNumber m = rounds)) as [|Hne]; [done|].
    destruct (linked_bracket_target (Match.RoundNumber m) p)
      as (m1 & m' & Hm1 & _ & _ & _ & Hlink); [lia|done|].
    congruence.
  - intros Hlast. destruct Hlinked as [_ Hnext].
    destruct (Hnext _ m Hk) as [Hnone|(p' & q & next & _ & Hq & _)]; [done|].
    rewrite Hlast in Hq.
    rewrite (indicesOfRound_bracket_outside GenerateUUID tournament n rounds bp pp)
      in Hq by lia.
    done.
Qed.
End LinkedBracket.

(** X1: in the fixtures of the single-elimination generator, the matches
    of round r are the [2 ^ (rounds - r)] matches after the first
    [2 ^ rounds - 2 ^ (rounds - r + 1)]; below the last round, the match at
    position p of round r is linked to the match at position p / 2 of round
    r + 1; and the matches without a link are exactly those of the last
    round. *)
Theorem single_elimination_links_complete (GenerateUUID : nat → string)
    (tournament : Tournament.t) (participants : list Participant.t) :
  let rounds := ceilLog2 (Z.of_nat (length participants)) in
  (2 ≤ length participants)%nat →
  ∃ fx,
    generateSingleEliminationFixtures GenerateUUID tournament participants = Ret fx ∧
    (∀ (r : Z) (p : nat),
       1 ≤ r < rounds → (p < roundSize rounds r)%nat →
       ∃ m m',
         fx !! (roundOffset rounds r + p)%nat = Some m ∧
         fx !! (roundOffset rounds (r + 1) + p / 2)%nat = Some m' ∧
         Match.RoundNumber m = r ∧ Match.RoundNumber m' = r + 1 ∧
         Match.NextMatchID m = Some (Match.ID m')) ∧
    (∀ m, m ∈ fx → Match.NextMatchID m = None ↔ Match.RoundNumber m = rounds) ∧
    (∀ (k : nat) m, fx !! k = Some m →
       (roundOffset rounds (Match.RoundNumber m) ≤ k
        < roundOffset rounds (Match.RoundNumber m)
          + roundSize rounds (Match.RoundNumber m))%nat).
Proof.
  intros rounds Hn.
  destruct (generateSingleEliminationFixtures_linked GenerateUUID tournament
              participants) as (bp & Hbp & Hperm & Hgen & Hlinked); [lia|].
  pose proof (ceilLog2_pos (Z.of_nat (length participants)) ltac:(lia)) as Hrounds.
  fold rounds in Hbp, Hperm, Hgen, Hlinked, Hrounds.
  eexists. split; [exact Hgen|]. split; [|split].
  - intros r p Hr Hp. by eapply linked_bracket_target.
  - intros m Hm. by eapply linked_bracket_final.
  - intros k m Hk.
    destruct (linked_bracket_round _ _ _ _ _ _ Hrounds Hlinked k m Hk)
      as (_ & p & Hp & ->). lia.
Qed.

Lemma single_elimination_links_complete_witness :
  (2 ≤ length exampleParticipants)%nat ∧
  ∃ fx,
    generateSingleEliminationFixtures exampleUUID exampleTournament exampleParticipants
      = Ret fx ∧
    ∀ m, m ∈ fx → Match.NextMatchID m = None ↔ Match.RoundNumber m = 2.
Proof.
  split; [simpl; lia|].
  destruct (single_elimination_links_complete exampleUUID exampleTournament
              exampleParticipants) as (fx & Hfx & _ & Hfinal & _); [simpl; lia|].
  exists fx. split; [done|]. exact Hfinal.
Defined.

(** *** Every match after round 1 has two feeders *)

Lemma length_filter_ge_1 {A} (P : A → Prop) `{!∀ x, Decision (P x)}
    (l : list A) (i : nat) (x : A) :
  l !! i = Some x → P x → (1 ≤ length (filter P l))%nat.
Proof.
  intros Hi Hx. rewrite <- (take_drop_middle l i x Hi).
  rewrite filter_app, filter_cons_True, length_app by done. cbn. lia.
Qed.

Lemma length_filter_ge_2 {A} (P : A → Prop) `{!∀ x, Decision (P x)}
    (l : list A) (i j : nat) (x y : A) :
  (i < j)%nat → l !! i = Some x → l !! j = Some y → P x → P y →
  (2 ≤ length (filter P l))%nat.
Proof.
  intros Hij Hi Hj Hx Hy. rewrite <- (take_drop_middle l i x Hi).
  rewrite filter_app, filter_cons_True, length_app by done. cbn [length].
  assert (Hj' : drop (S i) l !! (j - S i)%nat = Some y).
  { rewrite lookup_drop. rewrite <- Hj. f_equal. lia. }
  pose proof (length_filter_ge_1 P _ _ _ Hj' Hy). lia.
Qed.

(** X2: in the fixtures of the single-elimination generator every match of
    round 2 or later is the target of exactly two matches, and a match of
    round 1 of none. *)
Theorem single_elimination_two_feeders (GenerateUUID : nat → string)
    (tournament : Tournament.t) (participants : list Participant.t) :
  Inj (=) (=) GenerateUUID →
  (2 ≤ length participants)%nat →
  ∃ fx,
    generateSingleEliminationFixtures GenerateUUID tournament participants = Ret fx ∧
    ∀ m', m' ∈ fx →
      length (filter (λ m, Match.NextMatchID m = Some (Match.ID m')) fx)
      = if decide (Match.RoundNumber m' = 1) then 0%nat else 2%nat.
Proof.
  intros Hinj Hn.
  destruct (generateSingleEliminationFixtures_linked GenerateUUID tournament
              participants) as (bp & Hbp & Hperm & Hgen & Hlinked); [lia|].
  pose proof (ceilLog2_pos (Z.of_nat (length participants)) ltac:(lia)) as Hrounds.
  set (rounds := ceilLog2 (Z.of_nat (length participants))) in *.
  set (pre := bracket _ _ _ _ _ _ _ _) in *.
  assert (Hnodup : NoDup (Match.ID <$> pre)) by (by apply bracket_NoDup_IDs).
  eexists. split; [exact Hgen|]. intros m' Hm'.
  pose proof Hm' as Hin. apply list_elem_of_lookup_1 in Hin as [k' Hk'].
  destruct (linked_bracket_round _ _ _ _ _ _ Hrounds Hlinked k' m' Hk')
    as (Hr' & j & Hj & ->).
  case_decide as Hfirst.
  - apply Nat.le_antisymm; [|lia].
    apply (length_filter_le_indices _ _ []). intros k m Hk Hlink. exfalso.
    destruct (linked_next_round pre _ Hlinked m (Match.ID m'))
      as (m'' & Hm'' & Hid & Hround); [by eapply list_elem_of_lookup_2|done|].
    assert (m'' = m') as -> by (by eapply (linked_unique pre)).
    destruct (linked_bracket_round _ _ _ _ _ _ Hrounds Hlinked k m Hk) as (? & _).
    lia.
  - apply Nat.le_antisymm; [by apply (linked_feeders pre)|].
    set (r := Match.RoundNumber m' - 1).
    assert (Hr : 1 ≤ r < rounds) by (unfold r; lia).
    pose proof (roundSize_succ rounds r Hr) as Hsize.
    replace (r + 1) with (Match.RoundNumber m') in Hsize by (unfold r; lia).
    destruct (linked_bracket_target GenerateUUID tournament _ rounds bp _ Hrounds
                Hlinked r (2 * j)) as (m1 & t1 & Hm1 & Ht1 & _ & _ & Hl1);
      [done|lia|].
    destruct (linked_bracket_target GenerateUUID tournament _ rounds bp _ Hrounds
                Hlinked r (2 * j + 1)) as (m2 & t2 & Hm2 & Ht2 & _ & _ & Hl2);
      [done|lia|].
    replace (r + 1) with (Match.RoundNumber m') in Ht1, Ht2 by (unfold r; lia).
    rewrite (Nat.mul_comm 2 j), Nat.div_mul in Ht1 by lia.
    rewrite (Nat.mul_comm 2 j), Nat.div_add_l in Ht2 by lia.
    change (1 / 2)%nat with 0%nat in Ht2. rewrite Nat.add_0_r in Ht2.
    fold pre in Hm1, Ht1, Hm2, Ht2.
    assert (t1 = m') as -> by congruence.
    assert (t2 = m') as -> by congruence.
    eapply (length_filter_ge_2 _ _ (roundOffset rounds r + 2 * j)
              (roundOffset rounds r + (2 * j + 1))); [lia|done..].
Qed.

Lemma single_elimination_two_feeders_witness :
  Inj (=) (=) exampleUUID ∧
  (2 ≤ length exampleParticipants)%nat ∧
  ∃ fx,
    generateSingleEliminationFixtures exampleUUID exampleTournament exampleParticipants
      = Ret fx ∧
    ∀ m', m' ∈ fx →
      length (filter (λ m, Match.NextMatchID m = Some (Match.ID m')) fx)
      = if decide (Match.RoundNumber m' = 1) then 0%nat else 2%nat.
Proof.
  split; [unfold exampleUUID; apply _|]. split; [simpl; lia|].
  apply single_elimination_two_feeders; [unfold exampleUUID; apply _|simpl; lia].
Defined.

(** *** The shape of every fixture *)

Section FixtureShape.
Context (GenerateUUID : nat → string) (tournament : Tournament.t).
Context (n rounds : Z) (bp : list Z) (pp : gmap Z Participant.t).
Context (Hrounds : 1 ≤ rounds).

Local Abbreviation pre :=
  (bracket GenerateUUID tournament n (pow2 rounds) bp pp (seqZ 1 rounds) 0).
Local Abbreviation fx := (linkBracketProgression pre rounds).

Lemma roundOffset_mono (r r' : Z) :
  1 ≤ r ≤ r' → r' ≤ rounds + 1 →
  (roundOffset rounds r ≤ roundOffset rounds r')%nat.
Proof.
  intros Hr Hr'. unfold roundOffset.
  assert (pow2 (rounds - (r' - 1)) ≤ pow2 (rounds - (r - 1)))
    by (unfold pow2; apply Z.pow_le_mono_r; lia).
  lia.
Qed.

Lemma bracket_at (r : Z) (p : nat) :
  1 ≤ r ≤ rounds → (p < roundSize rounds r)%nat →
  pre !! (roundOffset rounds r + p)%nat
  = Some (roundMatch GenerateUUID tournament n bp pp r (roundOffset rounds r) p).
Proof.
  intros Hr Hp.
  destruct (bracket_split GenerateUUID tournament n rounds bp pp Hrounds r Hr)
    as (before & block & after & Hpre & Hlb & Hblock & Hlen & _).
  rewrite Hpre, lookup_app_r by lia.
  replace (roundOffset rounds r + p - length before)%nat with p by lia.
  rewrite lookup_app_l by lia.
  rewrite Hblock in Hlen |- *. rewrite length_roundBlock in Hlen.
  unfold roundBlock. rewrite list_lookup_fmap, lookup_seq_lt by lia. done.
Qed.

Context (Hlinked : linked pre fx).

Lemma length_fixtures : Z.of_nat (length fx) = pow2 rounds - 1.
Proof.
  destruct Hlinked as [Hclear _].
  assert (length fx = length pre) as ->
    by (by rewrite <- (length_fmap clearNext), Hclear, length_fmap).
  pose proof (length_bracket_rounds GenerateUUID tournament n bp pp rounds
                (Z.to_nat rounds)) as Hlen.
  rewrite Z2Nat.id in Hlen by lia. rewrite Hlen by lia.
  by rewrite Z.sub_diag.
Qed.

(** Position [p] of round [r] holds the match the round loop built there,
    up to its link. *)
Lemma fixture_at (r : Z) (p : nat) :
  1 ≤ r ≤ rounds → (p < roundSize rounds r)%nat →
  ∃ m, fx !! (roundOffset rounds r + p)%nat = Some m ∧
       clearNext m
       = roundMatch GenerateUUID tournament n bp pp r (roundOffset rounds r) p.
Proof.
  intros Hr Hp. destruct Hlinked as [Hclear _].
  destruct (clearNext_lookup pre fx _ _ (eq_sym Hclear) (bracket_at r p Hr Hp))
    as (m & Hm & Hc).
  exists m. split; [done|]. by rewrite <- Hc.
Qed.

Lemma fixture_lookup (k : nat) (m : Match.t) :
  fx !! k = Some m →
  ∃ (r : Z) (p : nat),
    1 ≤ r ≤ rounds ∧ (p < roundSize rounds r)%nat ∧
    k = (roundOffset rounds r + p)%nat ∧
    Match.RoundNumber m = r ∧
    clearNext m
    = roundMatch GenerateUUID tournament n bp pp r (roundOffset rounds r) p.
Proof.
  intros Hk.
  destruct (linked_bracket_round GenerateUUID tournament n rounds bp pp Hrounds
              Hlinked k m Hk) as (Hr & p & Hp & Hkp).
  exists (Match.RoundNumber m), p. split; [done|]. split; [done|].
  split; [done|]. split; [done|].
  destruct (fixture_at _ p Hr Hp) as (m' & Hm' & Hc).
  rewrite <- Hkp in Hm'. congruence.
Qed.

(** The first-round matches are the first [2 ^ (rounds - 1)] fixtures. *)
Lemma fixture_first_round (k : nat) (m : Match.t) :
  fx !! k = Some m → Match.RoundNumber m = 1 ↔ (k < roundSize rounds 1)%nat.
Proof.
  intros Hk. destruct (fixture_lookup k m Hk) as (r & p & Hr & Hp & -> & -> & _).
  split.
  - intros ->. rewrite roundOffset_1. lia.
  - intros Hlt. destruct (decide (r = 1)) as [|Hne]; [done|].
    pose proof (roundOffset_mono 2 r ltac:(lia) ltac:(lia)) as Hmono.
    change 2 with (1 + 1) in Hmono.
    rewrite roundOffset_succ, roundOffset_1 in Hmono by lia. lia.
Qed.
End FixtureShape.

Lemma clearNext_static (m m' : Match.t) :
  clearNext m = m' →
  Match.ID m = Match.ID m' ∧ Match.TournamentID m = Match.TournamentID m' ∧
  Match.RoundNumber m = Match.RoundNumber m' ∧
  Match.MatchNumber m = Match.MatchNumber m' ∧ Match.Stage m = Match.Stage m' ∧
  Match.Participant1ID m = Match.Participant1ID m' ∧
  Match.Participant2ID m = Match.Participant2ID m' ∧
  Match.Status m = Match.Status m'.
Proof. by intros <-. Qed.

(** X3: the single-elimination generator numbers its matches 1, 2, ... in
    list order, gives the k-th match the k-th identifier drawn, the
    tournament's identifier, the stage "main" and the status pending, and
    lists the rounds in non-decreasing order. *)
Theorem single_elimination_numbering (GenerateUUID : nat → string)
    (tournament : Tournament.t) (participants : list Participant.t) :
  (2 ≤ length participants)%nat →
  ∃ fx,
    generateSingleEliminationFixtures GenerateUUID tournament participants = Ret fx ∧
    (∀ (k : nat) m, fx !! k = Some m →
       Match.ID m = GenerateUUID k ∧
       Match.MatchNumber m = Z.of_nat k + 1 ∧
       Match.TournamentID m = Tournament.ID tournament ∧
       Match.Stage m = "main" ∧
       Match.Status m = MatchPending) ∧
    (∀ (i j : nat) mi mj, fx !! i = Some mi → fx !! j = Some mj → (i ≤ j)%nat →
       Match.RoundNumber mi ≤ Match.RoundNumber mj).
Proof.
  intros Hn.
  destruct (generateSingleEliminationFixtures_linked GenerateUUID tournament
              participants) as (bp & Hbp & Hperm & Hgen & Hlinked); [lia|].
  pose proof (ceilLog2_pos (Z.of_nat (length participants)) ltac:(lia)) as Hrounds.
  set (rounds := ceilLog2 _) in *.
  eexists. split; [exact Hgen|]. split.
  - intros k m Hk.
    destruct (fixture_lookup _ _ _ _ _ _ Hrounds Hlinked k m Hk)
      as (r & p & Hr & Hp & -> & _ & Hc).
    apply clearNext_static in Hc as (-> & -> & _ & -> & -> & _ & _ & ->).
    done.
  - intros i j mi mj Hi Hj Hij.
    destruct (fixture_lookup _ _ _ _ _ _ Hrounds Hlinked i mi Hi)
      as (ri & pi & Hri & Hpi & -> & -> & _).
    destruct (fixture_lookup _ _ _ _ _ _ Hrounds Hlinked j mj Hj)
      as (rj & pj & Hrj & Hpj & -> & -> & _).
    destruct (decide (ri ≤ rj)) as [|Hgt]; [done|].
    pose proof (roundOffset_mono rounds (rj + 1) ri ltac:(lia) ltac:(lia)) as Hmono.
    rewrite roundOffset_succ in Hmono by lia. lia.
Qed.

Lemma single_elimination_numbering_witness :
  (2 ≤ length exampleParticipants)%nat ∧
  ∃ fx,
    generateSingleEliminationFixtures exampleUUID exampleTournament exampleParticipants
      = Ret fx ∧
    ∀ (k : nat) m, fx !! k = Some m → Match.MatchNumber m = Z.of_nat k + 1.
Proof.
  split; [simpl; lia|].
  destruct (single_elimination_numbering exampleUUID exampleTournament
              exampleParticipants) as (fx & Hfx & Hnum & _); [simpl; lia|].
  exists fx. split; [done|]. intros k m Hk. by destruct (Hnum k m Hk) as (_ & ? & _).
Defined.

(** *** The slots of the first round *)

Lemma filter_prefix {A} (P : A → Prop) `{!∀ x, Decision (P x)} (l : list A) (c : nat) :
  (∀ (k : nat) x, l !! k = Some x → P x ↔ (k < c)%nat) →
  filter P l = take c l.
Proof.
  revert c. induction l as [|x l IH]; intros c Hc; [by destruct c|].
  rewrite filter_cons. destruct c as [|c].
  - rewrite decide_False by (rewrite (Hc 0%nat x eq_refl); lia).
    rewrite (IH 0%nat); [by destruct l|].
    intros k y Hk. rewrite (Hc (S k) y Hk). lia.
  - rewrite decide_True by (rewrite (Hc 0%nat x eq_refl); lia).
    cbn [take]. f_equal. apply IH.
    intros k y Hk. rewrite (Hc (S k) y Hk). lia.
Qed.

Lemma bind_pairs_eq {A B} (g1 g2 : A → B) (l : list A) :
  ∀ l' : list B,
    length l' = (2 * length l)%nat →
    (∀ (i : nat) x, l !! i = Some x →
       l' !! (2 * i)%nat = Some (g1 x) ∧ l' !! (2 * i + 1)%nat = Some (g2 x)) →
    l ≫= (λ x, [g1 x; g2 x]) = l'.
Proof.
  induction l as [|x l IH]; intros l' Hlen Hl'.
  { by destruct l'. }
  destruct l' as [|a [|b l']]; [cbn in Hlen; lia..|].
  destruct (Hl' 0%nat x eq_refl) as [[= ->] [= ->]].
  rewrite bind_cons. cbn [app]. do 2 f_equal. apply IH.
  - cbn in Hlen. lia.
  - intros i y Hi. destruct (Hl' (S i) y Hi) as [H1 H2].
    replace (2 * S i)%nat with (S (S (2 * i))) in H1 by lia.
    replace (2 * S i + 1)%nat with (S (S (2 * i + 1))) in H2 by lia.
    done.
Qed.

Lemma firstRoundSlots_bracket (GenerateUUID : nat → string) (tournament : Tournament.t)
    (n rounds : Z) (bp : list Z) (pp : gmap Z Participant.t) :
  let pre := bracket GenerateUUID tournament n (pow2 rounds) bp pp (seqZ 1 rounds) 0 in
  1 ≤ rounds → linked pre (linkBracketProgression pre rounds) →
  length bp = Z.to_nat (pow2 rounds) →
  firstRoundSlots (linkBracketProgression pre rounds) = firstRoundSlot pp n <$> bp.
Proof.
  intros pre Hrounds Hlinked Hlen. subst pre. unfold firstRoundSlots.
  pose proof (length_fixtures GenerateUUID tournament n rounds bp pp Hrounds Hlinked)
    as Hfx.
  assert (Hhalf : pow2 rounds = 2 * pow2 (rounds - 1)).
  { unfold pow2. replace rounds with (Z.succ (rounds - 1)) at 1 by lia.
    by rewrite Z.pow_succ_r by lia. }
  pose proof (pow2_pos (rounds - 1) ltac:(lia)) as Hpos.
  rewrite (filter_prefix _ _ (roundSize rounds 1)).
  2:{ intros k m Hk. by eapply fixture_first_round. }
  apply bind_pairs_eq.
  - rewrite length_fmap, length_take_le, Hlen by (unfold roundSize; lia).
    unfold roundSize. lia.
  - intros i m Hi. apply lookup_take_Some in Hi as [Hi Hlt].
    destruct (fixture_at GenerateUUID tournament n rounds bp pp Hrounds Hlinked 1 i)
      as (m' & Hm' & Hc); [lia|done|].
    rewrite roundOffset_1 in Hm'. cbn [Nat.add] in Hm'.
    assert (m' = m) as -> by congruence.
    apply clearNext_static in Hc as (_ & _ & _ & _ & _ & -> & -> & _).
    cbn [roundMatch Match.Participant1ID Match.Participant2ID].
    rewrite !decide_True by done. rewrite !list_lookup_fmap.
    unfold roundSize in Hlt.
    rewrite !list_lookup_lookup_total_lt by lia. done.
Qed.

(** With the seeds 1 to n, the slots for the positions 0 to [t - 1]
    hold every participant once and [t - n] times nothing. *)
Lemma firstRoundSlot_seeded_all (ps : list Participant.t) (t : Z) :
  let n := Z.of_nat (length ps) in
  Participant.Seed <$> ps ≡ₚ Some <$> seqZ 1 n → n ≤ t →
  firstRoundSlot (placeParticipants ps) n <$> seqZ 0 t
  ≡ₚ (Some ∘ Participant.ID <$> ps) ++ replicate (Z.to_nat (t - n)) None.
Proof.
  intros n Hperm Ht. subst n.
  replace t with (Z.of_nat (length ps) + (t - Z.of_nat (length ps))) at 1 by lia.
  rewrite seqZ_app, fmap_app by lia. f_equiv.
  - set (g := λ p, default 0 (Participant.Seed p) - 1).
    assert (Hg : g <$> ps ≡ₚ seqZ 0 (Z.of_nat (length ps))).
    { transitivity ((λ o : option Z, default 0 o - 1) <$> (Participant.Seed <$> ps)).
      { by rewrite <- list_fmap_compose. }
      rewrite Hperm, <- list_fmap_compose.
      change (seqZ 0) with (seqZ (-1 + 1)).
      rewrite <- (fmap_add_seqZ (-1) 1). apply reflexive_eq.
      apply list_fmap_ext. intros i x _. cbn. lia. }
    rewrite <- Hg, <- list_fmap_compose. apply reflexive_eq.
    apply list_fmap_ext. intros i p Hp. cbn.
    apply list_elem_of_lookup_2 in Hp.
    assert (Hin : Participant.Seed p ∈ Participant.Seed <$> ps)
      by (apply list_elem_of_fmap; eauto).
    rewrite Hperm in Hin. apply list_elem_of_fmap in Hin as (s & Hs & Hrange).
    apply elem_of_seqZ in Hrange. unfold g. rewrite Hs. cbn.
    destruct (firstRoundSlot_seeded ps (s - 1) Hperm ltac:(lia)) as [Hlt _].
    destruct Hlt as (q & Hq & Hseed & ->); [lia|].
    replace (s - 1 + 1) with s in Hseed by lia.
    assert (q = p) as ->; [|done].
    assert (Hnd : NoDup (Participant.Seed <$> ps)).
    { rewrite Hperm. apply NoDup_fmap_2; [apply _|apply NoDup_seqZ]. }
    apply list_elem_of_lookup_1 in Hq as [j Hj].
    apply list_elem_of_lookup_1 in Hp as [j' Hj'].
    assert (j = j').
    { apply (NoDup_lookup _ j j' (Some s) Hnd);
        rewrite list_lookup_fmap; [rewrite Hj|rewrite Hj']; cbn; congruence. }
    congruence.
  - symmetry. apply reflexive_eq, replicate_as_Forall. split.
    { rewrite length_fmap, length_seqZ. done. }
    apply Forall_fmap, Forall_forall. intros pos Hpos. cbn.
    apply elem_of_seqZ in Hpos.
    destruct (firstRoundSlot_seeded ps pos Hperm ltac:(lia)) as [_ Hge].
    symmetry. apply Hge. lia.
Qed.

Lemma ceilLog2_bounds (n : Z) :
  2 ≤ n → pow2 (ceilLog2 n - 1) < n ≤ pow2 (ceilLog2 n).
Proof.
  intros Hn. unfold pow2, ceilLog2.
  pose proof (Z.log2_up_spec n ltac:(lia)) as H.
  by rewrite <- Z.sub_1_r in H.
Qed.

Lemma generateSingleEliminationFixtures_slots (GenerateUUID : nat → string)
    (tournament : Tournament.t) (participants : list Participant.t) :
  let n := Z.of_nat (length participants) in
  2 ≤ n →
  Participant.Seed <$> participants ≡ₚ Some <$> seqZ 1 n →
  ∃ fx,
    generateSingleEliminationFixtures GenerateUUID tournament participants = Ret fx ∧
    firstRoundSlots fx
    ≡ₚ (Some ∘ Participant.ID <$> participants)
       ++ replicate (Z.to_nat (2 ^ ceilLog2 n - n)) None.
Proof.
  intros n Hn Hseeds.
  destruct (generateSingleEliminationFixtures_linked GenerateUUID tournament
              participants Hn) as (bp & Hbp & Hperm & Hgen & Hlinked).
  pose proof (ceilLog2_pos n Hn) as Hrounds.
  pose proof (ceilLog2_bounds n Hn) as Hbounds.
  fold n in Hperm, Hgen, Hlinked.
  eexists. split; [exact Hgen|].
  rewrite firstRoundSlots_bracket; [|done|done|by rewrite Hperm, length_seqZ].
  rewrite Hperm. apply (firstRoundSlot_seeded_all participants); [done|].
  apply Hbounds.
Qed.

(** X4: with the seeds 1 to n, the participant slots of the first round
    hold every participant exactly once; the other [2 ^ rounds - n] slots
    are empty. *)
Theorem single_elimination_first_round_slots (GenerateUUID : nat → string)
    (tournament : Tournament.t) (participants : list Participant.t) :
  let n := Z.of_nat (length participants) in
  2 ≤ n →
  Participant.Seed <$> participants ≡ₚ Some <$> seqZ 1 n →
  ∃ fx,
    generateSingleEliminationFixtures GenerateUUID tournament participants = Ret fx ∧
    firstRoundSlots fx
    ≡ₚ (Some ∘ Participant.ID <$> participants)
       ++ replicate (Z.to_nat (2 ^ ceilLog2 n - n)) None.
Proof. apply generateSingleEliminationFixtures_slots. Qed.

Lemma single_elimination_first_round_slots_witness :
  2 ≤ Z.of_nat (length exampleParticipants) ∧
  Participant.Seed <$> exampleParticipants
    ≡ₚ Some <$> seqZ 1 (Z.of_nat (length exampleParticipants)) ∧
  ∃ fx,
    generateSingleEliminationFixtures exampleUUID exampleTournament exampleParticipants
      = Ret fx ∧
    firstRoundSlots fx ≡ₚ [Some "a"; Some "b"; Some "c"; None].
Proof.
  split; [simpl; lia|]. split; [reflexivity|].
  destruct (single_elimination_first_round_slots exampleUUID exampleTournament
              exampleParticipants) as (fx & Hfx & Hslots);
    [simpl; lia | reflexivity |].
  exists fx. split; [done|]. exact Hslots.
Defined.

(** X5: for n >= 2 participants the single-elimination generator returns
    between n - 1 and 2n - 3 matches, and n - 1 exactly when n is a power of
    two; in that case, with the seeds 1 to n, no first-round slot is
    empty. *)
Theorem single_elimination_match_count (GenerateUUID : nat → string)
    (tournament : Tournament.t) (participants : list Participant.t) :
  let n := Z.of_nat (length participants) in
  2 ≤ n →
  ∃ fx,
    generateSingleEliminationFixtures GenerateUUID tournament participants = Ret fx ∧
    n - 1 ≤ Z.of_nat (length fx) ≤ 2 * n - 3 ∧
    (Z.of_nat (length fx) = n - 1 ↔ validSize n) ∧
    (validSize n → Participant.Seed <$> participants ≡ₚ Some <$> seqZ 1 n →
     Forall is_Some (firstRoundSlots fx)).
Proof.
  intros n Hn.
  destruct (generateSingleEliminationFixtures_linked GenerateUUID tournament
              participants Hn) as (bp & Hbp & Hperm & Hgen & Hlinked).
  pose proof (ceilLog2_pos n Hn) as Hrounds.
  pose proof (ceilLog2_bounds n Hn) as Hbounds.
  fold n in Hperm, Hgen, Hlinked.
  pose proof (length_fixtures GenerateUUID tournament n (ceilLog2 n) bp
                (placeParticipants participants) Hrounds Hlinked) as Hlen.
  assert (Hhalf : pow2 (ceilLog2 n) = 2 * pow2 (ceilLog2 n - 1)).
  { unfold pow2. replace (ceilLog2 n) with (Z.succ (ceilLog2 n - 1)) at 1 by lia.
    by rewrite Z.pow_succ_r by lia. }
  assert (Hvalid : validSize n ↔ n = pow2 (ceilLog2 n)).
  { split.
    - intros (k & Hk & ->). unfold ceilLog2, pow2.
      by rewrite Z.log2_up_pow2 by lia.
    - intros Heq. exists (ceilLog2 n). split; [done|exact Heq]. }
  eexists. split; [exact Hgen|]. rewrite Hlen. split; [lia|]. split.
  - rewrite Hvalid. lia.
  - intros Hpow Hseeds. apply Hvalid in Hpow.
    rewrite firstRoundSlots_bracket; [|done|done|by rewrite Hperm, length_seqZ].
    rewrite Hperm. subst n.
    rewrite (firstRoundSlot_seeded_all participants) by (done || lia).
    rewrite <- Hpow, Z.sub_diag. cbn [Z.to_nat replicate].
    rewrite app_nil_r. apply Forall_fmap, Forall_forall. intros p _. by eexists.
Qed.

Lemma single_elimination_match_count_witness :
  2 ≤ Z.of_nat (length examplePair) ∧
  ∃ fx,
    generateSingleEliminationFixtures exampleUUID exampleTournament examplePair
      = Ret fx ∧
    length fx = 1%nat ∧ Forall is_Some (firstRoundSlots fx).
Proof.
  split; [simpl; lia|].
  destruct (single_elimination_match_count exampleUUID exampleTournament examplePair)
    as (fx & Hfx & Hlen & _ & Hfull); [simpl; lia|].
  exists fx. split; [done|]. split; [simpl in Hlen; lia|].
  apply Hfull; [exists 1; split; [lia|reflexivity]|reflexivity].
Defined.

(** *** Participants without seeds *)

Lemma placeParticipants_unseeded (ps : list Participant.t) :
  Forall (λ p, Participant.Seed p = None) ps →
  ∀ pos, placeParticipants ps !! pos
         = if decide (0 ≤ pos) then ps !! Z.to_nat pos else None.
Proof.
  induction ps as [|x ps IH] using rev_ind; intros Hnone pos.
  { cbn. rewrite lookup_empty. by case_decide. }
  apply Forall_app in Hnone as [Hnone Hx]. rewrite Forall_singleton in Hx.
  rewrite placeParticipants_snoc. unfold placeStep. cbn [fst snd]. rewrite Hx.
  destruct (decide (Z.of_nat (length ps) = pos)) as [<-|Hne].
  - rewrite lookup_insert_eq, decide_True, Nat2Z.id by lia.
    by rewrite lookup_app_r, Nat.sub_diag by lia.
  - rewrite lookup_insert_ne, IH by done. case_decide; [|done].
    destruct (decide (Z.to_nat pos < length ps)%nat).
    + by rewrite lookup_app_l by lia.
    + rewrite !lookup_ge_None_2; [done|rewrite length_app; cbn; lia|lia].
Qed.

(** X6: when no participant carries a seed, the participants take the
    bracket positions in list order: the slot for position [pos] holds the
    participant at index [pos], and is empty from position n on. *)
Theorem single_elimination_unseeded (GenerateUUID : nat → string)
    (tournament : Tournament.t) (participants : list Participant.t) :
  let n := Z.of_nat (length participants) in
  2 ≤ n →
  Forall (λ p, Participant.Seed p = None) participants →
  ∃ fx bp,
    generateSingleEliminationFixtures GenerateUUID tournament participants = Ret fx ∧
    createBracketPositions (pow2 (ceilLog2 n)) = Ret bp ∧
    firstRoundSlots fx
    = (λ pos, Participant.ID <$> participants !! Z.to_nat pos) <$> bp.
Proof.
  intros n Hn Hnone.
  destruct (generateSingleEliminationFixtures_linked GenerateUUID tournament
              participants Hn) as (bp & Hbp & Hperm & Hgen & Hlinked).
  pose proof (ceilLog2_pos n Hn) as Hrounds.
  fold n in Hperm, Hgen, Hlinked, Hbp.
  eexists _, bp. split; [exact Hgen|]. split; [done|].
  rewrite firstRoundSlots_bracket; [|done|done|by rewrite Hperm, length_seqZ].
  apply list_fmap_ext. intros i pos Hpos. apply list_elem_of_lookup_2 in Hpos.
  rewrite Hperm in Hpos. apply elem_of_seqZ in Hpos.
  unfold firstRoundSlot. rewrite placeParticipants_unseeded by done.
  rewrite decide_True by lia.
  destruct (participants !! Z.to_nat pos) as [p|] eqn:Hp; [|done].
  apply lookup_lt_Some in Hp. rewrite decide_True by lia. done.
Qed.

Lemma single_elimination_unseeded_witness :
  2 ≤ Z.of_nat (length exampleUnseeded) ∧
  Forall (λ p, Participant.Seed p = None) exampleUnseeded ∧
  ∃ fx,
    generateSingleEliminationFixtures exampleUUID exampleTournament exampleUnseeded
      = Ret fx ∧
    firstRoundSlots fx = [Some "a"; Some "b"].
Proof.
  split; [simpl; lia|]. split; [by repeat constructor|].
  destruct (single_elimination_unseeded exampleUUID exampleTournament exampleUnseeded)
    as (fx & bp & Hfx & Hbp & Hslots); [simpl; lia|by repeat constructor|].
  exists fx. split; [done|]. rewrite Hslots.
  vm_compute in Hbp. injection Hbp as <-. reflexivity.
Defined.

(** *** The two halves of the bracket *)

Lemma createBracketPositions_halves (k : nat) :
  ∃ l, createBracketPositions_fuel (S k) (2 ^ Z.of_nat (S k)) = Ret l ∧
       l ≡ₚ seqZ 0 (2 ^ Z.of_nat (S k)) ∧
       l !! Z.to_nat (2 ^ Z.of_nat k) = Some 1 ∧
       ∀ (i : nat) a b,
         l !! (2 * i)%nat = Some a → l !! (2 * i + 1)%nat = Some b →
         a < 2 ^ Z.of_nat k ≤ b.
Proof.
  induction k as [|k (left & Hleft & Hpl & H1 & Hpairs)].
  { exists [0; 1]. split; [done|]. split; [done|]. split; [done|].
    intros [|i] a b.
    - cbn. intros [= <-] [= <-]. lia.
    - rewrite lookup_ge_None_2 by (cbn; lia). done. }
  destruct (createBracketPositions_pow2 (S k)) as (l & Hl & Hperm).
  exists l. split; [done|]. split; [done|].
  assert (Hpow : 2 ^ Z.of_nat (S (S k)) = 2 * 2 ^ Z.of_nat (S k)).
  { rewrite (Nat2Z.inj_succ (S k)), Z.pow_succ_r by lia. done. }
  assert (Hpow' : 2 ^ Z.of_nat (S k) = 2 * 2 ^ Z.of_nat k).
  { rewrite (Nat2Z.inj_succ k), Z.pow_succ_r by lia. done. }
  assert (Hpos : 0 < 2 ^ Z.of_nat k) by (apply Z.pow_pos_nonneg; lia).
  destruct (createBracketPositions_fuel_inv _ _ _ Hl ltac:(lia))
    as (left' & Hleft' & _ & Hlen & ->).
  assert (Hq : 2 ^ Z.of_nat (S (S k)) `quot` 2 = 2 ^ Z.of_nat (S k)).
  { rewrite Hpow. Z.to_euclidean_division_equations. lia. }
  rewrite Hq in Hleft', Hlen. rewrite Hleft in Hleft'. injection Hleft' as <-.
  replace (Z.to_nat (2 ^ Z.of_nat (S (S k))) - 2 * length left)%nat with 0%nat by lia.
  cbn [replicate]. rewrite app_nil_r.
  assert (Hrange : ∀ j : nat, (j < length left)%nat →
            0 ≤ left !!! j < 2 ^ Z.of_nat (S k)).
  { intros j Hj. pose proof (list_lookup_lookup_total_lt left j Hj) as Hin.
    apply list_elem_of_lookup_2 in Hin.
    generalize dependent (left !!! j). intros x Hin. rewrite Hpl in Hin.
    apply elem_of_seqZ in Hin. lia. }
  split.
  - replace (Z.to_nat (2 ^ Z.of_nat (S k))) with (2 * Z.to_nat (2 ^ Z.of_nat k))%nat
      by lia.
    destruct (interleaved_lookup (length left) left left (Z.to_nat (2 ^ Z.of_nat k)))
      as [-> _]; [lia|].
    f_equal. by apply list_lookup_total_correct.
  - intros i a b Ha Hb.
    assert (Hi : (i < length left)%nat).
    { apply lookup_lt_Some in Hb. rewrite length_interleaved in Hb. lia. }
    destruct (interleaved_lookup (length left) left left i Hi) as [Ha' Hb'].
    rewrite Ha' in Ha. rewrite Hb' in Hb. injection Ha as <-. injection Hb as <-.
    pose proof (Hrange i Hi).
    pose proof (Hrange (length left - 1 - i)%nat ltac:(lia)). lia.
Qed.

(** The sequence for a valid size: a permutation that starts with 0, has 1
    at the start of its second half and pairs a slot number of the lower
    half with one of the upper half. *)
Lemma createBracketPositions_valid (k : Z) :
  1 ≤ k →
  ∃ l, createBracketPositions (2 ^ k) = Ret l ∧
       l ≡ₚ seqZ 0 (2 ^ k) ∧
       l !! 0%nat = Some 0 ∧
       l !! Z.to_nat (2 ^ (k - 1)) = Some 1 ∧
       ∀ (i : nat) a b,
         l !! (2 * i)%nat = Some a → l !! (2 * i + 1)%nat = Some b →
         0 ≤ a < 2 ^ (k - 1) ∧ 2 ^ (k - 1) ≤ b < 2 ^ k.
Proof.
  intros Hk.
  destruct (createBracketPositions_halves (Z.to_nat (k - 1)))
    as (l & Hl & Hperm & H1 & Hpairs).
  replace (S (Z.to_nat (k - 1))) with (Z.to_nat k) in Hl, Hperm by lia.
  rewrite Z2Nat.id in Hl, Hperm, H1, Hpairs by lia.
  destruct (createBracketPositions_fuel_facts _ _ _ Hl) as (_ & _ & H0).
  exists l. split; [by eapply createBracketPositions_fuel_enough|].
  split; [done|]. split; [done|]. split; [done|].
  intros i a b Ha Hb. pose proof (Hpairs i a b Ha Hb).
  apply list_elem_of_lookup_2 in Ha, Hb. rewrite Hperm in Ha, Hb.
  apply elem_of_seqZ in Ha, Hb. lia.
Qed.

(** X7: on a valid size the bracket position generator puts position 0
    (the top seed) in the first slot and position 1 (the second seed) in the
    first slot of the second half, and every pair of slots (2i, 2i + 1), one
    first-round match, takes its first position from the lower half of the
    positions and its second from the upper half. *)
Theorem createBracketPositions_seed_halves (size : Z) :
  validSize size →
  ∃ l, createBracketPositions size = Ret l ∧
       l !! 0%nat = Some 0 ∧
       l !! Z.to_nat (size `quot` 2) = Some 1 ∧
       ∀ (i : nat) a b,
         l !! (2 * i)%nat = Some a → l !! (2 * i + 1)%nat = Some b →
         0 ≤ a < size `quot` 2 ∧ size `quot` 2 ≤ b < size.
Proof.
  intros (k & Hk & ->).
  destruct (createBracketPositions_valid k Hk) as (l & Hl & _ & H0 & H1 & Hpairs).
  assert (Hq : 2 ^ k `quot` 2 = 2 ^ (k - 1)).
  { replace k with (Z.succ (k - 1)) at 1 by lia. rewrite Z.pow_succ_r by lia.
    pose proof (Z.pow_pos_nonneg 2 (k - 1) ltac:(lia) ltac:(lia)).
    Z.to_euclidean_division_equations. lia. }
  exists l. rewrite Hq. done.
Qed.

Lemma createBracketPositions_seed_halves_witness :
  validSize 8 ∧
  ∃ l, createBracketPositions 8 = Ret l ∧ l !! 0%nat = Some 0 ∧ l !! 4%nat = Some 1.
Proof.
  assert (Hv : validSize 8) by (exists 3; split; [lia|reflexivity]).
  split; [exact Hv|].
  destruct (createBracketPositions_seed_halves 8 Hv) as (l & Hl & H0 & H1 & _).
  exists l. split; [done|]. split; [done|]. exact H1.
Defined.

(** X8: with the seeds 1 to n, every first-round match of the
    single-elimination fixtures has its first participant (a bye can only be
    the second slot, so no match is between two byes), and the first
    participant of the first match is the top seed. *)
Theorem single_elimination_first_slot (GenerateUUID : nat → string)
    (tournament : Tournament.t) (participants : list Participant.t) :
  let n := Z.of_nat (length participants) in
  2 ≤ n →
  Participant.Seed <$> participants ≡ₚ Some <$> seqZ 1 n →
  ∃ fx,
    generateSingleEliminationFixtures GenerateUUID tournament participants = Ret fx ∧
    (∀ m, m ∈ fx → Match.RoundNumber m = 1 → is_Some (Match.Participant1ID m)) ∧
    (∃ m p, fx !! 0%nat = Some m ∧ p ∈ participants ∧
            Participant.Seed p = Some 1 ∧
            Match.Participant1ID m = Some (Participant.ID p)).
Proof.
  intros n Hn Hseeds.
  destruct (generateSingleEliminationFixtures_linked GenerateUUID tournament
              participants Hn) as (bp & Hbp & Hperm & Hgen & Hlinked).
  pose proof (ceilLog2_pos n Hn) as Hrounds.
  pose proof (ceilLog2_bounds n Hn) as Hbounds.
  fold n in Hbp, Hperm, Hgen, Hlinked.
  destruct (createBracketPositions_valid (ceilLog2 n) Hrounds)
    as (bp' & Hbp' & _ & H0 & _ & Hpairs).
  assert (bp' = bp) as -> by (unfold pow2 in Hbp; congruence).
  assert (Hlen : length bp = Z.to_nat (pow2 (ceilLog2 n)))
    by (by rewrite Hperm, length_seqZ).
  assert (Hhalf : pow2 (ceilLog2 n) = 2 * pow2 (ceilLog2 n - 1)).
  { unfold pow2. replace (ceilLog2 n) with (Z.succ (ceilLog2 n - 1)) at 1 by lia.
    by rewrite Z.pow_succ_r by lia. }
  pose proof (pow2_pos (ceilLog2 n - 1) ltac:(lia)) as Hpos.
  (* the first slot of the match at position p of round 1 *)
  assert (Hslot : ∀ p : nat, (p < roundSize (ceilLog2 n) 1)%nat →
    ∃ m a q, linkBracketProgression
               (bracket GenerateUUID tournament n (pow2 (ceilLog2 n)) bp
                  (placeParticipants participants) (seqZ 1 (ceilLog2 n)) 0)
               (ceilLog2 n) !! p = Some m ∧
             bp !! (2 * p)%nat = Some a ∧ q ∈ participants ∧
             Participant.Seed q = Some (a + 1) ∧
             Match.Participant1ID m = Some (Participant.ID q)).
  { intros p Hp.
    destruct (fixture_at GenerateUUID tournament n _ bp _ Hrounds Hlinked 1 p)
      as (m & Hm & Hc); [lia|done|].
    rewrite roundOffset_1 in Hm. cbn [Nat.add] in Hm.
    apply clearNext_static in Hc as (_ & _ & _ & _ & _ & Hp1 & _).
    cbn [roundMatch Match.Participant1ID] in Hp1. rewrite decide_True in Hp1 by done.
    unfold roundSize in Hp.
    pose proof (list_lookup_lookup_total_lt bp (2 * p) ltac:(lia)) as Ha.
    pose proof (list_lookup_lookup_total_lt bp (2 * p + 1) ltac:(lia)) as Hb.
    destruct (Hpairs p _ _ Ha Hb) as [Hlow _]. unfold pow2 in Hbounds.
    assert (Hnonneg : 0 ≤ bp !!! (2 * p)%nat) by lia.
    destruct (firstRoundSlot_seeded participants (bp !!! (2 * p)%nat) Hseeds
                Hnonneg) as [Hlt _].
    destruct Hlt as (q & Hq & Hseed & Hslot); [lia|].
    exists m, (bp !!! (2 * p)%nat), q. split; [done|]. split; [done|].
    split; [done|]. split; [done|]. by rewrite Hp1. }
  eexists. split; [exact Hgen|]. split.
  - intros m Hm Hround. apply list_elem_of_lookup_1 in Hm as [k Hk].
    apply (fixture_first_round GenerateUUID tournament n _ bp _ Hrounds Hlinked
             k m Hk) in Hround.
    destruct (Hslot k Hround) as (m' & a & q & Hm' & _ & _ & _ & Hp1).
    assert (m' = m) as -> by congruence. by rewrite Hp1.
  - destruct (Hslot 0%nat) as (m & a & q & Hm & Ha & Hq & Hseed & Hp1).
    { unfold roundSize. lia. }
    change (2 * 0)%nat with 0%nat in Ha.
    assert (a = 0) as -> by congruence.
    by exists m, q.
Qed.

Lemma single_elimination_first_slot_witness :
  2 ≤ Z.of_nat (length exampleParticipants) ∧
  Participant.Seed <$> exampleParticipants
    ≡ₚ Some <$> seqZ 1 (Z.of_nat (length exampleParticipants)) ∧
  ∃ fx,
    generateSingleEliminationFixtures exampleUUID exampleTournament exampleParticipants
      = Ret fx ∧
    ∀ m, m ∈ fx → Match.RoundNumber m = 1 → is_Some (Match.Participant1ID m).
Proof.
  split; [simpl; lia|]. split; [reflexivity|].
  destruct (single_elimination_first_slot exampleUUID exampleTournament
              exampleParticipants) as (fx & Hfx & Hfirst & _);
    [simpl; lia | reflexivity |].
  exists fx. split; assumption.
Defined.

(** *** The other seeding methods *)

Lemma nameLess_swo : StrictWeakOrder nameLess.
Proof.
  destruct String_ltb_swo as [Hirr Htrans Hcmp].
  split; unfold nameLess; eauto.
Qed.

Section SeedingMethods.
Context (sortSlice : ∀ A : Type, (A → A → bool) → list A → list A).
Context (entropy : nat → Z).
Context (Hsort : SortContract sortSlice).

(** Every method returns, with the participants rearranged at most; the
    three methods of the interface stamp the seeds 1 to n. *)
Lemma applySeedingMethod_returns (participants : list Participant.t)
    (method : string) (data : list SeedingData) :
  ∃ out,
    applySeedingMethod sortSlice entropy participants method data = Ret out ∧
    clearSeed <$> out ≡ₚ clearSeed <$> participants ∧
    (method ∈ ["manual"; "random"; "skill"] →
     Participant.Seed <$> out = Some <$> seqZ 1 (Z.of_nat (length participants))) ∧
    (method ∉ ["manual"; "random"; "skill"] → out = participants).
Proof.
  destruct Hsort as [Hperm _]. unfold applySeedingMethod.
  destruct (decide (method = "manual")) as [->|Hm].
  { eexists. split; [done|]. split; [by rewrite clearSeed_assignSeeds, Hperm|].
    split; [by rewrite Seed_assignSeeds, Hperm|].
    intros Hnot. exfalso. apply Hnot. repeat constructor. }
  destruct (decide (method = "random")) as [->|Hr].
  { destruct (shuffle_Permutation entropy participants) as (l & Hl & Hp).
    rewrite Hl. cbn [mbind result_bind].
    eexists. split; [done|]. split; [by rewrite clearSeed_assignSeeds, Hp|].
    split; [by rewrite Seed_assignSeeds, Hp|].
    intros Hnot. exfalso. apply Hnot. repeat constructor. }
  destruct (decide (method = "skill")) as [->|Hs].
  { eexists. split; [done|]. split; [by rewrite clearSeed_assignSeeds, Hperm|].
    split; [by rewrite Seed_assignSeeds, Hperm|].
    intros Hnot. exfalso. apply Hnot. repeat constructor. }
  exists participants. split; [done|]. split; [done|]. split; [|done].
  intros Hin. repeat (apply elem_of_cons in Hin as [->|Hin]; [done|]).
  by apply elem_of_nil in Hin.
Qed.

Lemma applySeedingMethod_length (participants out : list Participant.t)
    (method : string) (data : list SeedingData) :
  applySeedingMethod sortSlice entropy participants method data = Ret out →
  length out = length participants.
Proof.
  intros Hout.
  destruct (applySeedingMethod_returns participants method data)
    as (out' & Hout' & Hperm & _).
  assert (out' = out) as -> by congruence.
  apply Permutation_length in Hperm. by rewrite !length_fmap in Hperm.
Qed.
End SeedingMethods.

(** X9: for a sort that meets the contract of [sort.Slice], the skill
    method returns the participants rearranged so that no name is before a
    smaller one, stamped with the seeds 1 to n; a method other than manual,
    random and skill returns the participants as they are, seeds
    included. *)
Theorem seeding_skill_and_other
    (sortSlice : ∀ A : Type, (A → A → bool) → list A → list A)
    (entropy : nat → Z) (participants : list Participant.t)
    (data : list SeedingData) :
  SortContract sortSlice →
  (∃ out,
     applySeedingMethod sortSlice entropy participants "skill" data = Ret out ∧
     clearSeed <$> out ≡ₚ clearSeed <$> participants ∧
     Participant.Seed <$> out = Some <$> seqZ 1 (Z.of_nat (length participants)) ∧
     ∀ (i j : nat) (pi pj : Participant.t),
       (i < j)%nat → out !! i = Some pi → out !! j = Some pj →
       String.ltb (Participant.Name pj) (Participant.Name pi) = false) ∧
  (∀ method, method ∉ ["manual"; "random"; "skill"] →
     applySeedingMethod sortSlice entropy participants method data
     = Ret participants).
Proof.
  intros Hsort. split.
  - destruct Hsort as [Hperm Hsorted].
    set (sorted := sortSlice _ nameLess participants).
    exists (assignSeeds sorted). unfold applySeedingMethod.
    rewrite !decide_False, decide_True by done. split; [done|]. split; [|split].
    + rewrite clearSeed_assignSeeds. unfold sorted. by rewrite Hperm.
    + rewrite Seed_assignSeeds. unfold sorted. by rewrite Hperm.
    + intros i j pi pj Hij Hi Hj. unfold assignSeeds in Hi, Hj.
      apply list_lookup_imap_Some in Hi as (qi & Hqi & ->).
      apply list_lookup_imap_Some in Hj as (qj & Hqj & ->).
      exact (Hsorted _ nameLess participants nameLess_swo i j qi qj Hij Hqi Hqj).
  - intros method Hnot.
    destruct (applySeedingMethod_returns sortSlice entropy Hsort participants
                method data) as (out & Hout & _ & _ & Hsame).
    by rewrite Hout, (Hsame Hnot).
Qed.

Lemma seeding_skill_and_other_witness :
  SortContract mergeSortSlice ∧
  applySeedingMethod mergeSortSlice exampleEntropy exampleParticipants "elo" []
  = Ret exampleParticipants.
Proof.
  split; [exact mergeSortSlice_contract|].
  destruct (seeding_skill_and_other mergeSortSlice exampleEntropy exampleParticipants
              [] mergeSortSlice_contract) as [_ Hother].
  apply Hother. intros Hin. by repeat (apply elem_of_cons in Hin as [[=]|Hin]);
    apply elem_of_nil in Hin.
Defined.

(** X10: in the manual method, the participants without an explicit seed
    come out ordered by name among themselves, and when the seeding data
    names a participant more than once its last entry counts. *)
Theorem seeding_manual_unseeded
    (sortSlice : ∀ A : Type, (A → A → bool) → list A → list A)
    (entropy : nat → Z) (participants : list Participant.t)
    (data : list SeedingData) :
  SortContract sortSlice →
  let seedMap := seedMapOf data in
  (∃ out,
     applySeedingMethod sortSlice entropy participants "manual" data = Ret out ∧
     ∀ (i j : nat) (pi pj : Participant.t),
       (i < j)%nat → out !! i = Some pi → out !! j = Some pj →
       seedMap !! Participant.ID pi = None → seedMap !! Participant.ID pj = None →
       String.ltb (Participant.Name pj) (Participant.Name pi) = false) ∧
  (∀ id, seedMap !! id
         = SeedingSeed <$> last (filter (λ sd, ParticipantID sd = id) data)).
Proof.
  intros [Hperm Hsorted] seedMap. split; [|apply seedMapOf_lookup].
  set (sorted := sortSlice _ (manualLess seedMap) participants).
  exists (assignSeeds sorted). unfold applySeedingMethod.
  rewrite decide_True by done. split; [done|].
  intros i j pi pj Hij Hi Hj. unfold assignSeeds in Hi, Hj.
  apply list_lookup_imap_Some in Hi as (qi & Hqi & ->).
  apply list_lookup_imap_Some in Hj as (qj & Hqj & ->).
  cbn [Participant.setSeed Participant.ID Participant.Name]. intros Hni Hnj.
  pose proof (Hsorted _ (manualLess seedMap) participants
                (manualLess_swo seedMap) i j qi qj Hij Hqi Hqj) as Hless.
  unfold manualLess in Hless. by rewrite Hni, Hnj in Hless.
Qed.

Lemma seeding_manual_unseeded_witness :
  SortContract mergeSortSlice ∧
  seedMapOf [ {| ParticipantID := "a"; SeedingSeed := 2 |};
              {| ParticipantID := "a"; SeedingSeed := 7 |} ] !! "a" = Some 7.
Proof.
  split; [exact mergeSortSlice_contract|].
  destruct (seeding_manual_unseeded mergeSortSlice exampleEntropy exampleParticipants
              [ {| ParticipantID := "a"; SeedingSeed := 2 |};
                {| ParticipantID := "a"; SeedingSeed := 7 |} ]
              mergeSortSlice_contract) as [_ Hlast].
  rewrite Hlast. reflexivity.
Defined.

(** *** Seeding followed by the generator *)

(** X11: seeding by any of the three methods and then generating the
    single-elimination bracket puts every participant in exactly one
    first-round slot, leaving [2 ^ rounds - n] slots empty. *)
Theorem seeded_single_elimination_slots
    (sortSlice : ∀ A : Type, (A → A → bool) → list A → list A)
    (entropy : nat → Z) (GenerateUUID : nat → string) (tournament : Tournament.t)
    (participants : list Participant.t) (method : string) (data : list SeedingData) :
  let n := Z.of_nat (length participants) in
  SortContract sortSlice →
  method ∈ ["manual"; "random"; "skill"] →
  2 ≤ n →
  ∃ seeded fx,
    applySeedingMethod sortSlice entropy participants method data = Ret seeded ∧
    generateSingleEliminationFixtures GenerateUUID tournament seeded = Ret fx ∧
    firstRoundSlots fx
    ≡ₚ (Some ∘ Participant.ID <$> participants)
       ++ replicate (Z.to_nat (2 ^ ceilLog2 n - n)) None.
Proof.
  intros n Hsort Hmethod Hn.
  destruct (applySeedingMethod_returns sortSlice entropy Hsort participants
              method data) as (seeded & Hseeded & Hperm & Hseeds & _).
  specialize (Hseeds Hmethod).
  assert (Hlen : length seeded = length participants).
  { apply Permutation_length in Hperm. by rewrite !length_fmap in Hperm. }
  destruct (generateSingleEliminationFixtures_slots GenerateUUID tournament seeded)
    as (fx & Hfx & Hslots).
  { rewrite Hlen. exact Hn. }
  { by rewrite Hseeds, Hlen. }
  exists seeded, fx. split; [done|]. split; [done|].
  rewrite Hslots, Hlen. fold n. f_equiv.
  assert (Hid : ∀ l : list Participant.t,
            Some ∘ Participant.ID <$> l
            = (Some ∘ Participant.ID) <$> (clearSeed <$> l)).
  { intros l. by rewrite <- list_fmap_compose. }
  by rewrite (Hid seeded), (Hid participants), Hperm.
Qed.

Lemma seeded_single_elimination_slots_witness :
  SortContract mergeSortSlice ∧
  "random" ∈ ["manual"; "random"; "skill"] ∧
  2 ≤ Z.of_nat (length exampleParticipants) ∧
  ∃ seeded fx,
    applySeedingMethod mergeSortSlice exampleEntropy exampleParticipants "random" []
      = Ret seeded ∧
    generateSingleEliminationFixtures exampleUUID exampleTournament seeded = Ret fx ∧
    firstRoundSlots fx ≡ₚ [Some "a"; Some "b"; Some "c"; None].
Proof.
  split; [exact mergeSortSlice_contract|].
  assert (Hin : "random" ∈ ["manual"; "random"; "skill"]) by (right; left).
  split; [exact Hin|]. split; [simpl; lia|].
  exact (seeded_single_elimination_slots mergeSortSlice exampleEntropy exampleUUID
           exampleTournament exampleParticipants "random" []
           mergeSortSlice_contract Hin ltac:(simpl; lia)).
Defined.

(** *** The guards of fixture generation *)

Section GenerateFixturesGuards.
Context (sortSlice : ∀ A : Type, (A → A → bool) → list A → list A).
Context (entropy : nat → Z) (GenerateUUID : nat → string).
Context (generateDoubleEliminationFixtures generateGroupToKnockoutFixtures
         generateSwissFirstRound
  : Tournament.t → list Participant.t → result (list Match.t)).
Context (repos : Repos).

Local Abbreviation generate :=
  (GenerateFixtures sortSlice entropy GenerateUUID
     generateDoubleEliminationFixtures generateGroupToKnockoutFixtures
     generateSwissFirstRound repos).
Local Abbreviation byFormat :=
  (generateByFormat GenerateUUID generateDoubleEliminationFixtures
     generateGroupToKnockoutFixtures generateSwissFirstRound).
Local Abbreviation bound tournament :=
  (GoInt.mul (Tournament.MaxMatchesPerDay tournament)
     (calculateTournamentDays (Tournament.StartDate tournament)
        (Tournament.EndDate tournament))).

(** What a call returns once the fixtures are generated. *)
Lemma GenerateFixtures_generated (tournamentID seedingMethod : string)
    (seedingData : list SeedingData) (tournament : Tournament.t)
    (participants seeded : list Participant.t) (fx : list Match.t) :
  TournamentGetByIDWithDetails repos tournamentID = Some tournament →
  Tournament.Status tournament = StatusRegistrationClosed →
  GetByTournamentID repos tournamentID = Some participants →
  (2 ≤ length participants)%nat →
  applySeedingMethod sortSlice entropy participants seedingMethod seedingData
    = Ret seeded →
  byFormat tournament seeded = Ret fx →
  generate tournamentID seedingMethod seedingData
  = if decide (Z.of_nat (length fx) > bound tournament)
    then Fail ErrCapacityExceeded
    else if BeginTx repos && forallb (MatchCreateWithTx repos) fx
            && UpdateStatusWithTx repos && Commit repos
         then Ret fx else Fail ErrRepository.
Proof.
  intros Hget Hstatus Hparts Hn Hseed Hgen.
  unfold GenerateFixtures. rewrite Hget.
  rewrite decide_False by (by intros []). rewrite Hparts.
  rewrite decide_False by lia. rewrite Hseed. cbn [mbind result_bind].
  rewrite Hgen. cbn [mbind result_bind]. unfold validateFixtureCount.
  case_decide; cbn [mbind result_bind]; [done|].
  by destruct (BeginTx repos), (forallb _ fx), (UpdateStatusWithTx repos),
    (Commit repos).
Qed.

(** X12: a call of [GenerateFixtures] returns fixtures only when the
    tournament exists with registration closed, at least two participants
    are registered, the fixtures are those generated for the seeded
    participants, their number is within [MaxMatchesPerDay * days], and the
    transaction, every insertion, the status update and the commit
    succeeded. *)
Theorem GenerateFixtures_returns_only_if (tournamentID seedingMethod : string)
    (seedingData : list SeedingData) (fx : list Match.t) :
  generate tournamentID seedingMethod seedingData = Ret fx →
  ∃ tournament participants seeded,
    TournamentGetByIDWithDetails repos tournamentID = Some tournament ∧
    Tournament.Status tournament = StatusRegistrationClosed ∧
    GetByTournamentID repos tournamentID = Some participants ∧
    (2 ≤ length participants)%nat ∧
    applySeedingMethod sortSlice entropy participants seedingMethod seedingData
      = Ret seeded ∧
    byFormat tournament seeded = Ret fx ∧
    Z.of_nat (length fx) ≤ bound tournament ∧
    BeginTx repos = true ∧
    Forall (λ m, MatchCreateWithTx repos m = true) fx ∧
    UpdateStatusWithTx repos = true ∧
    Commit repos = true.
Proof.
  unfold GenerateFixtures. intros H.
  destruct (TournamentGetByIDWithDetails repos tournamentID) as [tournament|];
    [|done].
  case_decide as Hstatus; [done|].
  destruct (GetByTournamentID repos tournamentID) as [participants|]; [|done].
  case_decide as Hn; [done|].
  destruct (applySeedingMethod _ _ _ _ _) as [seeded| | |] eqn:Hseed; try done.
  cbn [mbind result_bind] in H.
  destruct (generateByFormat _ _ _ _ _ _) as [fx'| | |] eqn:Hgen; try done.
  cbn [mbind result_bind] in H. unfold validateFixtureCount in H.
  case_decide as Hcount; [done|]. cbn [mbind result_bind] in H.
  destruct (BeginTx repos); [|done].
  destruct (forallb _ fx') eqn:Hcreate; [|done].
  destruct (UpdateStatusWithTx repos); [|done].
  destruct (Commit repos); [|done].
  cbn in H. injection H as <-.
  exists tournament, participants, seeded.
  split_and!; try done; [lia..|].
  apply Is_true_true, forallb_True in Hcreate.
  eapply Forall_impl; [exact Hcreate|]. intros m Hm. by apply Is_true_true.
Qed.

(** When the generator returns [needed] matches for every seeding of the
    participants, the call fails with the capacity error exactly when
    [needed] exceeds the bound, and otherwise returns that many fixtures if
    the repository accepts them. *)
Lemma GenerateFixtures_capacity_of_count (tournamentID seedingMethod : string)
    (seedingData : list SeedingData) (tournament : Tournament.t)
    (participants : list Participant.t) (needed : Z) :
  SortContract sortSlice →
  TournamentGetByIDWithDetails repos tournamentID = Some tournament →
  Tournament.Status tournament = StatusRegistrationClosed →
  GetByTournamentID repos tournamentID = Some participants →
  (2 ≤ length participants)%nat →
  (∀ seeded, length seeded = length participants →
     ∃ fx, byFormat tournament seeded = Ret fx ∧ Z.of_nat (length fx) = needed) →
  (generate tournamentID seedingMethod seedingData = Fail ErrCapacityExceeded
   ↔ bound tournament < needed) ∧
  (needed ≤ bound tournament →
   BeginTx repos = true → (∀ m, MatchCreateWithTx repos m = true) →
   UpdateStatusWithTx repos = true → Commit repos = true →
   ∃ fx, generate tournamentID seedingMethod seedingData = Ret fx ∧
         Z.of_nat (length fx) = needed).
Proof.
  intros Hsort Hget Hstatus Hparts Hn Hcount.
  destruct (applySeedingMethod_returns sortSlice entropy Hsort participants
              seedingMethod seedingData) as (seeded & Hseed & Hperm & _).
  destruct (Hcount seeded) as (fx & Hgen & Hlen).
  { apply Permutation_length in Hperm. by rewrite !length_fmap in Hperm. }
  rewrite (GenerateFixtures_generated _ _ _ _ _ _ _ Hget Hstatus Hparts Hn Hseed Hgen).
  rewrite Hlen. split.
  - case_decide; [split; [lia|done]|].
    split; [|lia]. by case_match.
  - intros Hle Hbegin Hcreate Hupdate Hcommit.
    rewrite decide_False by lia.
    assert (forallb (MatchCreateWithTx repos) fx = true) as ->.
    { apply Is_true_true, forallb_True, Forall_forall. intros m _.
      apply Is_true_true, Hcreate. }
    rewrite Hbegin, Hupdate, Hcommit. by exists fx.
Qed.

(** X13: for a single-elimination tournament with n >= 2 participants and
    any seeding method, [GenerateFixtures] fails with the capacity error
    exactly when [2 ^ ceil(log2 n) - 1] exceeds [MaxMatchesPerDay * days],
    and otherwise returns that many fixtures when the repository accepts
    them. *)
Theorem GenerateFixtures_single_elimination_capacity
    (tournamentID seedingMethod : string) (seedingData : list SeedingData)
    (tournament : Tournament.t) (participants : list Participant.t) :
  let needed := 2 ^ ceilLog2 (Z.of_nat (length participants)) - 1 in
  SortContract sortSlice →
  TournamentGetByIDWithDetails repos tournamentID = Some tournament →
  Tournament.Status tournament = StatusRegistrationClosed →
  Tournament.FormatType tournament = FormatSingleElimination →
  GetByTournamentID repos tournamentID = Some participants →
  (2 ≤ length participants)%nat →
  (generate tournamentID seedingMethod seedingData = Fail ErrCapacityExceeded
   ↔ bound tournament < needed) ∧
  (needed ≤ bound tournament →
   BeginTx repos = true → (∀ m, MatchCreateWithTx repos m = true) →
   UpdateStatusWithTx repos = true → Commit repos = true →
   ∃ fx, generate tournamentID seedingMethod seedingData = Ret fx ∧
         Z.of_nat (length fx) = needed).
Proof.
  intros needed Hsort Hget Hstatus Hformat Hparts Hn.
  apply (GenerateFixtures_capacity_of_count _ _ _ tournament participants);
    try done.
  intros seeded Hlen. unfold generateByFormat. rewrite decide_True by done.
  destruct (generateSingleEliminationFixtures_size GenerateUUID tournament seeded)
    as (fx & Hfx & Hcount & _); [lia|].
  exists fx. split; [done|]. unfold needed. by rewrite <- Hlen.
Qed.

(** X14: for a round-robin tournament with n >= 2 participants,
    [GenerateFixtures] fails with the capacity error exactly when
    [n (n - 1) / 2] exceeds [MaxMatchesPerDay * days], and otherwise returns
    that many fixtures when the repository accepts them. *)
Theorem GenerateFixtures_round_robin_capacity
    (tournamentID seedingMethod : string) (seedingData : list SeedingData)
    (tournament : Tournament.t) (participants : list Participant.t) :
  let n := Z.of_nat (length participants) in
  let needed := (n * (n - 1)) `div` 2 in
  SortContract sortSlice →
  TournamentGetByIDWithDetails repos tournamentID = Some tournament →
  Tournament.Status tournament = StatusRegistrationClosed →
  Tournament.FormatType tournament = FormatRoundRobin →
  GetByTournamentID repos tournamentID = Some participants →
  (2 ≤ length participants)%nat →
  (generate tournamentID seedingMethod seedingData = Fail ErrCapacityExceeded
   ↔ bound tournament < needed) ∧
  (needed ≤ bound tournament →
   BeginTx repos = true → (∀ m, MatchCreateWithTx repos m = true) →
   UpdateStatusWithTx repos = true → Commit repos = true →
   ∃ fx, generate tournamentID seedingMethod seedingData = Ret fx ∧
         Z.of_nat (length fx) = needed).
Proof.
  intros n needed Hsort Hget Hstatus Hformat Hparts Hn.
  apply (GenerateFixtures_capacity_of_count _ _ _ tournament participants);
    try done.
  intros seeded Hlen. unfold generateByFormat. rewrite Hformat.
  rewrite decide_False, decide_False, decide_True by done.
  rewrite generateRoundRobinFixtures_spec. eexists. split; [done|].
  rewrite length_imap, length_roundRobinPairs, Hlen. done.
Qed.
End GenerateFixturesGuards.

Lemma GenerateFixtures_returns_only_if_witness :
  ∃ fx,
    GenerateFixtures mergeSortSlice exampleEntropy exampleUUID noFixtures noFixtures
      noFixtures exampleRepos "t1" "manual" [] = Ret fx ∧
    ∃ tournament,
      TournamentGetByIDWithDetails exampleRepos "t1" = Some tournament ∧
      Tournament.Status tournament = StatusRegistrationClosed ∧
      Z.of_nat (length fx)
      ≤ GoInt.mul (Tournament.MaxMatchesPerDay tournament)
          (calculateTournamentDays (Tournament.StartDate tournament)
             (Tournament.EndDate tournament)).
Proof.
  eexists. split; [vm_compute; reflexivity|].
  destruct (GenerateFixtures_returns_only_if mergeSortSlice exampleEntropy
              exampleUUID noFixtures noFixtures noFixtures exampleRepos
              "t1" "manual" [] _ eq_refl)
    as (tournament & _ & _ & Hget & Hstatus & _ & _ & _ & _ & Hcount & _).
  exists tournament. split; [exact Hget|]. split; [exact Hstatus|exact Hcount].
Defined.

Lemma GenerateFixtures_single_elimination_capacity_witness :
  SortContract mergeSortSlice ∧
  (2 ≤ length exampleParticipants)%nat ∧
  ∃ fx,
    GenerateFixtures mergeSortSlice exampleEntropy exampleUUID noFixtures noFixtures
      noFixtures exampleRepos "t1" "random" [] = Ret fx ∧
    Z.of_nat (length fx) = 3.
Proof.
  split; [exact mergeSortSlice_contract|]. split; [simpl; lia|].
  destruct (GenerateFixtures_single_elimination_capacity mergeSortSlice
              exampleEntropy exampleUUID noFixtures noFixtures noFixtures
              exampleRepos "t1" "random" [] exampleTournament exampleParticipants
              mergeSortSlice_contract eq_refl eq_refl eq_refl eq_refl
              ltac:(simpl; lia)) as [_ Hret].
  apply Hret; [by vm_compute|reflexivity|by intros|reflexivity|reflexivity].
Defined.

Lemma GenerateFixtures_round_robin_capacity_witness :
  SortContract mergeSortSlice ∧
  (2 ≤ length exampleParticipants)%nat ∧
  ∃ fx,
    GenerateFixtures mergeSortSlice exampleEntropy exampleUUID noFixtures noFixtures
      noFixtures exampleRoundRobinRepos "t1" "skill" [] = Ret fx ∧
    Z.of_nat (length fx) = 3.
Proof.
  split; [exact mergeSortSlice_contract|]. split; [simpl; lia|].
  destruct (GenerateFixtures_round_robin_capacity mergeSortSlice
              exampleEntropy exampleUUID noFixtures noFixtures noFixtures
              exampleRoundRobinRepos "t1" "skill" [] exampleRoundRobin
              exampleParticipants
              mergeSortSlice_contract eq_refl eq_refl eq_refl eq_refl
              ltac:(simpl; lia)) as [_ Hret].
  apply Hret; [by vm_compute|reflexivity|by intros|reflexivity|reflexivity].
Defined.

(** *** Operational hours *)

Lemma wrap_range (z : Z) : GoInt.min_int ≤ GoInt.wrap z ≤ GoInt.max_int.
Proof.
  unfold GoInt.wrap, GoInt.min_int, GoInt.max_int.
  pose proof (Z.mod_pos_bound (z + 2 ^ 63) (2 ^ 64) ltac:(lia)). lia.
Qed.

Lemma wrap_id (z : Z) : GoInt.min_int ≤ z ≤ GoInt.max_int → GoInt.wrap z = z.
Proof.
  unfold GoInt.wrap, GoInt.min_int, GoInt.max_int. intros Hz.
  rewrite Z.mod_small by lia. lia.
Qed.

Lemma digitOf_range (c : Ascii.ascii) (d : Z) : digitOf c = Some d → 0 ≤ d ≤ 9.
Proof. unfold digitOf. case_decide; [|done]. intros [= <-]. lia. Qed.

Lemma parseHour_range (s rest : string) (h : Z) :
  parseHour s = Some (h, rest) → 0 ≤ h.
Proof.
  destruct s as [|c1 s]; [done|]. cbn [parseHour].
  destruct (digitOf c1) as [d1|] eqn:H1; [|done]. cbn.
  apply digitOf_range in H1.
  destruct s as [|c2 s]; [intros [= <- _]; lia|].
  destruct (digitOf c2) as [d2|] eqn:H2.
  - apply digitOf_range in H2. intros [= <- _]. lia.
  - intros [= <- _]. lia.
Qed.

Lemma parseMinute_range (s rest : string) (m : Z) :
  parseMinute s = Some (m, rest) → 0 ≤ m.
Proof.
  destruct s as [|c1 [|c2 s]]; [done..|]. cbn [parseMinute].
  destruct (digitOf c1) as [d1|] eqn:H1; [|done].
  destruct (digitOf c2) as [d2|] eqn:H2; [|done]. cbn.
  apply digitOf_range in H1, H2. intros [= <- _]. lia.
Qed.

Lemma parseClock_default (s : string) :
  parseClock s = default zeroTimeMinutes (parseClockOpt s).
Proof. reflexivity. Qed.

(** A clock time that parses lies within the day. *)
Lemma parseClockOpt_range (s : string) (t : Z) :
  parseClockOpt s = Some t → 0 ≤ t < 1440.
Proof.
  unfold parseClockOpt.
  destruct (parseHour s) as [[h s1]|] eqn:Hh; [|done]. cbn.
  apply parseHour_range in Hh. case_decide; [done|].
  destruct s1 as [|c s2]; [done|].
  destruct (decide (c = ":"%char)) as [->|Hc].
  2:{ destruct c as [[] [] [] [] [] [] [] []]; try done. }
  destruct (parseMinute s2) as [[m s3]|] eqn:Hm; [|done]. cbn.
  apply parseMinute_range in Hm. case_decide; [done|].
  destruct s3; [|done]. intros [= <-]. lia.
Qed.

Lemma parseClock_range (s : string) : 0 ≤ parseClock s ≤ zeroTimeMinutes.
Proof.
  rewrite parseClock_default.
  destruct (parseClockOpt s) as [t|] eqn:Ht; cbn.
  - apply parseClockOpt_range in Ht. unfold zeroTimeMinutes. lia.
  - unfold zeroTimeMinutes. lia.
Qed.

Lemma window_range (dayHours : DayHours) :
  - zeroTimeMinutes ≤ window dayHours ≤ zeroTimeMinutes.
Proof.
  unfold window.
  pose proof (parseClock_range (StartTime dayHours)).
  pose proof (parseClock_range (EndTime dayHours)). lia.
Qed.

(** The loop over the entries adds up the positive windows and counts
    them, as long as the sum stays within [int]. *)
Lemma dailyMinutesStep_fold (l : list DayHours) :
  ∀ total count : Z,
    0 ≤ count → 0 ≤ total ≤ zeroTimeMinutes * count →
    (count + Z.of_nat (length l)) * zeroTimeMinutes ≤ GoInt.max_int →
    let ws := filter (λ w, 0 < w) (window <$> l) in
    foldl dailyMinutesStep (total, count) l
    = (total + sumZ ws, count + Z.of_nat (length ws)) ∧
    0 ≤ sumZ ws ≤ zeroTimeMinutes * Z.of_nat (length ws).
Proof.
  induction l as [|dh l IH]; intros total count Hcount Htotal Hfit ws.
  { subst ws. cbn. split; [f_equal; lia|lia]. }
  subst ws. rewrite fmap_cons, filter_cons. cbn [foldl].
  pose proof (window_range dh) as Hw.
  assert (Hz : 0 < zeroTimeMinutes) by done.
  assert (Hlen : Z.of_nat (length (dh :: l)) = Z.of_nat (length l) + 1)
    by (cbn [length]; lia).
  rewrite Hlen in Hfit.
  unfold dailyMinutesStep at 2. fold (window dh). cbn [fst snd].
  unfold GoInt.min_int, GoInt.max_int in *.
  destruct (decide (0 < window dh)) as [Hpos|Hneg].
  - rewrite decide_True by lia. unfold GoInt.add.
    rewrite !wrap_id by (unfold GoInt.min_int, GoInt.max_int; nia).
    destruct (IH (total + window dh) (count + 1)) as [-> Hsum]; [lia|nia|lia|].
    cbn [sumZ foldr length]. fold (sumZ (filter (λ w, 0 < w) (window <$> l))).
    split; [f_equal; lia|]. lia.
  - rewrite decide_False by lia.
    destruct (IH total count) as [-> Hsum]; [lia|lia|lia|]. done.
Qed.

(** X15: the daily operational minutes are the truncated mean of the
    positive windows of the operational hours (0 when there is none); an
    entry whose closing time is not after its opening time is ignored.  The
    result lies between 0 and the minutes of 366 days. *)
Theorem daily_minutes_mean (hours : gmap string DayHours) :
  Z.of_nat (size hours) * zeroTimeMinutes ≤ GoInt.max_int →
  let ws := positiveWindows hours in
  ∃ dailyMinutes,
    calculateDailyOperationalMinutes hours = Ret dailyMinutes ∧
    dailyMinutes
    = (if decide (ws = []) then 0 else sumZ ws `quot` Z.of_nat (length ws)) ∧
    0 ≤ dailyMinutes ≤ zeroTimeMinutes.
Proof.
  intros Hsize ws. unfold calculateDailyOperationalMinutes.
  destruct (dailyMinutesStep_fold (snd <$> map_to_list hours) 0 0)
    as [Hfold Hsum]; [lia|lia| |].
  { rewrite length_fmap, length_map_to_list. lia. }
  fold (positiveWindows hours) in Hfold, Hsum. fold ws in Hfold, Hsum.
  rewrite Hfold, !Z.add_0_l.
  assert (Hz : 0 < zeroTimeMinutes) by done.
  destruct ws as [|w ws'] eqn:Hws.
  { cbn. rewrite decide_True by done. exists 0. rewrite decide_True by done.
    split; [done|]. split; [done|]. lia. }
  rewrite decide_False by (cbn [length]; lia).
  rewrite (decide_False (P := w :: ws' = [])) by done.
  unfold GoInt.div. rewrite decide_False by (cbn [length]; lia).
  set (len := Z.of_nat (length (w :: ws'))) in *.
  assert (Hlen : 0 < len) by (unfold len; cbn [length]; lia).
  assert (Hq : 0 ≤ sumZ (w :: ws') `quot` len ≤ zeroTimeMinutes).
  { split; [apply Z.quot_pos; lia|].
    apply Z.quot_le_upper_bound; [lia|]. lia. }
  eexists. split; [done|]. rewrite wrap_id.
  - split; [done|lia].
  - unfold GoInt.min_int, GoInt.max_int. unfold zeroTimeMinutes in Hq. lia.
Qed.

Lemma daily_minutes_mean_witness :
  Z.of_nat (size (Req.OperationalHours exampleRequest)) * zeroTimeMinutes
    ≤ GoInt.max_int ∧
  calculateDailyOperationalMinutes (Req.OperationalHours exampleRequest) = Ret 480.
Proof.
  assert (Hsize : Z.of_nat (size (Req.OperationalHours exampleRequest))
                  * zeroTimeMinutes ≤ GoInt.max_int) by (by vm_compute).
  split; [exact Hsize|].
  destruct (daily_minutes_mean (Req.OperationalHours exampleRequest) Hsize)
    as (d & -> & -> & _).
  by vm_compute.
Defined.

Lemma calculateDailyOperationalMinutes_singleton (day : string) (dayHours : DayHours) :
  0 < window dayHours →
  calculateDailyOperationalMinutes {[ day := dayHours ]} = Ret (window dayHours).
Proof.
  intros Hpos. unfold calculateDailyOperationalMinutes.
  rewrite map_to_list_singleton. cbn [fmap list_fmap snd foldl].
  unfold dailyMinutesStep. fold (window dayHours). cbn [fst snd].
  rewrite decide_True by lia.
  pose proof (window_range dayHours) as Hw. unfold zeroTimeMinutes in Hw.
  unfold GoInt.add. rewrite !Z.add_0_l. change (GoInt.wrap 1) with 1.
  rewrite wrap_id by (unfold GoInt.min_int, GoInt.max_int; lia). rewrite decide_False by done.
  unfold GoInt.div. rewrite decide_False by done.
  rewrite Z.quot_1_r, wrap_id by (unfold GoInt.min_int, GoInt.max_int; lia).
  done.
Qed.

(** X16: errors of [time.Parse] are dropped: an entry whose opening time
    parses to minute [t] of the day and whose closing time does not parse
    (["24:00"], for one) counts as a window of [366 * 1440 - t] minutes, more
    than a year; an entry whose opening time does not parse is ignored. *)
Theorem daily_minutes_unparsable (day : string) (dayHours : DayHours) :
  (∀ t, parseClockOpt (StartTime dayHours) = Some t →
        parseClockOpt (EndTime dayHours) = None →
        calculateDailyOperationalMinutes {[ day := dayHours ]}
        = Ret (366 * 1440 - t) ∧ 365 * 1440 < 366 * 1440 - t) ∧
  (parseClockOpt (StartTime dayHours) = None →
   calculateDailyOperationalMinutes {[ day := dayHours ]} = Ret 0) ∧
  parseClockOpt "24:00" = None.
Proof.
  split; [|split; [|done]].
  - intros t Hstart Hend.
    assert (Hw : window dayHours = 366 * 1440 - t).
    { unfold window. rewrite !parseClock_default, Hstart, Hend. done. }
    apply parseClockOpt_range in Hstart.
    rewrite <- Hw. split; [|lia].
    apply calculateDailyOperationalMinutes_singleton. lia.
  - intros Hstart.
    assert (Hw : window dayHours ≤ 0).
    { unfold window. rewrite (parseClock_default (StartTime dayHours)), Hstart.
      pose proof (parseClock_range (EndTime dayHours)). cbn. lia. }
    unfold calculateDailyOperationalMinutes.
    rewrite map_to_list_singleton. cbn [fmap list_fmap snd foldl].
    unfold dailyMinutesStep. fold (window dayHours).
    rewrite decide_False by lia. done.
Qed.

(** *** Requests without room for a match *)

Lemma calculateDailyOperationalMinutes_none (hours : gmap string DayHours) :
  positiveWindows hours = [] → calculateDailyOperationalMinutes hours = Ret 0.
Proof.
  unfold positiveWindows, calculateDailyOperationalMinutes. intros Hnone.
  assert (G : ∀ l, filter (λ w, 0 < w) (window <$> l) = [] →
              foldl dailyMinutesStep (0, 0) l = (0, 0)).
  { induction l as [|dh l IH]; [done|].
    rewrite fmap_cons, filter_cons. case_decide as Hw; [done|]. intros Hl.
    cbn [foldl]. unfold dailyMinutesStep at 2. fold (window dh).
    rewrite decide_False by lia. by apply IH. }
  by rewrite (G _ Hnone).
Qed.

(** Without a venue or without a positive window there is no slot. *)
Lemma totalMatchSlots_none (req : Req.t) :
  GoInt.add (Req.AvgMatchDuration req) (Req.BufferTime req) ≠ 0 →
  Req.Venues req = [] ∨ positiveWindows (Req.OperationalHours req) = [] →
  ∃ slots, totalMatchSlots req = Ret slots ∧ GoInt.min_int ≤ slots ≤ 0.
Proof.
  intros Hdiv Hnone. unfold totalMatchSlots.
  destruct (calculateDailyOperationalMinutes_returns (Req.OperationalHours req))
    as [dailyMinutes Hdaily].
  rewrite Hdaily. cbn [mbind result_bind].
  unfold GoInt.div. rewrite decide_False by done. cbn [mbind result_bind].
  set (days := calculateTournamentDays _ _).
  assert (Hzero : GoInt.mul
            (GoInt.mul
               (GoInt.wrap (dailyMinutes `quot`
                  GoInt.add (Req.AvgMatchDuration req) (Req.BufferTime req)))
               (Z.of_nat (length (Req.Venues req)))) days = 0).
  { destruct Hnone as [-> | Hnone].
    - cbn [length]. unfold GoInt.mul. by rewrite Z.mul_0_r.
    - rewrite (calculateDailyOperationalMinutes_none _ Hnone) in Hdaily.
      injection Hdaily as <-. rewrite Z.quot_0_l by done. done. }
  rewrite Hzero.
  pose proof (wrap_range (Req.MaxMatchesPerDay req * days)) as Hrange.
  fold (GoInt.mul (Req.MaxMatchesPerDay req) days) in Hrange.
  case_decide; eexists; (split; [done|]); unfold GoInt.min_int in *; lia.
Qed.

(** X17: a request without venues, or whose operational hours have no
    positive window, is refused by [Create] as too restrictive in the
    single-elimination and double-elimination formats and in a format the
    calculator does not know. *)
Theorem Create_rejects_without_room (fl : Float64Ops) (GenerateUUID : nat → string)
    (repos : Repos) (organizerID : string) (req : Req.t) :
  GoInt.add (Req.AvgMatchDuration req) (Req.BufferTime req) ≠ 0 →
  Req.Venues req = [] ∨ positiveWindows (Req.OperationalHours req) = [] →
  Req.FormatType req ∉ [FormatRoundRobin; FormatGroupToKnockout; FormatSwiss] →
  Create fl GenerateUUID repos organizerID req = Fail ErrConstraintsTooRestrictive.
Proof.
  intros Hdiv Hnone Hformat.
  destruct (totalMatchSlots_none req Hdiv Hnone) as (slots & Hslots & Hrange).
  unfold GoInt.min_int in Hrange.
  assert (Hcap : ∃ capacity,
            calculateTournamentCapacity fl req = Ret capacity ∧ capacity < 2).
  { unfold calculateTournamentCapacity. rewrite Hslots. cbn [mbind result_bind].
    unfold formatCapacity.
    destruct (decide (Req.FormatType req = FormatSingleElimination)).
    { eexists. split; [done|]. unfold GoInt.add.
      rewrite wrap_id by (unfold GoInt.min_int, GoInt.max_int; lia). lia. }
    destruct (decide (Req.FormatType req = FormatDoubleElimination)).
    { unfold GoInt.div, GoInt.add. rewrite decide_False by done.
      eexists. split; [done|].
      rewrite (wrap_id (slots + 2)) by (unfold GoInt.min_int, GoInt.max_int; lia).
      rewrite wrap_id;
        unfold GoInt.min_int, GoInt.max_int;
        Z.to_euclidean_division_equations; lia. }
    rewrite !decide_False
      by (intros Heq; apply Hformat; rewrite Heq; repeat constructor).
    unfold GoInt.div. rewrite decide_False by done.
    eexists. split; [done|].
    rewrite wrap_id;
      unfold GoInt.min_int, GoInt.max_int;
      Z.to_euclidean_division_equations; lia. }
  destruct Hcap as (capacity & Hcap & Hlt).
  unfold Create. rewrite Hcap. cbn [mbind result_bind]. by rewrite decide_True.
Qed.

Lemma Create_rejects_without_room_witness :
  GoInt.add (Req.AvgMatchDuration restrictiveRequest)
    (Req.BufferTime restrictiveRequest) ≠ 0 ∧
  positiveWindows (Req.OperationalHours restrictiveRequest) = [] ∧
  Create exactFloat64 exampleUUID exampleRepos "o1" restrictiveRequest
  = Fail ErrConstraintsTooRestrictive.
Proof.
  split; [by vm_compute|]. split; [reflexivity|].
  apply Create_rejects_without_room; [by vm_compute|right; reflexivity|].
  intros Hin. by repeat (apply elem_of_cons in Hin as [[=]|Hin]);
    apply elem_of_nil in Hin.
Defined.

Lemma daily_minutes_unparsable_witness :
  calculateDailyOperationalMinutes
    {[ "monday" := {| StartTime := "09:00"; EndTime := "24:00" |} ]}
  = Ret 526500.
Proof.
  destruct (daily_minutes_unparsable "monday"
              {| StartTime := "09:00"; EndTime := "24:00" |}) as [Hend _].
  destruct (Hend 540 eq_refl eq_refl) as [-> _]. reflexivity.
Defined.

(** *** What a created tournament carries *)

Lemma Create_inv (fl : Float64Ops) (GenerateUUID : nat → string)
    (repos : Repos) (organizerID : string) (req : Req.t) (tournament : Tournament.t) :
  Create fl GenerateUUID repos organizerID req = Ret tournament →
  calculateTournamentCapacity fl req = Ret (Tournament.CapacityLimit tournament) ∧
  2 ≤ Tournament.CapacityLimit tournament ∧
  Tournament.ID tournament = GenerateUUID 0%nat ∧
  Tournament.OrganizerID tournament = organizerID ∧
  Tournament.Status tournament = StatusDraft ∧
  Tournament.CurrentParticipants tournament = 0 ∧
  Tournament.FormatType tournament = Req.FormatType req ∧
  Tournament.MaxMatchesPerDay tournament = Req.MaxMatchesPerDay req ∧
  Tournament.StartDate tournament = Req.StartDate req ∧
  Tournament.EndDate tournament = Req.EndDate req ∧
  BeginTx repos = true ∧
  TournamentCreateWithTx repos tournament = true ∧
  Forall (λ v, VenueCreateWithTx repos v = true) (Req.Venues req) ∧
  Commit repos = true.
Proof.
  unfold Create.
  destruct (calculateTournamentCapacity fl req) as [capacity| | |];
    cbn [mbind result_bind]; try discriminate.
  case_decide; [done|].
  destruct (BeginTx repos); [|done]. cbn [negb].
  destruct (TournamentCreateWithTx repos _) eqn:Hcreate; [|done]. cbn [negb].
  destruct (forallb _ _) eqn:Hvenues; [|done]. cbn [negb].
  destruct (Commit repos); [|done]. cbn [negb].
  intros [= <-]. cbn. split_and!; try done; [lia|].
  apply Is_true_true, forallb_True in Hvenues.
  eapply Forall_impl; [exact Hvenues|]. intros v Hv. by apply Is_true_true.
Qed.

(** X18: [Create] returns a tournament only when the calculated capacity
    is at least 2 and the transaction, the insertion of the tournament, the
    insertion of every venue and the commit succeeded; the tournament is a
    draft without participants that carries the first identifier drawn, the
    calculated capacity and the schedule of the request. *)
Theorem Create_returns_only_if (fl : Float64Ops) (GenerateUUID : nat → string)
    (repos : Repos) (organizerID : string) (req : Req.t) (tournament : Tournament.t) :
  Create fl GenerateUUID repos organizerID req = Ret tournament →
  calculateTournamentCapacity fl req = Ret (Tournament.CapacityLimit tournament) ∧
  2 ≤ Tournament.CapacityLimit tournament ∧
  Tournament.ID tournament = GenerateUUID 0%nat ∧
  Tournament.OrganizerID tournament = organizerID ∧
  Tournament.Status tournament = StatusDraft ∧
  Tournament.CurrentParticipants tournament = 0 ∧
  Tournament.FormatType tournament = Req.FormatType req ∧
  Tournament.MaxMatchesPerDay tournament = Req.MaxMatchesPerDay req ∧
  Tournament.StartDate tournament = Req.StartDate req ∧
  Tournament.EndDate tournament = Req.EndDate req ∧
  BeginTx repos = true ∧
  TournamentCreateWithTx repos tournament = true ∧
  Forall (λ v, VenueCreateWithTx repos v = true) (Req.Venues req) ∧
  Commit repos = true.
Proof. apply Create_inv. Qed.

Lemma Create_returns_only_if_witness :
  ∃ tournament,
    Create exactFloat64 exampleUUID exampleRepos "o1" exampleRequest = Ret tournament ∧
    Tournament.CapacityLimit tournament = 5 ∧
    Tournament.Status tournament = StatusDraft.
Proof.
  eexists. split; [vm_compute; reflexivity|].
  destruct (Create_returns_only_if exactFloat64 exampleUUID exampleRepos "o1"
              exampleRequest _ eq_refl)
    as (_ & _ & _ & _ & Hstatus & _).
  split; [reflexivity|exact Hstatus].
Defined.

(** *** A full single-elimination tournament *)

Section FullTournament.
Context (fl : Float64Ops) (createUUID : nat → string) (createRepos : Repos).
Context (sortSlice : ∀ A : Type, (A → A → bool) → list A → list A).
Context (entropy : nat → Z) (GenerateUUID : nat → string).
Context (generateDoubleEliminationFixtures generateGroupToKnockoutFixtures
         generateSwissFirstRound
  : Tournament.t → list Participant.t → result (list Match.t)).
Context (repos : Repos).

(** X19: take a single-elimination tournament that [Create] returned with
    [MaxMatchesPerDay * days] as the binding constraint, so that its capacity
    is that number plus one.  Once registration is closed with as many
    participants as the capacity, and the capacity is not a power of two,
    [GenerateFixtures] fails with the capacity error: the bracket needs
    [2 ^ ceil(log2 n) - 1] matches, more than the [n - 1] the capacity was
    calculated for. *)
Theorem full_single_elimination_rejected (organizerID : string) (req : Req.t)
    (created stored : Tournament.t) (tournamentID seedingMethod : string)
    (seedingData : list SeedingData) (participants : list Participant.t) :
  let slots :=
    GoInt.mul (Req.MaxMatchesPerDay req)
      (calculateTournamentDays (Req.StartDate req) (Req.EndDate req)) in
  Create fl createUUID createRepos organizerID req = Ret created →
  Req.FormatType req = FormatSingleElimination →
  totalMatchSlots req = Ret slots →
  slots < GoInt.max_int →
  SortContract sortSlice →
  TournamentGetByIDWithDetails repos tournamentID = Some stored →
  Tournament.FormatType stored = Tournament.FormatType created →
  Tournament.MaxMatchesPerDay stored = Tournament.MaxMatchesPerDay created →
  Tournament.StartDate stored = Tournament.StartDate created →
  Tournament.EndDate stored = Tournament.EndDate created →
  Tournament.Status stored = StatusRegistrationClosed →
  GetByTournamentID repos tournamentID = Some participants →
  Z.of_nat (length participants) = Tournament.CapacityLimit created →
  ¬ validSize (Tournament.CapacityLimit created) →
  GenerateFixtures sortSlice entropy GenerateUUID
    generateDoubleEliminationFixtures generateGroupToKnockoutFixtures
    generateSwissFirstRound repos tournamentID seedingMethod seedingData
  = Fail ErrCapacityExceeded.
Proof.
  intros slots Hcreate Hformat Hslots Hfit Hsort Hget Hf Hmax Hstart Hend Hstatus
    Hparts Hfull Hnot.
  destruct (Create_inv _ _ _ _ _ _ Hcreate)
    as (Hcap & Hge & _ & _ & _ & _ & Hformat' & Hmax' & Hstart' & Hend' & _).
  assert (Hlimit : Tournament.CapacityLimit created = slots + 1).
  { unfold calculateTournamentCapacity in Hcap. rewrite Hslots in Hcap.
    cbn [mbind result_bind] in Hcap. unfold formatCapacity in Hcap.
    rewrite decide_True in Hcap by done. injection Hcap as <-.
    unfold GoInt.add. apply wrap_id.
    pose proof (wrap_range (Req.MaxMatchesPerDay req
                  * calculateTournamentDays (Req.StartDate req) (Req.EndDate req)))
      as Hrange.
    fold (GoInt.mul (Req.MaxMatchesPerDay req)
            (calculateTournamentDays (Req.StartDate req) (Req.EndDate req))) in *.
    fold slots in Hrange. unfold GoInt.min_int, GoInt.max_int in *. lia. }
  set (n := Z.of_nat (length participants)) in *.
  assert (Hn : 2 ≤ n) by lia.
  destruct (GenerateFixtures_capacity_of_count sortSlice entropy GenerateUUID
              generateDoubleEliminationFixtures generateGroupToKnockoutFixtures
              generateSwissFirstRound repos tournamentID seedingMethod seedingData
              stored participants (2 ^ ceilLog2 n - 1) Hsort Hget Hstatus Hparts)
    as [Hfail _]; [lia| |].
  { intros seeded Hlen. unfold generateByFormat.
    rewrite decide_True by congruence.
    destruct (generateSingleEliminationFixtures_size GenerateUUID stored seeded)
      as (fx & Hfx & Hcount & _); [lia|].
    exists fx. split; [done|]. unfold n. by rewrite <- Hlen. }
  apply Hfail. rewrite Hmax, Hstart, Hend, Hmax', Hstart', Hend'. fold slots.
  pose proof (ceilLog2_bounds n Hn) as [_ Hle]. unfold pow2 in Hle.
  assert (n ≠ 2 ^ ceilLog2 n).
  { intros Heq. apply Hnot. rewrite <- Hfull. exists (ceilLog2 n).
    split; [by apply ceilLog2_pos|done]. }
  lia.
Qed.
End FullTournament.

Lemma full_single_elimination_rejected_witness :
  ∃ created,
    Create exactFloat64 exampleUUID exampleRepos "o1" exampleRequest = Ret created ∧
    Z.of_nat (length exampleFive) = Tournament.CapacityLimit created ∧
    ¬ validSize (Tournament.CapacityLimit created) ∧
    GenerateFixtures mergeSortSlice exampleEntropy exampleUUID noFixtures noFixtures
      noFixtures exampleFullRepos "t1" "manual" [] = Fail ErrCapacityExceeded.
Proof.
  eexists. split; [vm_compute; reflexivity|].
  assert (Hnot : ¬ validSize 5).
  { intros (k & Hk & Heq).
    assert (k < 3) by (apply (Z.pow_lt_mono_r_iff 2); lia).
    assert (k = 1 ∨ k = 2) as [-> | ->] by lia; discriminate. }
  split; [reflexivity|]. split; [exact Hnot|].
  eapply (full_single_elimination_rejected exactFloat64 exampleUUID exampleRepos
            mergeSortSlice exampleEntropy exampleUUID noFixtures noFixtures
            noFixtures exampleFullRepos "o1" exampleRequest _ exampleTournament
            "t1" "manual" [] exampleFive);
    [vm_compute; reflexivity | reflexivity | reflexivity | by vm_compute
    | exact mergeSortSlice_contract | reflexivity | reflexivity | reflexivity
    | reflexivity | reflexivity | reflexivity | reflexivity | reflexivity
    | exact Hnot ].
Defined.

(** ** The match service *)

(** *** What the calls leave in every row *)

Section Keeps.
Context (rel : relation MatchRow.t) `{!Reflexive rel, !Transitive rel}.

Lemma Forall2_rel_refl (table : list MatchRow.t) : Forall2 rel table table.
Proof. by apply Forall_Forall2_diag, Forall_forall. Qed.

Lemma Forall2_rel_trans (t1 t2 t3 : list MatchRow.t) :
  Forall2 rel t1 t2 → Forall2 rel t2 t3 → Forall2 rel t1 t3.
Proof.
  intros H12. revert t3.
  induction H12 as [|r1 r2 t1 t2 Hr H12 IH]; intros t3 H23;
    inversion H23; subst; constructor; [by etrans|by apply IH].
Qed.

Lemma keeps_ret {A} (a : A) : keeps rel (mret a).
Proof. intros table. apply Forall2_rel_refl. Qed.

Lemma keeps_raise {A} (e : MatchError) : keeps rel (raise (A := A) e).
Proof. intros table. apply Forall2_rel_refl. Qed.

Lemma keeps_bind {A B} (m : svc A) (f : A → svc B) :
  keeps rel m → (∀ a, keeps rel (f a)) → keeps rel (m ≫= f).
Proof.
  intros Hm Hf table. specialize (Hm table).
  unfold mbind, svc_bind. destruct (m table) as [table' [e|a]]; [done|].
  eapply Forall2_rel_trans; [exact Hm|apply Hf].
Qed.

Lemma keeps_wrapError {A} (e : MatchError) (m : svc A) :
  keeps rel m → keeps rel (wrapError e m).
Proof.
  intros Hm table. specialize (Hm table). unfold wrapError.
  by destruct (m table) as [table' [e'|a]].
Qed.

Lemma keeps_GetByID (ok : bool) (id : string) :
  keeps rel (MatchRepository.GetByID ok id).
Proof.
  intros table. unfold MatchRepository.GetByID.
  destruct ok; [|apply Forall2_rel_refl].
  destruct (head _); apply Forall2_rel_refl.
Qed.

Lemma keeps_transactionCall (ok : bool) : keeps rel (MatchService.transactionCall ok).
Proof. intros table. destruct ok; apply Forall2_rel_refl. Qed.

Lemma keeps_updateWhere (ok : bool) (id : string) (set : MatchRow.t → MatchRow.t) :
  (∀ r, rel r (set r)) → keeps rel (MatchRepository.updateWhere ok id set).
Proof.
  intros Hset table. unfold MatchRepository.updateWhere.
  destruct ok; [|apply Forall2_rel_refl]. cbn [fst].
  apply Forall2_fmap_r, Forall_Forall2_diag, Forall_forall. intros r _.
  unfold compose. by case_decide.
Qed.

Lemma keeps_runCalls (calls : list (Outcomes * MatchCall)) :
  (∀ o matchID scheduledTime venueID,
     keeps rel (MatchService.UpdateSchedule o matchID scheduledTime venueID)) →
  (∀ o matchID score1 score2,
     keeps rel (MatchService.ReportScore o matchID score1 score2)) →
  (∀ o matchID, keeps rel (MatchService.StartMatch o matchID)) →
  (∀ o matchID reason, keeps rel (MatchService.CancelMatch o matchID reason)) →
  ∀ table, Forall2 rel table (runCalls calls table).
Proof.
  intros Hschedule Hreport Hstart Hcancel. unfold runCalls.
  induction calls as [|[o c] calls IH] using rev_ind; intros table.
  { apply Forall2_rel_refl. }
  rewrite foldl_app. cbn [foldl]. eapply Forall2_rel_trans; [apply IH|].
  unfold runCall. cbn [fst snd].
  destruct c; [apply Hschedule|apply Hreport|apply Hstart|apply Hcancel].
Qed.
End Keeps.

Global Instance bracketColumns_refl :
  Reflexive (λ r r', bracketColumns r = bracketColumns r').
Proof. by intros r. Qed.
Global Instance bracketColumns_trans :
  Transitive (λ r r', bracketColumns r = bracketColumns r').
Proof. intros r1 r2 r3. congruence. Qed.

Section KeepsBracket.
Local Abbreviation same := (λ r r' : MatchRow.t, bracketColumns r = bracketColumns r').

Lemma UpdateSchedule_keeps_bracket (o : Outcomes) (matchID : string)
    (scheduledTime : Time) (venueID : string) :
  keeps same (MatchService.UpdateSchedule o matchID scheduledTime venueID).
Proof.
  unfold MatchService.UpdateSchedule.
  apply keeps_bind; [apply _|apply keeps_GetByID; apply _|]. intros m.
  apply keeps_bind; [apply _| |].
  - case_decide; [|apply keeps_ret; apply _].
    destruct (venueTournament o venueID); [|apply keeps_raise; apply _].
    case_decide; [apply keeps_raise|apply keeps_ret]; apply _.
  - intros _. apply keeps_updateWhere; [apply _|done].
Qed.

Lemma advanceWinner_keeps_bracket (o : Outcomes) (nextID winnerID : string) :
  keeps same (MatchService.advanceWinner o nextID winnerID).
Proof.
  unfold MatchService.advanceWinner.
  apply keeps_bind; [apply _|apply keeps_wrapError, keeps_GetByID; apply _|].
  intros nextMatch. apply keeps_bind; [apply _| |].
  - repeat case_decide; (apply keeps_ret || apply keeps_raise); apply _.
  - intros m. apply keeps_wrapError, keeps_updateWhere; [apply _|done].
Qed.

Lemma ReportScore_keeps_bracket (o : Outcomes) (matchID : string) (score1 score2 : Z) :
  keeps same (MatchService.ReportScore o matchID score1 score2).
Proof.
  unfold MatchService.ReportScore.
  apply keeps_bind; [apply _|apply keeps_GetByID; apply _|]. intros m.
  case_decide; [apply keeps_raise; apply _|].
  destruct (MatchService.winnerOf m score1 score2) as [winnerID|];
    [|apply keeps_raise; apply _].
  apply keeps_bind; [apply _|apply keeps_transactionCall; apply _|]. intros _.
  apply keeps_bind; [apply _| |].
  { apply keeps_wrapError, keeps_updateWhere; [apply _|done]. }
  intros _. apply keeps_bind; [apply _| |].
  { destruct (MatchRow.NextMatchID m);
      [apply advanceWinner_keeps_bracket|apply keeps_ret; apply _]. }
  intros _. apply keeps_transactionCall; apply _.
Qed.

Lemma StartMatch_keeps_bracket (o : Outcomes) (matchID : string) :
  keeps same (MatchService.StartMatch o matchID).
Proof. apply keeps_updateWhere; [apply _|done]. Qed.

Lemma CancelMatch_keeps_bracket (o : Outcomes) (matchID reason : string) :
  keeps same (MatchService.CancelMatch o matchID reason).
Proof.
  unfold MatchService.CancelMatch.
  apply keeps_bind; [apply _|apply keeps_GetByID; apply _|]. intros m.
  case_decide; [apply keeps_raise; apply _|].
  apply keeps_updateWhere; [apply _|done].
Qed.
End KeepsBracket.

(** X20: no sequence of calls of the match service (schedule update, score
    report, start, cancellation), whatever statements fail, adds or removes
    a row or changes the participants or the next-match link of a row: the
    winner that [ReportScore] puts into the next match is never stored. *)
Theorem match_service_keeps_bracket (calls : list (Outcomes * MatchCall))
    (table : list MatchRow.t) :
  bracketColumns <$> runCalls calls table = bracketColumns <$> table.
Proof.
  symmetry. apply list_eq_Forall2, Forall2_fmap.
  apply (keeps_runCalls (λ r r', bracketColumns r = bracketColumns r')).
  - apply UpdateSchedule_keeps_bracket.
  - apply ReportScore_keeps_bracket.
  - apply StartMatch_keeps_bracket.
  - apply CancelMatch_keeps_bracket.
Qed.

Lemma match_service_keeps_bracket_witness :
  bracketColumns
    <$> runCalls [(allOk, CallStartMatch "0"); (allOk, CallReportScore "0" 2 1)]
          (newRow <$> linkBracketProgression
                        (bracket exampleUUID exampleTournament 3 4 [0; 3; 1; 2]
                           (placeParticipants exampleParticipants) [1; 2] 0) 2)
  = bracketColumns
      <$> (newRow <$> linkBracketProgression
                        (bracket exampleUUID exampleTournament 3 4 [0; 3; 1; 2]
                           (placeParticipants exampleParticipants) [1; 2] 0) 2).
Proof. apply match_service_keeps_bracket. Defined.

(** *** Schedule updates and cancellations *)

Global Instance stateColumns_refl :
  Reflexive (λ r r', MatchRow.Fixture r = MatchRow.Fixture r'
                     ∧ resultColumns r = resultColumns r').
Proof. by intros r. Qed.
Global Instance stateColumns_trans :
  Transitive (λ r r', MatchRow.Fixture r = MatchRow.Fixture r'
                      ∧ resultColumns r = resultColumns r').
Proof. intros r1 r2 r3 [? ?] [? ?]. split; congruence. Qed.

(** X21: [UpdateSchedule] and [CancelMatch] change no column of any row
    but the schedule, the venue, the referee and the notes: the status
    scheduled that [UpdateSchedule] sets on the match, and the status
    cancelled that [CancelMatch] sets, are not stored. *)
Theorem schedule_calls_keep_state (o : Outcomes) (matchID : string)
    (scheduledTime : Time) (venueID reason : string) (table : list MatchRow.t) :
  let unchanged table' :=
    Forall2 (λ r r', MatchRow.Fixture r = MatchRow.Fixture r'
                     ∧ resultColumns r = resultColumns r') table table' in
  unchanged (MatchService.UpdateSchedule o matchID scheduledTime venueID table).1 ∧
  unchanged (MatchService.CancelMatch o matchID reason table).1.
Proof.
  set (rel := λ r r', MatchRow.Fixture r = MatchRow.Fixture r'
                      ∧ resultColumns r = resultColumns r').
  intros unchanged. split.
  - assert (H : keeps rel
              (MatchService.UpdateSchedule o matchID scheduledTime venueID));
      [|apply H].
    unfold MatchService.UpdateSchedule.
    apply keeps_bind; [apply _|apply keeps_GetByID; apply _|]. intros m.
    apply keeps_bind; [apply _| |].
    + case_decide; [|apply keeps_ret; apply _].
      destruct (venueTournament o venueID); [|apply keeps_raise; apply _].
      case_decide; [apply keeps_raise|apply keeps_ret]; apply _.
    + intros _. apply keeps_updateWhere; [apply _|done].
  - assert (H : keeps rel (MatchService.CancelMatch o matchID reason)); [|apply H].
    unfold MatchService.CancelMatch.
    apply keeps_bind; [apply _|apply keeps_GetByID; apply _|]. intros m.
    case_decide; [apply keeps_raise; apply _|].
    apply keeps_updateWhere; [apply _|done].
Qed.

(** *** Score reports *)

Lemma head_filter_ID_fmap (f : MatchRow.t → MatchRow.t) (id : string)
    (table : list MatchRow.t) :
  (∀ r, MatchRow.ID (f r) = MatchRow.ID r) →
  head (filter (λ r, MatchRow.ID r = id) (f <$> table))
  = f <$> head (filter (λ r, MatchRow.ID r = id) table).
Proof.
  intros Hid. induction table as [|r table IH]; [done|].
  rewrite fmap_cons, !filter_cons, Hid. by case_decide.
Qed.

Lemma head_filter_elem_of (id : string) (table : list MatchRow.t) (m : MatchRow.t) :
  head (filter (λ r, MatchRow.ID r = id) table) = Some m →
  m ∈ table ∧ MatchRow.ID m = id.
Proof.
  intros Hm. apply head_Some_elem_of in Hm.
  by apply list_elem_of_filter in Hm as [? ?].
Qed.

Lemma NoDup_ID_eq (table : list MatchRow.t) (r m : MatchRow.t) :
  NoDup (MatchRow.ID <$> table) → r ∈ table → m ∈ table →
  MatchRow.ID r = MatchRow.ID m → r = m.
Proof.
  intros Hnd Hr Hm Hid.
  apply list_elem_of_lookup_1 in Hr as [i Hi], Hm as [j Hj].
  pose proof (NoDup_fmap_lookup MatchRow.ID table i j r m Hnd Hi Hj Hid) as ->.
  congruence.
Qed.

Lemma setSchedule_same (r : MatchRow.t) :
  MatchRow.setSchedule (MatchRow.ScheduledDatetime r) (MatchRow.VenueID r)
    (MatchRow.RefereeID r) (MatchRow.Notes r) r = r.
Proof. by destruct r. Qed.

(** With distinct identifiers, writing back the schedule of a row that was
    read from the table changes nothing. *)
Lemma Update_read_back (table : list MatchRow.t) (m m' : MatchRow.t) :
  NoDup (MatchRow.ID <$> table) → m ∈ table →
  MatchRow.ID m' = MatchRow.ID m →
  MatchRow.ScheduledDatetime m' = MatchRow.ScheduledDatetime m →
  MatchRow.VenueID m' = MatchRow.VenueID m →
  MatchRow.RefereeID m' = MatchRow.RefereeID m →
  MatchRow.Notes m' = MatchRow.Notes m →
  MatchRepository.Update true m' table = (table, inr ()).
Proof.
  intros Hnd Hm Hid Hs Hv Hf Hn.
  unfold MatchRepository.Update, MatchRepository.updateWhere.
  rewrite Hs, Hv, Hf, Hn, Hid. f_equal.
  rewrite <- (list_fmap_id table) at 2. apply list_fmap_ext.
  intros i r Hr. apply list_elem_of_lookup_2 in Hr. cbn.
  case_decide as Heq; [|done].
  assert (r = m) as -> by (eapply NoDup_ID_eq; eauto).
  apply setSchedule_same.
Qed.

(** [ReportScore], step by step. *)
Lemma ReportScore_unfold (o : Outcomes) (matchID : string) (score1 score2 : Z)
    (table : list MatchRow.t) :
  MatchService.ReportScore o matchID score1 score2 table
  = if getMatchOk o then
      match head (filter (λ r, MatchRow.ID r = matchID) table) with
      | None => (table, inl ErrMatchNotFound)
      | Some m =>
          if decide (MatchRow.Status m ≠ MatchScheduled
                     ∧ MatchRow.Status m ≠ MatchInProgress)
          then (table, inl ErrScoreNotReportable)
          else
            match MatchService.winnerOf m score1 score2 with
            | None => (table, inl ErrTieScore)
            | Some winnerID =>
                if beginTxOk o then
                  if updateScoreOk o then
                    ((match MatchRow.NextMatchID m with
                      | Some nextID => MatchService.advanceWinner o nextID winnerID
                      | None => mret ()
                      end) ≫= λ _, MatchService.transactionCall (commitOk o))
                      (recordScore matchID score1 score2 winnerID table)
                  else (table, inl ErrUpdateScore)
                else (table, inl ErrDatabase)
            end
      end
    else (table, inl ErrDatabase).
Proof.
  unfold MatchService.ReportScore, MatchRepository.GetByID.
  unfold mbind at 1, svc_bind at 1.
  destruct (getMatchOk o); [|done].
  destruct (head _) as [m|]; [|done].
  case_decide; [done|].
  destruct (MatchService.winnerOf m score1 score2) as [winnerID|]; [|done].
  unfold mbind at 1, svc_bind at 1. unfold MatchService.transactionCall at 1.
  destruct (beginTxOk o); [|done]. cbn [mret svc_ret raise].
  unfold mbind at 1, svc_bind at 1.
  unfold wrapError, MatchRepository.UpdateScore, MatchRepository.updateWhere.
  destruct (updateScoreOk o); [|done]. done.
Qed.

Lemma recordScore_ID (matchID : string) (score1 score2 : Z) (winnerID : string)
    (table : list MatchRow.t) :
  MatchRow.ID <$> recordScore matchID score1 score2 winnerID table
  = MatchRow.ID <$> table.
Proof.
  unfold recordScore. rewrite <- list_fmap_compose. apply list_fmap_ext.
  intros i r _. cbn. by case_decide.
Qed.

(** With distinct identifiers the progression step leaves the table as it
    is, and succeeds only if the next match has a free slot. *)
Lemma advanceWinner_table (o : Outcomes) (nextID winnerID : string)
    (table table' : list MatchRow.t) (res : MatchError + ()) :
  NoDup (MatchRow.ID <$> table) →
  MatchService.advanceWinner o nextID winnerID table = (table', res) →
  table' = table ∧
  (res = inr () →
   ∃ next, next ∈ table ∧ MatchRow.ID next = nextID ∧
           (MatchRow.Participant1ID next = None
            ∨ MatchRow.Participant2ID next = None)).
Proof.
  intros Hnd. unfold MatchService.advanceWinner.
  unfold mbind at 1, svc_bind at 1. unfold wrapError at 1.
  unfold MatchRepository.GetByID.
  destruct (getNextMatchOk o); [|by intros [= <- <-]].
  destruct (head _) as [next|] eqn:Hnext; [|by intros [= <- <-]].
  apply head_filter_elem_of in Hnext as [Hin Hid].
  unfold mbind, svc_bind.
  destruct (decide (MatchRow.Participant1ID next = None)) as [Hp1|Hp1].
  - cbn [mret svc_ret]. unfold wrapError. destruct (updateOk o).
    + rewrite (Update_read_back table next) by done. intros [= <- <-].
      split; [done|]. intros _. exists next. auto.
    + by intros [= <- <-].
  - destruct (decide (MatchRow.Participant2ID next = None)) as [Hp2|Hp2];
      [|by intros [= <- <-]].
    cbn [mret svc_ret]. unfold wrapError. destruct (updateOk o).
    + rewrite (Update_read_back table next) by done. intros [= <- <-].
      split; [done|]. intros _. exists next. auto.
    + by intros [= <- <-].
Qed.

Lemma winnerOf_Some (m : MatchRow.t) (score1 score2 : Z) (winnerID : string) :
  MatchService.winnerOf m score1 score2 = Some winnerID ↔
  (score1 > score2 ∧ MatchRow.Participant1ID m = Some winnerID) ∨
  (score2 > score1 ∧ MatchRow.Participant2ID m = Some winnerID).
Proof.
  unfold MatchService.winnerOf. split.
  - case_decide as H1; [intros ?; left; by destruct H1|].
    case_decide as H2; [intros ?; right; by destruct H2|done].
  - intros [[Hs Hp]|[Hs Hp]].
    + rewrite decide_True; [done|]. split; [done|]. by rewrite Hp.
    + rewrite decide_False by lia. rewrite decide_True; [done|].
      split; [done|]. by rewrite Hp.
Qed.

Lemma ReportScore_inv (o : Outcomes) (matchID : string)
    (score1 score2 : Z) (table table' : list MatchRow.t) :
  NoDup (MatchRow.ID <$> table) →
  MatchService.ReportScore o matchID score1 score2 table = (table', inr ()) →
  ∃ m winnerID,
    head (filter (λ r, MatchRow.ID r = matchID) table) = Some m ∧
    (MatchRow.Status m = MatchScheduled ∨ MatchRow.Status m = MatchInProgress) ∧
    MatchService.winnerOf m score1 score2 = Some winnerID ∧
    table' = recordScore matchID score1 score2 winnerID table ∧
    (∀ nextID, MatchRow.NextMatchID m = Some nextID →
       ∃ next, next ∈ table' ∧ MatchRow.ID next = nextID ∧
               (MatchRow.Participant1ID next = None
                ∨ MatchRow.Participant2ID next = None)).
Proof.
  intros Hnd. rewrite ReportScore_unfold.
  destruct (getMatchOk o); [|done].
  destruct (head _) as [m|] eqn:Hm; [|done].
  case_decide as Hstatus; [done|].
  destruct (MatchService.winnerOf m score1 score2) as [winnerID|] eqn:Hw; [|done].
  destruct (beginTxOk o); [|done]. destruct (updateScoreOk o); [|done].
  set (recorded := recordScore matchID score1 score2 winnerID table).
  assert (Hnd' : NoDup (MatchRow.ID <$> recorded))
    by (unfold recorded; by rewrite recordScore_ID).
  unfold mbind, svc_bind. intros Hres.
  assert (Hnext : table' = recorded ∧
            ∀ nextID, MatchRow.NextMatchID m = Some nextID →
              ∃ next, next ∈ recorded ∧ MatchRow.ID next = nextID ∧
                      (MatchRow.Participant1ID next = None
                       ∨ MatchRow.Participant2ID next = None)).
  { destruct (MatchRow.NextMatchID m) as [nextID|].
    - destruct (MatchService.advanceWinner o nextID winnerID recorded)
        as [table1 [e|[]]] eqn:Hadv; [done|].
      destruct (advanceWinner_table o nextID winnerID recorded _ _ Hnd' Hadv)
        as [-> Hok]. specialize (Hok eq_refl).
      unfold MatchService.transactionCall in Hres.
      destruct (commitOk o); [|done]. injection Hres as <-.
      split; [done|]. by intros ? [= <-].
    - cbn [mret svc_ret] in Hres. unfold MatchService.transactionCall in Hres.
      destruct (commitOk o); [|done]. injection Hres as <-. done. }
  destruct Hnext as [-> Hnext].
  exists m, winnerID. split; [done|]. split.
  { destruct (decide (MatchRow.Status m = MatchScheduled)); [by left|].
    destruct (decide (MatchRow.Status m = MatchInProgress)); [by right|].
    exfalso. by apply Hstatus. }
  split; [done|]. split; [done|exact Hnext].
Qed.

(** X22: with distinct match identifiers, [ReportScore] returns without
    an error only if the match exists with the status scheduled or in
    progress and the higher score belongs to a participant that is set;
    the table is then the old one with the scores, that participant as the
    winner and the status completed in the row of the match, and nothing
    else changed; a next match, if the match has one, had a free slot. *)
Theorem ReportScore_returns_only_if (o : Outcomes) (matchID : string)
    (score1 score2 : Z) (table table' : list MatchRow.t) :
  NoDup (MatchRow.ID <$> table) →
  MatchService.ReportScore o matchID score1 score2 table = (table', inr ()) →
  ∃ m winnerID,
    m ∈ table ∧ MatchRow.ID m = matchID ∧
    (MatchRow.Status m = MatchScheduled ∨ MatchRow.Status m = MatchInProgress) ∧
    ((score1 > score2 ∧ MatchRow.Participant1ID m = Some winnerID) ∨
     (score2 > score1 ∧ MatchRow.Participant2ID m = Some winnerID)) ∧
    table' = recordScore matchID score1 score2 winnerID table ∧
    (∀ nextID, MatchRow.NextMatchID m = Some nextID →
       ∃ next, next ∈ table' ∧ MatchRow.ID next = nextID ∧
               (MatchRow.Participant1ID next = None
                ∨ MatchRow.Participant2ID next = None)).
Proof.
  intros Hnd Hres.
  destruct (ReportScore_inv o matchID score1 score2 table table' Hnd Hres)
    as (m & winnerID & Hm & Hstatus & Hw & Htable & Hnext).
  apply head_filter_elem_of in Hm as [Hin Hid].
  exists m, winnerID. split; [done|]. split; [done|]. split; [done|].
  split; [by apply winnerOf_Some|]. split; [done|exact Hnext].
Qed.

(** X23: [ReportScore] is not atomic.  When the match can be reported
    and the score is written, a next match that already has both
    participants makes the call fail after the write, and so does a failing
    commit: the error is returned and the table holds the score, the winner
    and the status completed. *)
Theorem ReportScore_not_atomic (o : Outcomes) (matchID : string)
    (score1 score2 : Z) (table : list MatchRow.t) (m : MatchRow.t)
    (winnerID : string) :
  getMatchOk o = true →
  head (filter (λ r, MatchRow.ID r = matchID) table) = Some m →
  MatchRow.Status m = MatchScheduled ∨ MatchRow.Status m = MatchInProgress →
  MatchService.winnerOf m score1 score2 = Some winnerID →
  beginTxOk o = true → updateScoreOk o = true →
  let recorded := recordScore matchID score1 score2 winnerID table in
  (∀ nextID next,
     MatchRow.NextMatchID m = Some nextID → getNextMatchOk o = true →
     head (filter (λ r, MatchRow.ID r = nextID) table) = Some next →
     MatchRow.Participant1ID next ≠ None → MatchRow.Participant2ID next ≠ None →
     MatchService.ReportScore o matchID score1 score2 table
     = (recorded, inl ErrNextMatchFull)) ∧
  (MatchRow.NextMatchID m = None → commitOk o = false →
   MatchService.ReportScore o matchID score1 score2 table
   = (recorded, inl ErrDatabase)) ∧
  (∃ m', head (filter (λ r, MatchRow.ID r = matchID) recorded) = Some m' ∧
         MatchRow.Status m' = MatchCompleted ∧
         MatchRow.WinnerID m' = Some winnerID).
Proof.
  intros Hget Hm Hstatus Hw Hbegin Hscore recorded.
  assert (Hunfold : MatchService.ReportScore o matchID score1 score2 table
    = ((match MatchRow.NextMatchID m with
        | Some nextID => MatchService.advanceWinner o nextID winnerID
        | None => mret ()
        end) ≫= λ _, MatchService.transactionCall (commitOk o)) recorded).
  { rewrite ReportScore_unfold, Hget, Hm, Hw, Hbegin, Hscore.
    rewrite decide_False; [done|]. intros [H1 H2]. by destruct Hstatus. }
  assert (Hkeep : ∀ id,
    head (filter (λ r, MatchRow.ID r = id) recorded)
    = (λ r, if decide (MatchRow.ID r = matchID)
            then MatchRow.setStatus MatchCompleted
                   (MatchRow.setScore score1 score2 winnerID r)
            else r) <$> head (filter (λ r, MatchRow.ID r = id) table)).
  { intros id. apply head_filter_ID_fmap. intros r. by case_decide. }
  split; [|split].
  - intros nextID next Hnext Hgetnext Hnextrow Hp1 Hp2.
    rewrite Hunfold, Hnext. unfold mbind at 1, svc_bind at 1.
    unfold MatchService.advanceWinner.
    unfold mbind at 1, svc_bind at 1. unfold wrapError at 1.
    unfold MatchRepository.GetByID. rewrite Hgetnext, Hkeep, Hnextrow.
    cbn [fmap option_fmap option_map].
    unfold mbind, svc_bind.
    rewrite !decide_False; [done| |]; by case_decide.
  - intros Hnext Hcommit. rewrite Hunfold, Hnext, Hcommit. done.
  - rewrite Hkeep, Hm. cbn [fmap option_fmap option_map].
    apply head_filter_elem_of in Hm as [_ Hid]. rewrite decide_True by done.
    eexists. split; [done|]. done.
Qed.

Lemma ReportScore_returns_only_if_witness :
  NoDup (MatchRow.ID <$> exampleTable) ∧
  ∃ table' winnerID,
    MatchService.ReportScore allOk "m1" 2 1 exampleTable = (table', inr ()) ∧
    table' = recordScore "m1" 2 1 winnerID exampleTable.
Proof.
  assert (Hnd : NoDup (MatchRow.ID <$> exampleTable))
    by (apply (bool_decide_unpack _); by vm_compute).
  split; [exact Hnd|].
  destruct (ReportScore_returns_only_if allOk "m1" 2 1 exampleTable _ Hnd eq_refl)
    as (m & winnerID & _ & _ & _ & _ & Htable & _).
  eexists _, winnerID. split; [reflexivity|exact Htable].
Defined.

Lemma ReportScore_not_atomic_witness :
  MatchService.ReportScore allOk "m1" 2 1 exampleFullTable
  = (recordScore "m1" 2 1 "a" exampleFullTable, inl ErrNextMatchFull).
Proof.
  destruct (ReportScore_not_atomic allOk "m1" 2 1 exampleFullTable
              (exampleRow "m1" MatchScheduled (Some "a") (Some "b") (Some "m3"))
              "a" eq_refl eq_refl (or_introl eq_refl) eq_refl eq_refl eq_refl)
    as [Hfull _].
  exact (Hfull "m3" (exampleRow "m3" MatchPending (Some "c") (Some "d") None)
           eq_refl eq_refl eq_refl ltac:(discriminate) ltac:(discriminate)).
Defined.

(** *** Matches without participants *)

Global Instance staysOpen_refl : Reflexive staysOpen.
Proof. intros r. split; [done|]. by intros _ _. Qed.

Global Instance staysOpen_trans : Transitive staysOpen.
Proof.
  intros r1 r2 r3 [Hb12 H12] [Hb23 H23]. split; [congruence|].
  intros Hp1 Hp2. destruct (H12 Hp1 Hp2) as [Hs12 Hw12].
  assert (Hp1' : MatchRow.Participant1ID r2 = None).
  { unfold bracketColumns in Hb12. congruence. }
  assert (Hp2' : MatchRow.Participant2ID r2 = None).
  { unfold bracketColumns in Hb12. congruence. }
  destruct (H23 Hp1' Hp2') as [Hs23 Hw23]. split; auto.
Qed.

Lemma staysOpen_setSchedule (scheduled : option Time) (venue referee notes : option string)
    (r : MatchRow.t) :
  staysOpen r (MatchRow.setSchedule scheduled venue referee notes r).
Proof. split; [done|]. by intros _ _. Qed.

Lemma UpdateSchedule_staysOpen (o : Outcomes) (matchID : string)
    (scheduledTime : Time) (venueID : string) :
  keeps staysOpen (MatchService.UpdateSchedule o matchID scheduledTime venueID).
Proof.
  unfold MatchService.UpdateSchedule.
  apply keeps_bind; [apply _|apply keeps_GetByID; apply _|]. intros m.
  apply keeps_bind; [apply _| |].
  - case_decide; [|apply keeps_ret; apply _].
    destruct (venueTournament o venueID); [|apply keeps_raise; apply _].
    case_decide; [apply keeps_raise|apply keeps_ret]; apply _.
  - intros _. apply keeps_updateWhere; [apply _|].
    intros r. apply staysOpen_setSchedule.
Qed.

Lemma CancelMatch_staysOpen (o : Outcomes) (matchID reason : string) :
  keeps staysOpen (MatchService.CancelMatch o matchID reason).
Proof.
  unfold MatchService.CancelMatch.
  apply keeps_bind; [apply _|apply keeps_GetByID; apply _|]. intros m.
  case_decide; [apply keeps_raise; apply _|].
  apply keeps_updateWhere; [apply _|]. intros r. apply staysOpen_setSchedule.
Qed.

Lemma StartMatch_staysOpen (o : Outcomes) (matchID : string) :
  keeps staysOpen (MatchService.StartMatch o matchID).
Proof.
  apply keeps_updateWhere; [apply _|]. intros r. split; [done|].
  intros _ _. split; [|done]. intros _. by cbn.
Qed.

Lemma advanceWinner_staysOpen (o : Outcomes) (nextID winnerID : string) :
  keeps staysOpen (MatchService.advanceWinner o nextID winnerID).
Proof.
  unfold MatchService.advanceWinner.
  apply keeps_bind; [apply _|apply keeps_wrapError, keeps_GetByID; apply _|].
  intros nextMatch. apply keeps_bind; [apply _| |].
  - repeat case_decide; (apply keeps_ret || apply keeps_raise); apply _.
  - intros m. apply keeps_wrapError, keeps_updateWhere; [apply _|].
    intros r. apply staysOpen_setSchedule.
Qed.

(** With distinct identifiers a score is only recorded in a row that has a
    participant. *)
Lemma ReportScore_staysOpen (o : Outcomes) (matchID : string) (score1 score2 : Z)
    (table : list MatchRow.t) :
  NoDup (MatchRow.ID <$> table) →
  Forall2 staysOpen table (MatchService.ReportScore o matchID score1 score2 table).1.
Proof.
  intros Hnd. rewrite ReportScore_unfold.
  destruct (getMatchOk o); [|apply Forall2_rel_refl; apply _].
  destruct (head _) as [m|] eqn:Hm; [|apply Forall2_rel_refl; apply _].
  apply head_filter_elem_of in Hm as [Hin Hid].
  case_decide; [apply Forall2_rel_refl; apply _|].
  destruct (MatchService.winnerOf m score1 score2) as [winnerID|] eqn:Hw;
    [|apply Forall2_rel_refl; apply _].
  destruct (beginTxOk o); [|apply Forall2_rel_refl; apply _].
  destruct (updateScoreOk o); [|apply Forall2_rel_refl; apply _].
  apply (Forall2_rel_trans staysOpen _
           (recordScore matchID score1 score2 winnerID table)).
  - unfold recordScore. apply Forall2_fmap_r, Forall_Forall2_diag, Forall_forall.
    intros r Hr. unfold compose. case_decide as Heq; [|reflexivity].
    assert (r = m) as -> by (eapply NoDup_ID_eq; eauto; congruence).
    split; [done|]. intros Hp1 Hp2. exfalso.
    apply winnerOf_Some in Hw as [[_ Hp]|[_ Hp]]; congruence.
  - apply (keeps_bind staysOpen).
    + destruct (MatchRow.NextMatchID m);
        [apply advanceWinner_staysOpen|apply keeps_ret; apply _].
    + intros _. apply keeps_transactionCall; apply _.
Qed.

Lemma Forall2_bracketColumns_ID (table table' : list MatchRow.t) :
  Forall2 staysOpen table table' → MatchRow.ID <$> table' = MatchRow.ID <$> table.
Proof.
  intros H. symmetry. apply list_eq_Forall2, Forall2_fmap.
  eapply Forall2_impl; [exact H|]. intros r r' [Hb _].
  unfold bracketColumns in Hb. congruence.
Qed.

Lemma runCalls_staysOpen (calls : list (Outcomes * MatchCall))
    (table : list MatchRow.t) :
  NoDup (MatchRow.ID <$> table) → Forall2 staysOpen table (runCalls calls table).
Proof.
  intros Hnd. unfold runCalls.
  induction calls as [|[o c] calls IH] using rev_ind.
  { apply Forall2_rel_refl; apply _. }
  rewrite foldl_app. cbn [foldl].
  eapply Forall2_rel_trans; [apply _|exact IH|].
  assert (Hnd' : NoDup (MatchRow.ID <$> foldl runCall table calls))
    by (by rewrite (Forall2_bracketColumns_ID _ _ IH)).
  unfold runCall. cbn [fst snd]. destruct c.
  - apply UpdateSchedule_staysOpen.
  - by apply ReportScore_staysOpen.
  - apply StartMatch_staysOpen.
  - apply CancelMatch_staysOpen.
Qed.

(** X24: the rows that [GenerateFixtures] inserts for a single-elimination
    bracket (distinct identifiers, n >= 2 participants) cannot be played to
    the end through the match service: after any sequence of its calls,
    every match of round 2 or later is still without participants, without a
    winner and not completed; with three participants or more such matches
    exist, the final among them. *)
Theorem later_rounds_never_completed (GenerateUUID : nat → string)
    (tournament : Tournament.t) (participants : list Participant.t)
    (calls : list (Outcomes * MatchCall)) :
  Inj (=) (=) GenerateUUID →
  (2 ≤ length participants)%nat →
  ∃ fx,
    generateSingleEliminationFixtures GenerateUUID tournament participants = Ret fx ∧
    (∀ r, r ∈ runCalls calls (newRow <$> fx) →
       2 ≤ Match.RoundNumber (MatchRow.Fixture r) →
       MatchRow.Participant1ID r = None ∧ MatchRow.Participant2ID r = None ∧
       MatchRow.WinnerID r = None ∧ MatchRow.Status r ≠ MatchCompleted) ∧
    ((3 ≤ length participants)%nat →
     ∃ r, r ∈ runCalls calls (newRow <$> fx) ∧
          Match.RoundNumber (MatchRow.Fixture r)
          = ceilLog2 (Z.of_nat (length participants)) ∧
          2 ≤ Match.RoundNumber (MatchRow.Fixture r)).
Proof.
  intros Hinj Hn.
  destruct (generateSingleEliminationFixtures_linked GenerateUUID tournament
              participants) as (bp & Hbp & Hperm & Hgen & Hlinked); [lia|].
  pose proof (ceilLog2_pos (Z.of_nat (length participants)) ltac:(lia)) as Hrounds.
  set (n := Z.of_nat (length participants)) in *.
  set (rounds := ceilLog2 n) in *.
  set (pre := bracket _ _ _ _ _ _ _ _) in *.
  set (fx := linkBracketProgression pre rounds) in *.
  assert (Hnd : NoDup (MatchRow.ID <$> (newRow <$> fx))).
  { rewrite <- list_fmap_compose.
    change (MatchRow.ID ∘ newRow) with Match.ID.
    rewrite (linked_IDs pre fx Hlinked). by apply bracket_NoDup_IDs. }
  pose proof (runCalls_staysOpen calls _ Hnd) as Hopen.
  exists fx. split; [exact Hgen|]. split.
  - intros r' Hr' Hround. apply list_elem_of_lookup_1 in Hr' as [k Hk].
    destruct (Forall2_lookup_r _ _ _ _ _ Hopen Hk) as (r & Hr & [Hb Hkeep]).
    rewrite list_lookup_fmap in Hr.
    destruct (fx !! k) as [m|] eqn:Hm; [|done]. injection Hr as <-.
    destruct (fixture_lookup GenerateUUID tournament n rounds bp
                (placeParticipants participants) Hrounds Hlinked k m Hm)
      as (rd & p & _ & _ & _ & Hrd & Hc).
    apply clearNext_static in Hc as (_ & _ & _ & _ & _ & Hp1 & Hp2 & Hst).
    cbn [roundMatch Match.Participant1ID Match.Participant2ID Match.Status]
      in Hp1, Hp2, Hst.
    unfold bracketColumns in Hb. injection Hb as _ _ Hround' _ _ Hp1' Hp2' _.
    change (Match.Participant1ID m = MatchRow.Participant1ID r') in Hp1'.
    change (Match.Participant2ID m = MatchRow.Participant2ID r') in Hp2'.
    assert (rd ≠ 1) by lia.
    rewrite decide_False in Hp1, Hp2 by done.
    destruct Hkeep as [Hstatus Hwinner].
    { cbn. exact Hp1. }
    { cbn. exact Hp2. }
    split; [congruence|]. split; [congruence|]. split.
    + by apply Hwinner.
    + apply Hstatus. change (Match.Status m ≠ MatchCompleted). by rewrite Hst.
  - intros Hn3.
    assert (Hlast : 2 ≤ rounds).
    { assert (1 < rounds); [|lia].
      unfold rounds, ceilLog2. apply Z.log2_up_lt_pow2; [lia|].
      change (2 ^ 1) with 2. lia. }
    destruct (fixture_at GenerateUUID tournament n rounds bp
                (placeParticipants participants) Hrounds Hlinked rounds 0)
      as (m & Hm & Hc); [lia| |].
    { unfold roundSize. rewrite Z.sub_diag. change (pow2 0) with 1. lia. }
    apply clearNext_static in Hc as (_ & _ & Hrd & _).
    cbn [roundMatch Match.RoundNumber] in Hrd.
    assert (Hrow : (newRow <$> fx) !! (roundOffset rounds rounds + 0)%nat
                   = Some (newRow m)).
    { rewrite list_lookup_fmap. fold pre fx in Hm. by rewrite Hm. }
    destruct (Forall2_lookup_l _ _ _ _ _ Hopen Hrow) as (r' & Hr' & [Hb _]).
    unfold bracketColumns in Hb. injection Hb as _ _ Hround' _ _ _ _ _.
    change (Match.RoundNumber m = Match.RoundNumber (MatchRow.Fixture r'))
      in Hround'.
    exists r'. split; [by eapply list_elem_of_lookup_2|].
    split; [congruence|]. rewrite <- Hround', Hrd. done.
Qed.

Lemma later_rounds_never_completed_witness :
  Inj (=) (=) exampleUUID ∧ (2 ≤ length exampleParticipants)%nat ∧
  ∃ fx,
    generateSingleEliminationFixtures exampleUUID exampleTournament exampleParticipants
      = Ret fx ∧
    ∀ r, r ∈ runCalls [(allOk, CallStartMatch "2"); (allOk, CallReportScore "2" 2 1)]
               (newRow <$> fx) →
      2 ≤ Match.RoundNumber (MatchRow.Fixture r) →
      MatchRow.Status r ≠ MatchCompleted.
Proof.
  assert (Hinj : Inj (=) (=) exampleUUID) by (unfold exampleUUID; apply _).
  split; [exact Hinj|]. split; [simpl; lia|].
  destruct (later_rounds_never_completed exampleUUID exampleTournament
              exampleParticipants
              [(allOk, CallStartMatch "2"); (allOk, CallReportScore "2" 2 1)]
              Hinj ltac:(simpl; lia)) as (fx & Hfx & Hlate & _).
  exists fx. split; [exact Hfx|]. intros r Hr Hround.
  by destruct (Hlate r Hr Hround) as (_ & _ & _ & ?).
Defined.

(** X25: with distinct match identifiers, a match whose score was
    reported cannot be reported again: the second call fails for the status
    and leaves the table as it is. *)
Theorem ReportScore_twice (o o' : Outcomes) (matchID : string)
    (score1 score2 score1' score2' : Z) (table table' : list MatchRow.t) :
  NoDup (MatchRow.ID <$> table) →
  MatchService.ReportScore o matchID score1 score2 table = (table', inr ()) →
  getMatchOk o' = true →
  MatchService.ReportScore o' matchID score1' score2' table'
  = (table', inl ErrScoreNotReportable).
Proof.
  intros Hnd Hres Hget.
  destruct (ReportScore_inv o matchID score1 score2 table table' Hnd Hres)
    as (m & winnerID & Hm & _ & _ & -> & _).
  rewrite ReportScore_unfold, Hget. unfold recordScore at 1.
  rewrite head_filter_ID_fmap by (intros r; by case_decide).
  rewrite Hm. cbn [fmap option_fmap option_map].
  apply head_filter_elem_of in Hm as [_ Hid]. rewrite (decide_True _ _ Hid).
  by rewrite decide_True.
Qed.

Lemma ReportScore_twice_witness :
  NoDup (MatchRow.ID <$> exampleTable) ∧
  ∃ table',
    MatchService.ReportScore allOk "m1" 2 1 exampleTable = (table', inr ()) ∧
    MatchService.ReportScore allOk "m1" 1 2 table'
    = (table', inl ErrScoreNotReportable).
Proof.
  assert (Hnd : NoDup (MatchRow.ID <$> exampleTable))
    by (apply (bool_decide_unpack _); by vm_compute).
  split; [exact Hnd|]. eexists. split; [reflexivity|].
  exact (ReportScore_twice allOk allOk "m1" 2 1 1 2 exampleTable _ Hnd eq_refl
           eq_refl).
Defined.

(** X26: [StartMatch] has no guard: whatever the status of a match,
    completed and cancelled included, starting it makes it reportable, and
    a score reported then replaces the stored result. *)
Theorem StartMatch_reopens (o o' : Outcomes) (matchID : string) (score1 score2 : Z)
    (table : list MatchRow.t) (m : MatchRow.t) (winnerID : string) :
  head (filter (λ r, MatchRow.ID r = matchID) table) = Some m →
  updateStatusOk o = true →
  MatchService.winnerOf m score1 score2 = Some winnerID →
  MatchRow.NextMatchID m = None →
  getMatchOk o' = true → beginTxOk o' = true → updateScoreOk o' = true →
  commitOk o' = true →
  ∃ started,
    MatchService.StartMatch o matchID table = (started, inr ()) ∧
    MatchService.ReportScore o' matchID score1 score2 started
    = (recordScore matchID score1 score2 winnerID started, inr ()).
Proof.
  intros Hm Hstart Hw Hnext Hget Hbegin Hscore Hcommit.
  unfold MatchService.StartMatch, MatchRepository.UpdateStatus,
    MatchRepository.updateWhere. rewrite Hstart.
  eexists. split; [reflexivity|].
  rewrite ReportScore_unfold, Hget, Hbegin, Hscore.
  rewrite head_filter_ID_fmap by (intros r; by case_decide).
  rewrite Hm. cbn [fmap option_fmap option_map].
  pose proof (head_filter_elem_of _ _ _ Hm) as [_ Hid].
  rewrite (decide_True _ _ Hid).
  rewrite decide_False by (intros [_ Hne]; by apply Hne).
  assert (MatchService.winnerOf (MatchRow.setStatus MatchInProgress m) score1 score2
          = Some winnerID) as -> by exact Hw.
  change (MatchRow.NextMatchID (MatchRow.setStatus MatchInProgress m))
    with (MatchRow.NextMatchID m).
  rewrite Hnext. unfold mbind, svc_bind. cbn [mret svc_ret].
  unfold MatchService.transactionCall. by rewrite Hcommit.
Qed.

Lemma StartMatch_reopens_witness :
  ∃ started,
    MatchService.StartMatch allOk "m3" [exampleRow "m3" MatchCompleted (Some "c")
                                          (Some "d") None]
    = (started, inr ()) ∧
    MatchService.ReportScore allOk "m3" 0 1 started
    = (recordScore "m3" 0 1 "d" started, inr ()).
Proof.
  exact (StartMatch_reopens allOk allOk "m3" 0 1
           [exampleRow "m3" MatchCompleted (Some "c") (Some "d") None]
           (exampleRow "m3" MatchCompleted (Some "c") (Some "d") None) "d"
           eq_refl eq_refl eq_refl eq_refl eq_refl eq_refl eq_refl eq_refl).
Defined.

(** ** The handler of fixture generation *)

Section HandlerResponses.
Context (sortSlice : ∀ A : Type, (A → A → bool) → list A → list A).
Context (entropy : nat → Z) (GenerateUUID : nat → string).
Context (generateDoubleEliminationFixtures generateGroupToKnockoutFixtures
         generateSwissFirstRound
  : Tournament.t → list Participant.t → result (list Match.t)).
Context (repos : Repos).

Local Abbreviation generate :=
  (GenerateFixtures sortSlice entropy GenerateUUID
     generateDoubleEliminationFixtures generateGroupToKnockoutFixtures
     generateSwissFirstRound repos).

(** X27: the handler never answers with the bad-request response that it
    has for the capacity error, because the service wraps that error and the
    handler compares with [==]: a capacity error of the service is answered
    with an internal server error, while the error for fewer than two
    participants, returned as it is, is answered with a bad request.  A
    seeding method other than manual, random and skill is refused before the
    service is called. *)
Theorem HandleGenerateFixtures_capacity_response (tournamentID : string) :
  (∀ body,
     HandleGenerateFixtures sortSlice entropy GenerateUUID
       generateDoubleEliminationFixtures generateGroupToKnockoutFixtures
       generateSwissFirstRound repos tournamentID body
     ≠ Ret (StatusBadRequest
              "Tournament format requires more matches than capacity allows")) ∧
  (∀ seedingMethod seedingData,
     seedingMethod ∈ ["manual"; "random"; "skill"] →
     (GenerateFixtures sortSlice entropy GenerateUUID
        generateDoubleEliminationFixtures generateGroupToKnockoutFixtures
        generateSwissFirstRound repos tournamentID seedingMethod seedingData
      = Fail ErrCapacityExceeded →
      HandleGenerateFixtures sortSlice entropy GenerateUUID
        generateDoubleEliminationFixtures generateGroupToKnockoutFixtures
        generateSwissFirstRound repos tournamentID
        (Some (seedingMethod, seedingData))
      = Ret (StatusInternalServerError "Failed to generate fixtures")) ∧
     (GenerateFixtures sortSlice entropy GenerateUUID
        generateDoubleEliminationFixtures generateGroupToKnockoutFixtures
        generateSwissFirstRound repos tournamentID seedingMethod seedingData
      = Fail ErrInsufficientParticipants →
      HandleGenerateFixtures sortSlice entropy GenerateUUID
        generateDoubleEliminationFixtures generateGroupToKnockoutFixtures
        generateSwissFirstRound repos tournamentID
        (Some (seedingMethod, seedingData))
      = Ret (StatusBadRequest "Insufficient participants to generate fixtures"))) ∧
  (∀ seedingMethod seedingData,
     seedingMethod ∉ ["manual"; "random"; "skill"] →
     HandleGenerateFixtures sortSlice entropy GenerateUUID
       generateDoubleEliminationFixtures generateGroupToKnockoutFixtures
       generateSwissFirstRound repos tournamentID
       (Some (seedingMethod, seedingData))
     = Ret (StatusBadRequest "Invalid request format")).
Proof.
  split; [|split].
  - intros [[seedingMethod seedingData]|]; [|done].
    unfold HandleGenerateFixtures. case_decide; [|done].
    destruct (generate tournamentID seedingMethod seedingData) as [fx|e| |];
      [done| |done..].
    by destruct e.
  - intros seedingMethod seedingData Hmethod. unfold HandleGenerateFixtures.
    rewrite decide_True by done. split; by intros ->.
  - intros seedingMethod seedingData Hmethod. unfold HandleGenerateFixtures.
    by rewrite decide_False.
Qed.
End HandlerResponses.

Lemma HandleGenerateFixtures_capacity_response_witness :
  HandleGenerateFixtures mergeSortSlice exampleEntropy exampleUUID noFixtures
    noFixtures noFixtures exampleFullRepos "t1" (Some ("manual", []))
  = Ret (StatusInternalServerError "Failed to generate fixtures").
Proof.
  destruct (HandleGenerateFixtures_capacity_response mergeSortSlice exampleEntropy
              exampleUUID noFixtures noFixtures noFixtures exampleFullRepos "t1")
    as (_ & Hcap & _).
  destruct (Hcap "manual" []) as [Hfail _]; [by left|].
  apply Hfail. by vm_compute.
Defined.

(** ** Publication *)

Lemma TournamentRow_NoDup_ID_eq (table : list TournamentRow.t)
    (r t : TournamentRow.t) :
  NoDup (TournamentRow.ID <$> table) → r ∈ table → t ∈ table →
  TournamentRow.ID r = TournamentRow.ID t → r = t.
Proof.
  intros Hnd Hr Ht Hid.
  apply list_elem_of_lookup_1 in Hr as [i Hi], Ht as [j Hj].
  pose proof (NoDup_fmap_lookup TournamentRow.ID table i j r t Hnd Hi Hj Hid) as ->.
  congruence.
Qed.

Lemma overwrite_setStatus (status : string) (public : bool) (r : TournamentRow.t) :
  TournamentRow.overwrite (TournamentRow.setStatus status public r) r
  = TournamentRow.setStatus status public r.
Proof. by destruct r as [[] ?]. Qed.

Lemma head_filter_TournamentRow (id : string) (table : list TournamentRow.t)
    (t : TournamentRow.t) :
  head (filter (λ r, TournamentRow.ID r = id) table) = Some t →
  t ∈ table ∧ TournamentRow.ID t = id.
Proof.
  intros Ht. apply head_Some_elem_of in Ht.
  by apply list_elem_of_filter in Ht as [? ?].
Qed.

Lemma head_filter_published (id id' : string) (table : list TournamentRow.t) :
  head (filter (λ r, TournamentRow.ID r = id') (published id table))
  = (λ r, if decide (TournamentRow.ID r = id)
          then TournamentRow.setStatus StatusRegistrationOpen true r else r)
      <$> head (filter (λ r, TournamentRow.ID r = id') table).
Proof.
  unfold published. induction table as [|r table IH]; [done|].
  rewrite fmap_cons, !filter_cons.
  assert (TournamentRow.ID
            (if decide (TournamentRow.ID r = id)
             then TournamentRow.setStatus StatusRegistrationOpen true r else r)
          = TournamentRow.ID r) as -> by (by case_decide).
  by case_decide.
Qed.

(** X28: with distinct tournament identifiers, [Publish] returns without
    an error only for a tournament that exists as a draft and has a venue;
    the table is then the old one with the status registration open and the
    public flag set in the tournament's row; a second [Publish] of the
    tournament fails because it is no draft any more; and
    [GenerateFixtures], reading the tournament from this table, fails
    because registration is not closed. *)
Theorem Publish_lifecycle (o : PublishOutcomes) (id : string)
    (table table' : list TournamentRow.t) :
  NoDup (TournamentRow.ID <$> table) →
  Publish o id table = (table', None) →
  (∃ t venues,
     head (filter (λ r, TournamentRow.ID r = id) table) = Some t ∧
     TournamentRow.Status t = StatusDraft ∧
     venuesOfTournament o = Some venues ∧ venues ≠ []) ∧
  table' = published id table ∧
  (∀ o', getTournamentOk o' = true →
         Publish o' id table' = (table', Some ErrPublishNotDraft)) ∧
  (∀ sortSlice entropy GenerateUUID generateDoubleEliminationFixtures
     generateGroupToKnockoutFixtures generateSwissFirstRound repos
     seedingMethod seedingData,
     TournamentGetByIDWithDetails repos id
     = TournamentRow.Tournament
         <$> head (filter (λ r, TournamentRow.ID r = id) table') →
     GenerateFixtures sortSlice entropy GenerateUUID
       generateDoubleEliminationFixtures generateGroupToKnockoutFixtures
       generateSwissFirstRound repos id seedingMethod seedingData
     = Fail ErrRegistrationNotClosed).
Proof.
  intros Hnd. unfold Publish, TournamentRepository.GetByID.
  destruct (getTournamentOk o); [|done].
  destruct (head _) as [t|] eqn:Ht; [|done].
  case_decide as Hstatus; [done|].
  destruct (venuesOfTournament o) as [venues|]; [|done].
  case_decide as Hvenues; [done|].
  unfold TournamentRepository.Update.
  destruct (updateTournamentOk o); [|done]. intros [= <-].
  pose proof (head_filter_TournamentRow _ _ _ Ht) as [Hin Hid].
  assert (Htable :
    (λ r, if decide (TournamentRow.ID r
                     = TournamentRow.ID
                         (TournamentRow.setStatus StatusRegistrationOpen true t))
          then TournamentRow.overwrite
                 (TournamentRow.setStatus StatusRegistrationOpen true t) r
          else r) <$> table
    = published id table).
  { unfold published. apply list_fmap_ext. intros i r Hr.
    apply list_elem_of_lookup_2 in Hr.
    change (TournamentRow.ID (TournamentRow.setStatus StatusRegistrationOpen true t))
      with (TournamentRow.ID t).
    rewrite Hid. case_decide as Heq; [|done].
    assert (r = t) as -> by (eapply TournamentRow_NoDup_ID_eq; eauto; congruence).
    apply overwrite_setStatus. }
  rewrite Htable.
  assert (Hhead : head (filter (λ r, TournamentRow.ID r = id) (published id table))
                  = Some (TournamentRow.setStatus StatusRegistrationOpen true t)).
  { rewrite head_filter_published, Ht. cbn [fmap option_fmap option_map].
    by rewrite decide_True. }
  split; [|split; [done|split]].
  - exists t, venues. split; [done|]. split; [done|]. split; [done|].
    by destruct venues.
  - intros o' Hget. unfold Publish, TournamentRepository.GetByID.
    rewrite Hget, Hhead. by rewrite decide_True.
  - intros sortSlice entropy GenerateUUID gen1 gen2 gen3 repos seedingMethod
      seedingData Hrepos.
    unfold GenerateFixtures. rewrite Hrepos, Hhead.
    cbn [fmap option_fmap option_map]. by rewrite decide_True.
Qed.

Lemma Publish_lifecycle_witness :
  NoDup (TournamentRow.ID <$> exampleDraftTable) ∧
  ∃ table',
    Publish publishOk "t1" exampleDraftTable = (table', None) ∧
    Publish publishOk "t1" table' = (table', Some ErrPublishNotDraft).
Proof.
  assert (Hnd : NoDup (TournamentRow.ID <$> exampleDraftTable))
    by (apply (bool_decide_unpack _); by vm_compute).
  split; [exact Hnd|]. eexists. split; [reflexivity|].
  destruct (Publish_lifecycle publishOk "t1" exampleDraftTable _ Hnd eq_refl)
    as (_ & _ & Hagain & _).
  by apply Hagain.
Defined.

(** ** The slots of the capacity calculator *)

(** X29: the total match slots are the smaller of [MaxMatchesPerDay * days]
    and [matchesPerVenuePerDay * len(Venues) * days], the products being those
    of Go's [int] and the days those of [calculateTournamentDays]; the
    single-elimination capacity is that number plus one; over a span of a
    whole number of days the days are that number plus one; and the request
    of the example (one day, 4 matches a day, one venue, 09:00 to 17:00, 30
    minute matches, 10 minute buffers) has capacity 5. *)
Theorem capacity_slots_formula (fl : Float64Ops) (req : Req.t) :
  GoInt.add (Req.AvgMatchDuration req) (Req.BufferTime req) ≠ 0 →
  let days := calculateTournamentDays (Req.StartDate req) (Req.EndDate req) in
  ∃ dailyMinutes matchesPerVenuePerDay slots,
    calculateDailyOperationalMinutes (Req.OperationalHours req) = Ret dailyMinutes ∧
    GoInt.div dailyMinutes (GoInt.add (Req.AvgMatchDuration req) (Req.BufferTime req))
      = Ret matchesPerVenuePerDay ∧
    slots = Z.min (GoInt.mul (Req.MaxMatchesPerDay req) days)
              (GoInt.mul
                 (GoInt.mul matchesPerVenuePerDay (Z.of_nat (length (Req.Venues req))))
                 days) ∧
    totalMatchSlots req = Ret slots ∧
    (Req.FormatType req = FormatSingleElimination →
     calculateTournamentCapacity fl req = Ret (GoInt.add slots 1)) ∧
    (∀ k, 0 ≤ k → k * (24 * nanosPerHour) ≤ maxDuration →
          Req.EndDate req = Req.StartDate req + k * (24 * nanosPerHour) →
          days = k + 1) ∧
    (∀ day, calculateTournamentCapacity fl (exampleRequestAt day) = Ret 5).
Proof.
  intros Hdiv days.
  destruct (calculateDailyOperationalMinutes_returns (Req.OperationalHours req))
    as [dailyMinutes Hdaily].
  exists dailyMinutes. eexists. eexists.
  split; [done|]. split; [unfold GoInt.div; by rewrite decide_False|].
  split; [reflexivity|].
  assert (Hslots : totalMatchSlots req
    = Ret (Z.min (GoInt.mul (Req.MaxMatchesPerDay req) days)
             (GoInt.mul
                (GoInt.mul
                   (GoInt.wrap (dailyMinutes `quot`
                      GoInt.add (Req.AvgMatchDuration req) (Req.BufferTime req)))
                   (Z.of_nat (length (Req.Venues req))))
                days))).
  { unfold totalMatchSlots. rewrite Hdaily. cbn [mbind result_bind].
    unfold GoInt.div. rewrite decide_False by done. cbn [mbind result_bind].
    fold days. case_decide; f_equal; lia. }
  split; [exact Hslots|]. split; [|split].
  - intros Hformat. unfold calculateTournamentCapacity. rewrite Hslots.
    cbn [mbind result_bind]. unfold formatCapacity. by rewrite decide_True.
  - intros k Hk Hmax Hend. unfold days. rewrite Hend.
    by apply calculateTournamentDays_whole_days.
  - intros day. unfold calculateTournamentCapacity, totalMatchSlots.
    cbn [exampleRequestAt Req.StartDate Req.EndDate].
    rewrite calculateTournamentDays_same. reflexivity.
Qed.

Lemma capacity_slots_formula_witness :
  GoInt.add (Req.AvgMatchDuration exampleRequest) (Req.BufferTime exampleRequest) ≠ 0 ∧
  calculateTournamentCapacity exactFloat64 exampleRequest = Ret 5.
Proof.
  split; [by vm_compute|].
  destruct (capacity_slots_formula exactFloat64 exampleRequest)
    as (d & m & s & _ & _ & _ & _ & _ & _ & H); [by vm_compute|].
  exact (H 0).
Defined.
